(** * The form API of oss-forms-api

    Shallow embedding of the rate limiter
    ([src/app/utils/rate_limiter.py], class [RateLimiter]), of the API
    keys ([src/app/auth/api_key_auth.py]), of the validation
    ([src/app/utils/validation.py]) and of the endpoint [/submit-form]
    ([src/app/main.py]), and the properties of the specification.

    Conventions of the embedding of the rate limiter.
    - A timestamp ([time.time()]) is an integer number of seconds, [Z]; the
      code only compares timestamps, adds or subtracts a window length, and
      tests one for truthiness ([0.0] is falsy).  The clock is an argument
      [current_time] of every operation.
    - A request log ([collections.deque]) is a [list Z] whose head is the
      left end: [popleft] is the tail, [append] adds at the right.
    - [self.requests] ([defaultdict(deque)]) is a [gmap string (list Z)];
      reading [self.requests[k]] for an absent [k] inserts an empty log.
      The deque fetched from the map is aliased, not copied: what the code
      does to it is written back under the same key.
    - [self.limits] and [self.windows] are never assigned after [__init__];
      they are constants, kept as association lists in insertion order
      (the order in which [.items()] iterates).
    - An operation takes the state and returns its result with the
      successor state. *)

From stdpp Require Import gmap strings list fin_maps.
From Stdlib Require Import ZArith Lia Sorted Ascii.
From stdpp Require sorting.

Local Open Scope string_scope.
Local Open Scope list_scope.
Local Open Scope Z_scope.

(** * Python strings

    A [str] is a [string], one [ascii] per character: the functions below
    follow Python on the strings whose characters are below U+0100. *)

Module PyStr.

(** Truthiness of a [str]: only the empty string is falsy. *)
Definition truthy (s : string) : bool :=
  match s with
  | EmptyString => false
  | String _ _ => true
  end.

(** [c.isspace()]: the characters U+0009 to U+000D, U+001C to U+0020,
    U+0085 and U+00A0. *)
Definition isspace (c : ascii) : bool :=
  let n := nat_of_ascii c in
  ((9 <=? n) && (n <=? 13) || (28 <=? n) && (n <=? 32)
   || (n =? 133) || (n =? 160))%nat.

(** [s.lstrip()] *)
Fixpoint lstrip (s : string) : string :=
  match s with
  | EmptyString => EmptyString
  | String c s' => if isspace c then lstrip s' else s
  end.

(** [s.rstrip()] *)
Fixpoint rstrip (s : string) : string :=
  match s with
  | EmptyString => EmptyString
  | String c s' =>
      match rstrip s' with
      | EmptyString => if isspace c then EmptyString else String c EmptyString
      | String c' r => String c (String c' r)
      end
  end.

(** [s.strip()] *)
Definition strip (s : string) : string := lstrip (rstrip s).

(** [s.split(sep)] for a separator of one character: never the empty
    list, [['']] for the empty string. *)
Fixpoint split (sep : ascii) (s : string) : list string :=
  match s with
  | EmptyString => [EmptyString]
  | String c s' =>
      if Ascii.eqb c sep then EmptyString :: split sep s'
      else match split sep s' with
           | piece :: pieces => String c piece :: pieces
           | [] => [String c EmptyString]
           end
  end.

(** [sep.join(l)] *)
Fixpoint join (sep : string) (l : list string) : string :=
  match l with
  | [] => EmptyString
  | [x] => x
  | x :: l' => x +:+ sep +:+ join sep l'
  end.

(** [s[:n]] *)
Fixpoint prefix (n : nat) (s : string) : string :=
  match n, s with
  | S n', String c s' => String c (prefix n' s')
  | _, _ => EmptyString
  end.

(** The characters of a string, in order. *)
Definition chars (s : string) : list ascii :=
  Stdlib.Strings.String.list_ascii_of_string s.

End PyStr.

(** * API keys ([src/app/auth/api_key_auth.py])

    The environment variable [VALID_API_KEYS] is the argument
    [api_keys_env] of [_load_api_keys] (the empty string when it is not
    set); a raised [ValueError] is the result [Raises] with its message. *)

Module APIKeyAuth.

(** The value stored for a key: [{'name': ..., 'active': ...}]. *)
Record key_info : Type := { name : string; active : bool }.

Inductive outcome (A : Type) : Type :=
  | Returns (a : A)
  | Raises (message : string).
Arguments Returns {A} a.
Arguments Raises {A} message.

Definition client_info : key_info := {| name := "Client"; active := true |}.

(** The loop [for key in api_keys_env.split(',')] of [_load_api_keys],
    over the pieces left, with the dict built so far. *)
Fixpoint load_loop (pieces : list string) (api_keys : gmap string key_info)
    : outcome (gmap string key_info) :=
  match pieces with
  | [] => Returns api_keys
  | key :: rest =>
      let key := PyStr.strip key in
      if PyStr.truthy key then
        if (String.length key <? 16)%nat
        then Raises ("API key too short: " +:+ PyStr.prefix 8 key
                     +:+ "... (minimum 16 characters required)")
        else load_loop rest (<[key := client_info]> api_keys)
      else load_loop rest api_keys
  end.

Definition _load_api_keys (api_keys_env : string)
    : outcome (gmap string key_info) :=
  if PyStr.truthy api_keys_env then
    match load_loop (PyStr.split "," api_keys_env) ∅ with
    | Returns api_keys =>
        if decide (api_keys = ∅)
        then Raises
               "No valid API keys found in VALID_API_KEYS environment variable"
        else Returns api_keys
    | Raises message => Raises message
    end
  else
    Raises ("CRITICAL SECURITY ERROR: No API keys configured! "
            +:+ "You must set the VALID_API_KEYS environment variable with valid API keys. "
            +:+ "Example: VALID_API_KEYS=your-secret-key-1,your-secret-key-2").

(** The keys that [api_keys_env] configures: its comma-separated pieces,
    stripped, the empty ones left out. *)
Definition configured_keys (api_keys_env : string) : list string :=
  filter (fun key => key ≠ EmptyString)
    (PyStr.strip <$> PyStr.split "," api_keys_env).

(** [is_valid_key]: the truth value of what the method returns ([False],
    [None] for an unknown key, the key's ['active'] entry otherwise). *)
Definition is_valid_key (valid_api_keys : gmap string key_info)
    (api_key : option string) : bool :=
  match api_key with
  | Some k =>
      if PyStr.truthy k then
        match valid_api_keys !! k with
        | Some info => active info
        | None => false
        end
      else false
  | None => false
  end.

(** [get_key_info]: [None] stands for the empty dict returned for an
    unknown key. *)
Definition get_key_info (valid_api_keys : gmap string key_info)
    (api_key : string) : option key_info :=
  valid_api_keys !! api_key.

End APIKeyAuth.

(** * Regular expressions

    The patterns of [src/app/utils/validation.py] use literals, character
    classes, concatenation, [?], [+], [*] and [{2,}]; [re.match] and
    [re.search] are asked only whether a match exists.  A pattern is
    kept as a [regex] and matched by derivatives. *)

Module Regex.

Inductive regex : Type :=
  | Void
  | Eps
  | Class (p : ascii → bool)
  | Cat (r1 r2 : regex)
  | Alt (r1 r2 : regex)
  | Star (r : regex).

Fixpoint nullable (r : regex) : bool :=
  match r with
  | Void => false
  | Eps => true
  | Class _ => false
  | Cat r1 r2 => nullable r1 && nullable r2
  | Alt r1 r2 => nullable r1 || nullable r2
  | Star _ => true
  end.

Fixpoint deriv (c : ascii) (r : regex) : regex :=
  match r with
  | Void => Void
  | Eps => Void
  | Class p => if p c then Eps else Void
  | Cat r1 r2 =>
      if nullable r1 then Alt (Cat (deriv c r1) r2) (deriv c r2)
      else Cat (deriv c r1) r2
  | Alt r1 r2 => Alt (deriv c r1) (deriv c r2)
  | Star r1 => Cat (deriv c r1) (Star r1)
  end.

(** Whether the whole of [s] is a match of [r]. *)
Fixpoint matches (r : regex) (s : string) : bool :=
  match s with
  | EmptyString => nullable r
  | String c s' => matches (deriv c r) s'
  end.

(** The strings a pattern stands for. *)
Inductive lang : regex → string → Prop :=
  | lang_eps : lang Eps EmptyString
  | lang_class p c : p c = true → lang (Class p) (String c EmptyString)
  | lang_cat r1 r2 s1 s2 :
      lang r1 s1 → lang r2 s2 → lang (Cat r1 r2) (s1 +:+ s2)
  | lang_alt_l r1 r2 s : lang r1 s → lang (Alt r1 r2) s
  | lang_alt_r r1 r2 s : lang r2 s → lang (Alt r1 r2) s
  | lang_star_nil r : lang (Star r) EmptyString
  | lang_star_cons r s1 s2 :
      lang r s1 → lang (Star r) s2 → lang (Star r) (s1 +:+ s2).

(** [x] *)
Definition chr (c : ascii) : regex := Class (Ascii.eqb c).

(** A literal word. *)
Fixpoint lit (w : string) : regex :=
  match w with
  | EmptyString => Eps
  | String c w' => Cat (chr c) (lit w')
  end.

(** [r+], [r?] and [r{2,}] *)
Definition plus (r : regex) : regex := Cat r (Star r).
Definition opt (r : regex) : regex := Alt Eps r.
Definition two_or_more (r : regex) : regex := Cat r (Cat r (Star r)).

(** Any string. *)
Definition anything : regex := Star (Class (fun _ => true)).

Definition newline : ascii := ascii_of_nat 10.

(** The string of one newline. *)
Definition nl : string := String newline EmptyString.

(** [re.match('^' + r + '$', s) is not None]: [$] matches at the end of
    the string and just before a newline that ends the string. *)
Definition match_to_end (r : regex) (s : string) : bool :=
  matches r s || matches (Cat r (chr newline)) s.

(** [re.search(r, s) is not None]: a match of [r] somewhere in [s]. *)
Definition search (r : regex) (s : string) : bool :=
  matches (Cat anything (Cat r anything)) s.

End Regex.

(** * Validation ([src/app/utils/validation.py]) *)

Module Validation.
Import Regex.

Definition in_range (lo hi : nat) (c : ascii) : bool :=
  ((lo <=? nat_of_ascii c) && (nat_of_ascii c <=? hi))%nat.

(** [a-z], [A-Z], [0-9] *)
Definition is_lower (c : ascii) : bool := in_range 97 122 c.
Definition is_upper (c : ascii) : bool := in_range 65 90 c.
Definition is_digit (c : ascii) : bool := in_range 48 57 c.
Definition is_alpha (c : ascii) : bool := is_lower c || is_upper c.
Definition is_alnum (c : ascii) : bool := is_alpha c || is_digit c.

(** Whether [c] is one of the characters of [set]. *)
Fixpoint one_of (set : string) (c : ascii) : bool :=
  match set with
  | EmptyString => false
  | String x set' => Ascii.eqb c x || one_of set' c
  end.

(** [[a-zA-Z0-9._%+-]] and [[a-zA-Z0-9.-]] *)
Definition local_char (c : ascii) : bool := is_alnum c || one_of "._%+-" c.
Definition domain_char (c : ascii) : bool := is_alnum c || one_of ".-" c.

(** [^[a-zA-Z0-9._%+-]+@[a-zA-Z0-9.-]+\.[a-zA-Z]{2,}$] without its
    anchors. *)
Definition email_pattern : regex :=
  Cat (plus (Class local_char))
    (Cat (chr "@")
       (Cat (plus (Class domain_char))
          (Cat (chr ".") (two_or_more (Class is_alpha))))).

(** [validate_email] on a [str] (the callers pass [str(...)] or ['']). *)
Definition validate_email (email : string) : bool :=
  PyStr.truthy email && match_to_end email_pattern email.

(** [[^\s/$.?#]], [.] and [[^\s]] *)
Definition host_start_char (c : ascii) : bool :=
  negb (PyStr.isspace c) && negb (one_of "/$.?#" c).
Definition not_newline (c : ascii) : bool := negb (Ascii.eqb c newline).
Definition not_space (c : ascii) : bool := negb (PyStr.isspace c).

(** [^https?://[^\s/$.?#].[^\s]*$] without its anchors. *)
Definition url_pattern : regex :=
  Cat (lit "http")
    (Cat (opt (chr "s"))
       (Cat (lit "://")
          (Cat (Class host_start_char)
             (Cat (Class not_newline) (Star (Class not_space)))))).

(** [_validate_url] on a [str]. *)
Definition _validate_url (url : string) : bool :=
  PyStr.truthy url && match_to_end url_pattern url.

(** [\w] on the characters below U+0100: letters, digits and the
    underscore of ASCII, and the letters and numeric characters of
    Latin-1. *)
Definition is_word (c : ascii) : bool :=
  is_alnum c || one_of "_" c
  || in_range 170 170 c || in_range 178 179 c || in_range 181 181 c
  || in_range 185 186 c || in_range 188 190 c || in_range 192 214 c
  || in_range 216 246 c || in_range 248 255 c.

(** [c.lower()] on the characters below U+0100. *)
Definition lower_char (c : ascii) : ascii :=
  if is_upper c || in_range 192 214 c || in_range 216 222 c
  then ascii_of_nat (nat_of_ascii c + 32) else c.

(** [s.lower()] *)
Fixpoint lower (s : string) : string :=
  match s with
  | EmptyString => EmptyString
  | String c s' => String (lower_char c) (lower s')
  end.

Definition not_gt (c : ascii) : bool := negb (Ascii.eqb c ">").

(** The list [suspicious_patterns], in its order. *)
Definition suspicious_patterns : list regex :=
  [ Cat (lit "<script") (Cat (Star (Class not_gt)) (chr ">"));
    lit "javascript:";
    Cat (lit "on") (Cat (plus (Class is_word))
                      (Cat (Star (Class PyStr.isspace)) (chr "=")));
    Cat (lit "eval") (Cat (Star (Class PyStr.isspace)) (chr "("));
    lit "document.";
    lit "window.";
    lit "<iframe";
    lit "<object";
    lit "<embed" ].

(** The flag [re.IGNORECASE] on a pattern whose letters are lower-case
    letters, the text being a [str] of characters below U+0100: a
    character of the text is compared in its lower-case form.  A letter
    of the pattern so matches the characters whose lower-case form it is;
    a character of the pattern without case, and the classes [[^>]], [\w]
    and [\s], match what they match without the flag.  The characters
    that Python also takes for a letter of the patterns under this flag,
    U+0131 for [i] and U+017F for [s], are not below U+0100: on a text
    that holds them the search of the code finds more than this one. *)
Fixpoint ignorecase (r : regex) : regex :=
  match r with
  | Void => Void
  | Eps => Eps
  | Class p => Class (fun c => p (lower_char c))
  | Cat r1 r2 => Cat (ignorecase r1) (ignorecase r2)
  | Alt r1 r2 => Alt (ignorecase r1) (ignorecase r2)
  | Star r1 => Star (ignorecase r1)
  end.

(** [_contains_suspicious_content] on a [str] of characters below U+0100:
    [re.search(pattern, content_lower, re.IGNORECASE)] for each pattern
    in turn. *)
Definition _contains_suspicious_content (content : string) : bool :=
  let content_lower := lower content in
  existsb (fun pattern => search (ignorecase pattern) content_lower)
    suspicious_patterns.

(** ** Shapes used by the statements *)

(** [local@domain.tld] *)
Definition email_shape (s : string) : Prop :=
  ∃ local domain tld,
    s = local +:+ "@" +:+ domain +:+ "." +:+ tld ∧
    local ≠ EmptyString ∧
    Forall (fun c => local_char c = true) (PyStr.chars local) ∧
    domain ≠ EmptyString ∧
    Forall (fun c => domain_char c = true) (PyStr.chars domain) ∧
    (2 ≤ String.length tld)%nat ∧
    Forall (fun c => is_alpha c = true) (PyStr.chars tld).

(** [http://] or [https://], two characters, and the rest. *)
Definition url_shape (s : string) : Prop :=
  ∃ scheme c1 c2 rest,
    s = scheme +:+ String c1 (String c2 rest) ∧
    (scheme = "http://" ∨ scheme = "https://") ∧
    host_start_char c1 = true ∧
    not_newline c2 = true ∧
    Forall (fun c => not_space c = true) (PyStr.chars rest).

(** [s] holds [w]. *)
Definition contains (w s : string) : Prop :=
  ∃ before after, s = before +:+ w +:+ after.

(** What the nine patterns look for, in their order. *)
Definition suspicious_text (t : string) : Prop :=
  (∃ attrs,
     Forall (fun c => not_gt c = true) (PyStr.chars attrs) ∧
     contains ("<script" +:+ attrs +:+ ">") t) ∨
  contains "javascript:" t ∨
  (∃ word blanks,
     word ≠ EmptyString ∧
     Forall (fun c => is_word c = true) (PyStr.chars word) ∧
     Forall (fun c => PyStr.isspace c = true) (PyStr.chars blanks) ∧
     contains ("on" +:+ word +:+ blanks +:+ "=") t) ∨
  (∃ blanks,
     Forall (fun c => PyStr.isspace c = true) (PyStr.chars blanks) ∧
     contains ("eval" +:+ blanks +:+ "(") t) ∨
  contains "document." t ∨
  contains "window." t ∨
  contains "<iframe" t ∨
  contains "<object" t ∨
  contains "<embed" t.

(** ** The two substitutions of [sanitize_field_value] *)

(** [<[^>]+>] *)
Definition tag_pattern : regex :=
  Cat (chr "<") (Cat (plus (Class not_gt)) (chr ">")).

(** Whether [>] is among the characters of [s]. *)
Fixpoint has_gt (s : string) : bool :=
  match s with
  | EmptyString => false
  | String c s' => Ascii.eqb c ">" || has_gt s'
  end.

(** Whether a match of [<[^>]+>] starts at a [<] that [rest] follows:
    [rest] begins with a character other than [>] and holds a [>]
    further on.  The match then ends at the first [>] of [rest]. *)
Definition tag_starts (rest : string) : bool :=
  match rest with
  | EmptyString => false
  | String c rest' => not_gt c && has_gt rest'
  end.

(** [re.sub(r'<[^>]+>', '', s)]: the string is read from the left; where
    a match starts it is left out, up to its [>], and the reading goes on
    after it.  [inside] tells that the characters read are those of a
    match. *)
Fixpoint remove_tags (inside : bool) (s : string) : string :=
  match s with
  | EmptyString => EmptyString
  | String c s' =>
      if inside then
        if Ascii.eqb c ">" then remove_tags false s' else remove_tags true s'
      else if Ascii.eqb c "<" && tag_starts s' then remove_tags true s'
      else String c (remove_tags false s')
  end.

(** [[\x00-\x08\x0b\x0c\x0e-\x1f\x7f]] *)
Definition is_control (c : ascii) : bool :=
  in_range 0 8 c || in_range 11 12 c || in_range 14 31 c || in_range 127 127 c.

(** [re.sub(r'[\x00-\x08\x0b\x0c\x0e-\x1f\x7f]', '', s)] *)
Fixpoint remove_control (s : string) : string :=
  match s with
  | EmptyString => EmptyString
  | String c s' =>
      if is_control c then remove_control s' else String c (remove_control s')
  end.

(** No match of [<[^>]+>] starts at any [<] of [s]. *)
Fixpoint tag_free (s : string) : Prop :=
  match s with
  | EmptyString => True
  | String c s' => (c = "<"%char → tag_starts s' = false) ∧ tag_free s'
  end.

(** ** Form data ([validate_form_data])

    [form_data] is what [request.get_json()] returned: a JSON value as
    [json.loads] builds it.  A dict is the list of its items in the order
    of [.items()]; its keys are strings, each once.  The numbers (Python
    [int] and [float]) are a parameter, with their truth value; so is
    [str], which the code applies to values of any JSON type. *)

Section FormData.

Variable number : Type.
Variable number_truthy : number → bool.

#[warnings="-register-all"]
Inductive json : Type :=
  | JNull
  | JBool (b : bool)
  | JNumber (x : number)
  | JStr (s : string)
  | JList (elements : list json)
  | JDict (items : list (string * json)).

(** [str(v)] *)
Variable py_str : json → string.

(** [bool(v)]: [None], [False], zero, and the empty string, list and
    dict are falsy. *)
Definition truthy_json (v : json) : bool :=
  match v with
  | JNull => false
  | JBool b => b
  | JNumber x => number_truthy x
  | JStr s => PyStr.truthy s
  | JList [] => false
  | JList (_ :: _) => true
  | JDict [] => false
  | JDict (_ :: _) => true
  end.

(** [d.get(k)]: [None] for a key that [d] does not hold. *)
Fixpoint dict_get (k : string) (d : list (string * json)) : option json :=
  match d with
  | [] => None
  | (k', v) :: d' => if String.eqb k k' then Some v else dict_get k d'
  end.

(** [bool(d.get(k))]: an absent key gives [None], which is falsy. *)
Definition get_truthy (k : string) (d : list (string * json)) : bool :=
  match dict_get k d with
  | Some v => truthy_json v
  | None => false
  end.

(** [len(v)]; [None] stands for the [TypeError] raised for a value
    without a length. *)
Definition py_len (v : json) : option nat :=
  match v with
  | JStr s => Some (String.length s)
  | JList elements => Some (length elements)
  | JDict items => Some (length items)
  | JNull | JBool _ | JNumber _ => None
  end.

Inductive outcome (A : Type) : Type :=
  | Returns (a : A)
  | RaisesTypeError.

Definition required_fields : list string := ["to_email"; "fields"].

(** The list [missing_fields] after the first loop. *)
Definition missing_fields (d : list (string * json)) : list string :=
  List.filter (fun field => negb (get_truthy field d)) required_fields.

(** The loop over [fields.items()]: the name of the first field whose
    value is flagged, [None] when the loop ends.  The keys of a JSON
    object are strings, so [isinstance(field_name, str)] holds. *)
Fixpoint first_suspicious_field (fields : list (string * json))
    : option string :=
  match fields with
  | [] => None
  | (field_name, field_value) :: rest =>
      if _contains_suspicious_content (py_str field_value)
      then Some field_name
      else first_suspicious_field rest
  end.

(** The checks on [subject] and [source_url], which end the function. *)
Definition validate_subject_and_url (d : list (string * json))
    : outcome (bool * string) :=
  let subject := default (JStr EmptyString) (dict_get "subject" d) in
  let url_check :=
    let invalid_url :=
      match dict_get "source_url" d with
      | Some (JStr url) => PyStr.truthy url && negb (_validate_url url)
      | Some source_url => truthy_json source_url
      | None => false
      end in
    if invalid_url
    then Returns _ (false, "Invalid source_url format")
    else Returns _ (true, "Validation passed") in
  if truthy_json subject then
    match py_len subject with
    | None => RaisesTypeError _
    | Some n =>
        if (200 <? n)%nat
        then Returns _ (false, "Subject line too long (max 200 characters)")
        else url_check
    end
  else url_check.

(** Whether the checks that come before the subject all pass on the dict
    [d]: no required field missing, [to_email] and [from_email] valid,
    [fields] a dict that is not empty and has no flagged value. *)
Definition reaches_subject_check (d : list (string * json)) : bool :=
  match missing_fields d with
  | _ :: _ => false
  | [] =>
      validate_email
        (match dict_get "to_email" d with
         | Some v => if truthy_json v then py_str v else EmptyString
         | None => EmptyString
         end)
      && negb (match dict_get "from_email" d with
               | Some v => truthy_json v && negb (validate_email (py_str v))
               | None => false
               end)
      && match dict_get "fields" d with
         | Some (JDict (field :: fields)) =>
             match first_suspicious_field (field :: fields) with
             | Some _ => false
             | None => true
             end
         | _ => false
         end
  end.

(** [validate_form_data]: the pair is the returned dict
    [{'valid': ..., 'message': ...}]. *)
Definition validate_form_data (form_data : json) : outcome (bool * string) :=
  match form_data with
  | JDict d =>
      match missing_fields d with
      | _ :: _ =>
          Returns _ (false, "Missing required fields: "
                            +:+ PyStr.join ", " (missing_fields d))
      | [] =>
          let to_email :=
            match dict_get "to_email" d with
            | Some v => if truthy_json v then py_str v else EmptyString
            | None => EmptyString
            end in
          if negb (validate_email to_email)
          then Returns _ (false, "Invalid to_email format")
          else
            let bad_from_email :=
              match dict_get "from_email" d with
              | Some v => truthy_json v && negb (validate_email (py_str v))
              | None => false
              end in
            if bad_from_email
            then Returns _ (false, "Invalid from_email format")
            else
              match dict_get "fields" d with
              | Some (JDict []) =>
                  Returns _ (false, "At least one form field is required")
              | Some (JDict fields) =>
                  match first_suspicious_field fields with
                  | Some field_name =>
                      Returns _ (false,
                                 "Suspicious content detected in field: "
                                 +:+ field_name)
                  | None => validate_subject_and_url d
                  end
              | _ => Returns _ (false, "Fields must be a JSON object")
              end
      end
  | _ => Returns _ (false, "Form data must be a JSON object")
  end.

(** [sanitize_field_value] *)
Definition sanitize_field_value (value : json) : string :=
  match value with
  | JNull => EmptyString
  | _ =>
      let str_value := PyStr.prefix 1000 (py_str value) in
      let str_value := remove_tags false str_value in
      let str_value := remove_control str_value in
      PyStr.strip str_value
  end.

End FormData.

Arguments JNull {number}.
Arguments JBool {number} b.
Arguments JNumber {number} x.
Arguments JStr {number} s.
Arguments JList {number} elements.
Arguments JDict {number} items.
Arguments Returns {A} a.
Arguments RaisesTypeError {A}.
Arguments dict_get {number} k d.
Arguments py_len {number} v.

End Validation.

(** * The rate limiter ([src/app/utils/rate_limiter.py]) *)

Module RateLimiter.

(** ** Configuration ([__init__]) *)

Definition limits : list (string * Z) :=
  [("per_minute", 10); ("per_hour", 100); ("per_day", 1000)].

Definition windows : list (string * Z) :=
  [("per_minute", 60); ("per_hour", 3600); ("per_day", 86400)].

(** [d[k]] on a dict kept as an association list. *)
Fixpoint getitem (k : string) (d : list (string * Z)) : option Z :=
  match d with
  | [] => None
  | (k', v) :: d' => if String.eqb k k' then Some v else getitem k d'
  end.

(** [self.windows[limit_type]].  The default stands for the [KeyError],
    which no key of [limits] raises (lemma [limits_keys_in_windows]). *)
Definition windows_at (limit_type : string) : Z :=
  default 0 (getitem limit_type windows).

(** The limiter state: [self.requests]. *)
Abbreviation State := (gmap string (list Z)).

(** The state built by [__init__]. *)
Definition init : State := ∅.

(** ** Client identity *)

(** Truthiness of a [str]: only the empty string is falsy. *)
Definition truthy (s : string) : bool :=
  match s with
  | EmptyString => false
  | String _ _ => true
  end.

(** [f"{client_ip}:{api_key}" if api_key else client_ip]; [None] and the
    empty string are both falsy. *)
Definition client_id_of (client_ip : string) (api_key : option string) : string :=
  match api_key with
  | Some k => if truthy k then client_ip +:+ ":" +:+ k else client_ip
  | None => client_ip
  end.

(** [self.requests[client_id]] on the [defaultdict]: the log, and the map
    with the key created when it was absent. *)
Definition requests_getitem (client_id : string) (s : State) : list Z * State :=
  match s !! client_id with
  | Some q => (q, s)
  | None => ([], <[client_id := []]> s)
  end.

(** ** Admission *)

(** [while q and q[0] < cutoff_time: q.popleft()] *)
Fixpoint popleft_while_older (cutoff_time : Z) (q : list Z) : list Z :=
  match q with
  | [] => []
  | t :: q' => if t <? cutoff_time then popleft_while_older cutoff_time q' else q
  end.

(** [while len(q) > max_stored_requests: q.popleft()] *)
Fixpoint popleft_while_longer (max_stored : Z) (q : list Z) : list Z :=
  match q with
  | [] => []
  | _ :: q' =>
      if Z.of_nat (length q) >? max_stored
      then popleft_while_longer max_stored q' else q
  end.

(** The loop [for limit_type, limit_count in self.limits.items()] of
    [_check_and_update_limits], run over the remaining items: [false] with
    the log as pruned so far when a window is full, [true] with the log
    pruned for every window otherwise. *)
Fixpoint check_limits (items : list (string * Z)) (current_time : Z)
    (q : list Z) : bool * list Z :=
  match items with
  | [] => (true, q)
  | (limit_type, limit_count) :: rest =>
      let window_seconds := windows_at limit_type in
      let cutoff_time := current_time - window_seconds in
      let q1 := popleft_while_older cutoff_time q in
      if Z.of_nat (length q1) >=? limit_count then (false, q1)
      else check_limits rest current_time q1
  end.

(** [max(self.limits.values())]; [max] of no value raises, and [limits] is
    not empty. *)
Definition max_stored_requests : Z :=
  match map snd limits with
  | [] => 0
  | v :: vs => fold_left Z.max vs v
  end.

Definition _check_and_update_limits (client_id : string) (current_time : Z)
    (s : State) : bool * State :=
  let '(client_requests, s1) := requests_getitem client_id s in
  match check_limits limits current_time client_requests with
  | (false, q1) => (false, <[client_id := q1]> s1)
  | (true, q1) =>
      let q2 := q1 ++ [current_time] in
      let q3 := popleft_while_longer max_stored_requests q2 in
      (true, <[client_id := q3]> s1)
  end.

Definition is_allowed (client_ip : string) (api_key : option string)
    (current_time : Z) (s : State) : bool * State :=
  if truthy client_ip
  then _check_and_update_limits (client_id_of client_ip api_key) current_time s
  else (false, s).

(** ** Queries *)

(** [sum(1 for req_time in client_requests if req_time >= cutoff_time)] *)
Definition recent_requests (cutoff_time : Z) (q : list Z) : Z :=
  Z.of_nat (length (List.filter (fun req_time => req_time >=? cutoff_time) q)).

(** One turn of the loop of [get_remaining_requests]. *)
Definition remaining_step (current_time : Z) (q : list Z)
    (remaining : gmap string Z) (item : string * Z) : gmap string Z :=
  let '(limit_type, limit_count) := item in
  let window_seconds := windows_at limit_type in
  let cutoff_time := current_time - window_seconds in
  <[limit_type := Z.max 0 (limit_count - recent_requests cutoff_time q)]> remaining.

Definition get_remaining_requests (client_ip : string) (api_key : option string)
    (current_time : Z) (s : State) : gmap string Z * State :=
  if truthy client_ip
  then
    let client_id := client_id_of client_ip api_key in
    let '(client_requests, s1) := requests_getitem client_id s in
    (fold_left (remaining_step current_time client_requests) limits ∅, s1)
  else (∅, s).

(** The inner [for req_time in client_requests: if req_time >= cutoff_time:
    oldest_in_window = req_time; break], [None] when the loop ends without
    a break. *)
Definition oldest_in_window (cutoff_time : Z) (q : list Z) : option Z :=
  List.find (fun req_time => req_time >=? cutoff_time) q.

(** The value stored for one window by [get_reset_times].
    [if client_requests:] is false on the empty deque;
    [if oldest_in_window:] is false on [None] and on the timestamp [0.0]. *)
Definition reset_time (current_time window_seconds : Z) (q : list Z) : Z :=
  match q with
  | [] => current_time
  | _ :: _ =>
      let cutoff_time := current_time - window_seconds in
      match oldest_in_window cutoff_time q with
      | Some t => if t =? 0 then current_time else t + window_seconds
      | None => current_time
      end
  end.

(** One turn of the loop of [get_reset_times], over [self.windows.items()]. *)
Definition reset_step (current_time : Z) (q : list Z)
    (reset_times : gmap string Z) (item : string * Z) : gmap string Z :=
  let '(limit_type, window_seconds) := item in
  <[limit_type := reset_time current_time window_seconds q]> reset_times.

Definition get_reset_times (client_ip : string) (api_key : option string)
    (current_time : Z) (s : State) : gmap string Z * State :=
  if truthy client_ip
  then
    let client_id := client_id_of client_ip api_key in
    let '(client_requests, s1) := requests_getitem client_id s in
    (fold_left (reset_step current_time client_requests) windows ∅, s1)
  else (∅, s).

(** ** Garbage collection *)

(** [cleanup_old_entries]: the first loop prunes every log in place and
    collects the clients whose log came out empty, the second deletes them. *)
Definition cleanup_old_entries (max_age_hours : Z) (current_time : Z)
    (s : State) : State :=
  let cutoff_time := current_time - max_age_hours * 3600 in
  let s1 := popleft_while_older cutoff_time <$> s in
  let clients_to_remove :=
    (filter (fun item => item.2 = []) (map_to_list s1)).*1 in
  foldr delete s1 clients_to_remove.

(** ** Views and traces used by the statements *)

(** The log of a client, an absent key read as the empty log (what
    [self.requests[k]] returns). *)
Definition log_of (client_id : string) (s : State) : list Z :=
  default [] (s !! client_id).

(** The prunings done by the loop of [_check_and_update_limits] over the
    items it has gone through. *)
Definition prune_through (visited : list (string * Z)) (current_time : Z)
    (q : list Z) : list Z :=
  fold_left
    (fun q item => popleft_while_older (current_time - windows_at item.1) q)
    visited q.

(** What one call of [_check_and_update_limits] does to the client's log. *)
Definition log_update (current_time : Z) (q : list Z) : bool * list Z :=
  match check_limits limits current_time q with
  | (false, q1) => (false, q1)
  | (true, q1) =>
      (true, popleft_while_longer max_stored_requests (q1 ++ [current_time]))
  end.

(** [is_allowed] called once per time of [times], in order, for one client. *)
Fixpoint is_allowed_seq (client_ip : string) (api_key : option string)
    (times : list Z) (s : State) : list bool * State :=
  match times with
  | [] => ([], s)
  | t :: times' =>
      let '(b, s1) := is_allowed client_ip api_key t s in
      let '(bs, s2) := is_allowed_seq client_ip api_key times' s1 in
      (b :: bs, s2)
  end.

(** The two read operations, as calls. *)
Inductive query : Type :=
  | GetRemainingRequests (client_ip : string) (api_key : option string)
      (current_time : Z)
  | GetResetTimes (client_ip : string) (api_key : option string)
      (current_time : Z).

(** Any call of the public interface. *)
Inductive call : Type :=
  | IsAllowed (client_ip : string) (api_key : option string) (current_time : Z)
  | Query (q : query)
  | CleanupOldEntries (max_age_hours : Z) (current_time : Z).

Definition query_step (q : query) (s : State) : State :=
  match q with
  | GetRemainingRequests ip key now => (get_remaining_requests ip key now s).2
  | GetResetTimes ip key now => (get_reset_times ip key now s).2
  end.

Definition call_step (c : call) (s : State) : State :=
  match c with
  | IsAllowed ip key now => (is_allowed ip key now s).2
  | Query q => query_step q s
  | CleanupOldEntries hours now => cleanup_old_entries hours now s
  end.

Definition run_queries (qs : list query) (s : State) : State :=
  fold_left (fun s q => query_step q s) qs s.

Definition run (cs : list call) (s : State) : State :=
  fold_left (fun s c => call_step c s) cs s.

(** Every log of the state holds at most [max_stored_requests] entries. *)
Definition logs_bounded (s : State) : Prop :=
  ∀ k, Z.of_nat (length (log_of k s)) ≤ max_stored_requests.

(** The clock reading of a call. *)
Definition call_time (c : call) : Z :=
  match c with
  | IsAllowed _ _ now => now
  | Query (GetRemainingRequests _ _ now) => now
  | Query (GetResetTimes _ _ now) => now
  | CleanupOldEntries _ now => now
  end.

(** Every log is in chronological order and holds no entry later than
    [now]. *)
Definition logs_chronological (now : Z) (s : State) : Prop :=
  ∀ k, StronglySorted Z.le (log_of k s) ∧ Forall (fun t => t ≤ now) (log_of k s).

(** Every log holds at most [n] entries. *)
Definition logs_at_most (n : nat) (s : State) : Prop :=
  ∀ k, (length (log_of k s) ≤ n)%nat.

(** ** The endpoint [/submit-form] ([src/app/main.py],
    [require_api_key] of [src/app/auth/api_key_auth.py])

    A request is what the code reads of it.  The email handler
    ([EmailHandler.send_form_email], which calls AWS SES and catches every
    exception) is a parameter: it returns [{'success': True, 'email_id':
    ...}] or [{'success': False, 'error': ...}].  The result of a call is
    the response, the limiter state, and the form data handed to the
    email handler, if any. *)

Module Main.

Section Endpoint.

Variable number : Type.
Variable number_truthy : number → bool.
Variable py_str : Validation.json number → string.

Inductive send_result : Type :=
  | Sent (email_id : string)
  | NotSent (error : string).

Variable send_form_email : Validation.json number → send_result.

Record request : Type := {
  (** [request.environ.get('HTTP_X_FORWARDED_FOR')], [None] when absent *)
  http_x_forwarded_for : option string;
  (** [request.remote_addr] *)
  remote_addr : option string;
  (** [request.headers.get('X-API-Key')] *)
  x_api_key : option string;
  (** [request.get_json()]; [None] when the call raises *)
  get_json : option (Validation.json number)
}.

(** [jsonify(body), status] *)
Record response : Type := {
  status : Z;
  body : list (string * string)
}.

Definition result : Type :=
  response * State * option (Validation.json number).

(** [request.environ.get('HTTP_X_FORWARDED_FOR', request.remote_addr)] *)
Definition client_ip_of (r : request) : option string :=
  match http_x_forwarded_for r with
  | Some v => Some v
  | None => remote_addr r
  end.

(** [submit_form]; [current_time] is the clock read by [is_allowed].  A
    [client_ip] that is [None] is falsy like the empty string, which
    stands for it in the call of [is_allowed]. *)
Definition submit_form (current_time : Z) (r : request) (s : State)
    : result :=
  let client_ip := default EmptyString (client_ip_of r) in
  let api_key := x_api_key r in
  let '(allowed, s1) := is_allowed client_ip api_key current_time s in
  if negb allowed
  then ({| status := 429; body := [("error", "Rate limit exceeded")] |},
        s1, None)
  else
    match get_json r with
    | None =>
        ({| status := 500; body := [("error", "Internal server error")] |},
         s1, None)
    | Some form_data =>
        if negb (Validation.truthy_json number number_truthy form_data)
        then ({| status := 400;
                 body := [("error", "No JSON data provided")] |}, s1, None)
        else
          match Validation.validate_form_data number number_truthy py_str
                  form_data with
          | Validation.RaisesTypeError =>
              ({| status := 500;
                  body := [("error", "Internal server error")] |}, s1, None)
          | Validation.Returns (valid, message) =>
              if negb valid
              then ({| status := 400; body := [("error", message)] |},
                    s1, None)
              else
                match send_form_email form_data with
                | Sent email_id =>
                    ({| status := 200;
                        body := [("message", "Form submitted successfully");
                                 ("email_id", email_id)] |},
                     s1, Some form_data)
                | NotSent error =>
                    ({| status := 500; body := [("error", error)] |},
                     s1, Some form_data)
                end
          end
    end.

(** The decorator [require_api_key] around a view [f].  The attribute
    [request.api_key_info] that it sets is read nowhere. *)
Definition require_api_key (valid_api_keys : gmap string APIKeyAuth.key_info)
    (f : request → State → result) (r : request) (s : State) : result :=
  let api_key := x_api_key r in
  if negb (match api_key with Some k => PyStr.truthy k | None => false end)
  then ({| status := 401;
           body := [("error", "API key required");
                    ("message",
                     "Please provide a valid API key in the X-API-Key header")]
        |}, s, None)
  else if negb (APIKeyAuth.is_valid_key valid_api_keys api_key)
  then ({| status := 401;
           body := [("error", "Invalid API key");
                    ("message",
                     "The provided API key is invalid or inactive")] |},
        s, None)
  else f r s.

(** The view registered for [POST /submit-form]. *)
Definition submit_form_endpoint
    (valid_api_keys : gmap string APIKeyAuth.key_info) (current_time : Z)
    : request → State → result :=
  require_api_key valid_api_keys (submit_form current_time).

(** The call of the rate limiter that [submit_form] makes for a request. *)
Definition limiter_call (current_time : Z) (r : request) (s : State)
    : bool * State :=
  is_allowed (default EmptyString (client_ip_of r)) (x_api_key r)
    current_time s.

(** The request [r] with its [X-Forwarded-For] header set to [v]. *)
Definition with_x_forwarded_for (v : string) (r : request) : request :=
  {| http_x_forwarded_for := Some v;
     remote_addr := remote_addr r;
     x_api_key := x_api_key r;
     get_json := get_json r |}.

End Endpoint.

Arguments http_x_forwarded_for {number} r.
Arguments remote_addr {number} r.
Arguments x_api_key {number} r.
Arguments get_json {number} r.
Arguments client_ip_of {number} r.
Arguments limiter_call {number} current_time r s.
Arguments with_x_forwarded_for {number} v r.

End Main.

(** ** The configuration *)

Lemma limits_keys_in_windows :
  Forall (fun item => is_Some (getitem item.1 windows)) limits.
Proof. repeat constructor; by eexists. Qed.

Lemma max_stored_requests_eq : max_stored_requests = 1000.
Proof. reflexivity. Qed.

(** ** The two [popleft] loops *)

Lemma popleft_while_older_suffix cutoff q :
  ∃ n, popleft_while_older cutoff q = drop n q.
Proof.
  induction q as [|t q [n IH]]; simpl.
  - by exists 0%nat.
  - destruct (t <? cutoff).
    + exists (S n). by rewrite IH.
    + by exists 0%nat.
Qed.

Lemma popleft_while_older_length cutoff q :
  (length (popleft_while_older cutoff q) ≤ length q)%nat.
Proof.
  destruct (popleft_while_older_suffix cutoff q) as [n ->].
  rewrite length_drop. lia.
Qed.

(** Pruning stops at the first entry that is not older than the cutoff. *)
Lemma popleft_while_older_head cutoff t q :
  cutoff ≤ t → popleft_while_older cutoff (t :: q) = t :: q.
Proof. intros H. simpl. destruct (Z.ltb_spec t cutoff); [lia | done]. Qed.

(** A second pruning at an earlier cutoff finds nothing to drop. *)
Lemma popleft_while_older_idem cutoff cutoff' q :
  cutoff' ≤ cutoff →
  popleft_while_older cutoff' (popleft_while_older cutoff q)
  = popleft_while_older cutoff q.
Proof.
  intros Hc. induction q as [|t q IH]; [done|].
  cbn [popleft_while_older]. destruct (Z.ltb_spec t cutoff); [done|].
  apply popleft_while_older_head. lia.
Qed.

(** No entry at or after the cutoff is ever dropped, sorted log or not. *)
Lemma popleft_while_older_keeps cutoff c q :
  cutoff ≤ c →
  List.filter (fun t => t >=? c) (popleft_while_older cutoff q)
  = List.filter (fun t => t >=? c) q.
Proof.
  intros Hc. induction q as [|t q IH]; [done|].
  cbn [popleft_while_older]. destruct (Z.ltb_spec t cutoff) as [Hlt|Hge]; [|done].
  rewrite IH. cbn [List.filter].
  destruct (Z.geb_spec t c); [lia | done].
Qed.

(** On a log in chronological order, pruning drops exactly the entries
    older than the cutoff. *)
Lemma popleft_while_older_sorted cutoff q :
  StronglySorted Z.le q →
  popleft_while_older cutoff q = List.filter (fun t => t >=? cutoff) q.
Proof.
  induction 1 as [|t q Hs IH Hall]; [done|].
  cbn [popleft_while_older List.filter].
  destruct (Z.ltb_spec t cutoff) as [Hlt|Hge].
  - destruct (Z.geb_spec t cutoff); [lia | done].
  - destruct (Z.geb_spec t cutoff); [|lia]. f_equal.
    symmetry. apply forallb_filter_id, forallb_forall.
    intros x Hx. rewrite Forall_forall in Hall.
    apply list_elem_of_In, Hall in Hx. apply Z.geb_le. lia.
Qed.

Lemma popleft_while_longer_suffix m q :
  ∃ n, popleft_while_longer m q = drop n q.
Proof.
  induction q as [|t q [n IH]].
  - by exists 0%nat.
  - cbn [popleft_while_longer]. destruct (_ >? _).
    + exists (S n). by rewrite IH.
    + by exists 0%nat.
Qed.

Lemma popleft_while_longer_length m q :
  0 ≤ m → Z.of_nat (length (popleft_while_longer m q)) ≤ m.
Proof.
  intros Hm. induction q as [|t q IH]; [simpl; lia|].
  cbn [popleft_while_longer].
  destruct (Z.gtb_spec (Z.of_nat (length (t :: q))) m); [done | lia].
Qed.

Lemma popleft_while_longer_id m q :
  Z.of_nat (length q) ≤ m → popleft_while_longer m q = q.
Proof.
  intros H. destruct q as [|t q]; [done|].
  cbn [popleft_while_longer].
  destruct (Z.gtb_spec (Z.of_nat (length (t :: q))) m); [lia | done].
Qed.

(** ** The [defaultdict] *)

Lemma requests_getitem_log client_id s :
  (requests_getitem client_id s).1 = log_of client_id s.
Proof. unfold requests_getitem, log_of. by destruct (s !! client_id). Qed.

Lemma requests_getitem_state client_id s :
  (requests_getitem client_id s).2 = <[client_id := log_of client_id s]> s.
Proof.
  unfold requests_getitem, log_of.
  destruct (s !! client_id) as [q|] eqn:E; simpl; [|done].
  symmetry. by apply insert_id.
Qed.

Lemma log_of_insert client_id q s k :
  log_of k (<[client_id := q]> s)
  = if decide (client_id = k) then q else log_of k s.
Proof. unfold log_of. rewrite lookup_insert. by case_decide. Qed.

(** Creating an absent key changes no log. *)
Lemma requests_getitem_frame client_id s k :
  log_of k (requests_getitem client_id s).2 = log_of k s.
Proof.
  rewrite requests_getitem_state, log_of_insert.
  case_decide; by subst.
Qed.

Lemma requests_getitem_lookup client_id s k :
  (requests_getitem client_id s).2 !! k
  = if decide (client_id = k) then Some (log_of k s) else s !! k.
Proof.
  rewrite requests_getitem_state, lookup_insert.
  case_decide; by subst.
Qed.

(** ** The admission loop *)

Lemma check_limits_app visited rest now q :
  check_limits (visited ++ rest) now q
  = if (check_limits visited now q).1
    then check_limits rest now (prune_through visited now q)
    else check_limits visited now q.
Proof.
  revert q. induction visited as [|[lt lc] visited IH]; intros q; [done|].
  cbn [app check_limits prune_through fold_left fst].
  destruct (_ >=? _); [done|]. apply IH.
Qed.

Lemma check_limits_true visited now q :
  (check_limits visited now q).1 = true →
  check_limits visited now q = (true, prune_through visited now q).
Proof.
  revert q. induction visited as [|[lt lc] visited IH]; intros q; [done|].
  cbn [check_limits prune_through fold_left fst].
  destruct (_ >=? _); [done|]. apply IH.
Qed.

(** A denial comes from the first full window: the items before it passed,
    and the log returned is the one pruned up to that window. *)
Lemma check_limits_false items now q :
  (check_limits items now q).1 = false →
  ∃ visited limit_type limit_count later,
    items = visited ++ (limit_type, limit_count) :: later ∧
    (check_limits visited now q).1 = true ∧
    limit_count
      ≤ Z.of_nat (length (popleft_while_older (now - windows_at limit_type)
                            (prune_through visited now q))) ∧
    (check_limits items now q).2
      = popleft_while_older (now - windows_at limit_type)
          (prune_through visited now q).
Proof.
  revert q. induction items as [|[lt lc] items IH]; intros q; [done|].
  cbn [check_limits].
  destruct (Z.geb_spec (Z.of_nat (length
              (popleft_while_older (now - windows_at lt) q))) lc) as [Hge|Hlt].
  - intros _. by exists [], lt, lc, items.
  - intros Hf. destruct (IH _ Hf) as (vis & lt' & lc' & later & -> & Hv & Hle & Hq).
    exists ((lt, lc) :: vis), lt', lc', later. split; [done|].
    cbn [check_limits prune_through fold_left fst].
    destruct (Z.geb_spec (Z.of_nat (length
                (popleft_while_older (now - windows_at lt) q))) lc); [lia|].
    done.
Qed.

Lemma prune_through_suffix visited now q :
  ∃ n, prune_through visited now q = drop n q.
Proof.
  revert q. induction visited as [|item visited IH]; intros q.
  - by exists 0%nat.
  - cbn [prune_through fold_left].
    destruct (popleft_while_older_suffix (now - windows_at item.1) q) as [n ->].
    destruct (IH (drop n q)) as [m Hm]. exists (m + n)%nat.
    unfold prune_through in Hm. by rewrite Hm, drop_drop, Nat.add_comm.
Qed.

Lemma prune_through_length visited now q :
  (length (prune_through visited now q) ≤ length q)%nat.
Proof.
  destruct (prune_through_suffix visited now q) as [n ->].
  rewrite length_drop. lia.
Qed.

(** With the configured windows the decision is the minute window's: once
    the log pruned at [now - 60] holds fewer than 10 entries, it holds
    fewer than 100 and fewer than 1000, and the later prunings find
    nothing older than their cutoffs. *)
Lemma check_limits_minute now q :
  check_limits limits now q
  = (Z.of_nat (length (popleft_while_older (now - 60) q)) <? 10,
     popleft_while_older (now - 60) q).
Proof.
  unfold limits. cbn [check_limits].
  change (windows_at "per_minute") with 60.
  change (windows_at "per_hour") with 3600.
  change (windows_at "per_day") with 86400.
  set (q1 := popleft_while_older (now - 60) q).
  assert (Hh : popleft_while_older (now - 3600) q1 = q1)
    by (apply popleft_while_older_idem; lia).
  assert (Hd : popleft_while_older (now - 86400) q1 = q1)
    by (apply popleft_while_older_idem; lia).
  rewrite Hh, Hd.
  destruct (Z.geb_spec (Z.of_nat (length q1)) 10),
    (Z.ltb_spec (Z.of_nat (length q1)) 10); try lia; [done|].
  destruct (Z.geb_spec (Z.of_nat (length q1)) 100); [lia|].
  destruct (Z.geb_spec (Z.of_nat (length q1)) 1000); [lia|]. done.
Qed.

(** [_check_and_update_limits] acts on the client's log alone. *)
Lemma check_and_update_limits_log_update client_id now s :
  _check_and_update_limits client_id now s
  = ((log_update now (log_of client_id s)).1,
     <[client_id := (log_update now (log_of client_id s)).2]> s).
Proof.
  unfold _check_and_update_limits, log_update.
  pose proof (requests_getitem_log client_id s) as Hl.
  pose proof (requests_getitem_state client_id s) as Hs.
  destruct (requests_getitem client_id s) as [q s1]. simpl in Hl, Hs. subst.
  destruct (check_limits limits now (log_of client_id s)) as [[] q1];
    simpl; by rewrite insert_insert_eq.
Qed.

Lemma log_update_minute now q :
  log_update now q
  = let q1 := popleft_while_older (now - 60) q in
    if Z.of_nat (length q1) <? 10 then (true, q1 ++ [now]) else (false, q1).
Proof.
  unfold log_update. rewrite check_limits_minute. cbv zeta.
  destruct (Z.ltb_spec (Z.of_nat (length (popleft_while_older (now - 60) q))) 10);
    [|done].
  rewrite popleft_while_longer_id; [done|].
  rewrite length_app, max_stored_requests_eq. simpl. lia.
Qed.

Lemma is_allowed_log_update ip key now s :
  truthy ip = true →
  is_allowed ip key now s
  = ((log_update now (log_of (client_id_of ip key) s)).1,
     <[client_id_of ip key := (log_update now (log_of (client_id_of ip key) s)).2]> s).
Proof.
  intros Hip. unfold is_allowed. rewrite Hip.
  apply check_and_update_limits_log_update.
Qed.

(** The result of [is_allowed], and every log it leaves, depend on the
    state through the logs only, an absent key counting as an empty log. *)
Lemma is_allowed_log_ext ip key now s s' :
  (∀ k, log_of k s' = log_of k s) →
  (is_allowed ip key now s').1 = (is_allowed ip key now s).1 ∧
  ∀ k, log_of k (is_allowed ip key now s').2
       = log_of k (is_allowed ip key now s).2.
Proof.
  intros Hlog. destruct (truthy ip) eqn:Hip.
  - rewrite !is_allowed_log_update by done. cbn [fst snd].
    rewrite Hlog. split; [done|]. intros k.
    rewrite !log_of_insert. by case_decide.
  - unfold is_allowed. rewrite Hip. done.
Qed.

(** ** The queries and the state *)

Lemma get_remaining_requests_state ip key now s :
  (get_remaining_requests ip key now s).2
  = if truthy ip then (requests_getitem (client_id_of ip key) s).2 else s.
Proof.
  unfold get_remaining_requests. destruct (truthy ip); [|done].
  by destruct (requests_getitem _ s).
Qed.

Lemma get_reset_times_state ip key now s :
  (get_reset_times ip key now s).2
  = if truthy ip then (requests_getitem (client_id_of ip key) s).2 else s.
Proof.
  unfold get_reset_times. destruct (truthy ip); [|done].
  by destruct (requests_getitem _ s).
Qed.

Lemma query_step_state q s :
  query_step q s = s ∨ ∃ client_id, query_step q s = (requests_getitem client_id s).2.
Proof.
  destruct q as [ip key now|ip key now]; cbn [query_step];
    rewrite ?get_remaining_requests_state, ?get_reset_times_state;
    destruct (truthy ip); eauto.
Qed.

Lemma query_step_log q s k : log_of k (query_step q s) = log_of k s.
Proof.
  destruct (query_step_state q s) as [->|[cid ->]]; [done|].
  apply requests_getitem_frame.
Qed.

Lemma query_step_lookup q s k l :
  s !! k = Some l → query_step q s !! k = Some l.
Proof.
  intros Hk. destruct (query_step_state q s) as [->|[cid ->]]; [done|].
  rewrite requests_getitem_lookup. case_decide; [|done].
  unfold log_of. by rewrite Hk.
Qed.

Lemma run_queries_log qs s k : log_of k (run_queries qs s) = log_of k s.
Proof.
  revert s. induction qs as [|q qs IH]; intros s; [done|].
  cbn [run_queries fold_left]. etrans; [apply IH|]. apply query_step_log.
Qed.

Lemma run_queries_lookup qs s k l :
  s !! k = Some l → run_queries qs s !! k = Some l.
Proof.
  revert s. induction qs as [|q qs IH]; intros s Hk; [done|].
  cbn [run_queries fold_left]. by apply IH, query_step_lookup.
Qed.

(** ** Read operations and the state (claims C1, C9, C10) *)

(** C1, as stated, fails: on the limiter as constructed, which knows no
    client, [get_remaining_requests] and [get_reset_times] for the client
    203.0.113.7 each leave a state whose key set has that client in it. *)
Lemma queries_create_absent_key :
  let k := "203.0.113.7" in
  (k ∉ dom init) ∧
  k ∈ dom (get_remaining_requests k None 0 init).2 ∧
  k ∈ dom (get_reset_times k None 0 init).2.
Proof.
  cbv zeta. rewrite not_elem_of_dom, !elem_of_dom.
  split; [done|]. split; by exists [].
Qed.

(** C1, amended: whatever queries ([get_remaining_requests],
    [get_reset_times]) run from a state, in any number and order, every
    client's log reads as before (an absent key as the empty log), every
    key present stays with its log, and a following [is_allowed] returns
    the same result and leaves the same logs as it would without them. *)
Theorem queries_preserve_logs (qs : list query) (s : State) :
  let s' := run_queries qs s in
  (∀ k, log_of k s' = log_of k s) ∧
  (∀ k l, s !! k = Some l → s' !! k = Some l) ∧
  (∀ ip key now,
     (is_allowed ip key now s').1 = (is_allowed ip key now s).1 ∧
     ∀ k, log_of k (is_allowed ip key now s').2
          = log_of k (is_allowed ip key now s).2).
Proof.
  cbv zeta. split; [apply run_queries_log|].
  split; [apply run_queries_lookup|].
  intros ip key now. apply is_allowed_log_ext, run_queries_log.
Qed.

(** C9: with a falsy [client_ip], [get_remaining_requests] and
    [get_reset_times] return the empty mapping and [is_allowed] returns
    [false], each leaving the state as it was. *)
Theorem falsy_client_ip_empty_mapping (ip : string) (key : option string)
    (now : Z) (s : State) :
  truthy ip = false →
  get_remaining_requests ip key now s = (∅, s) ∧
  get_reset_times ip key now s = (∅, s) ∧
  is_allowed ip key now s = (false, s).
Proof.
  intros Hip. unfold get_remaining_requests, get_reset_times, is_allowed.
  by rewrite Hip.
Qed.

Lemma falsy_client_ip_empty_mapping_witness :
  let s : State := <["203.0.113.7" := [5]]> init in
  get_remaining_requests "" (Some "k1") 7 s = (∅, s) ∧
  get_reset_times "" (Some "k1") 7 s = (∅, s) ∧
  is_allowed "" (Some "k1") 7 s = (false, s).
Proof.
  exact (falsy_client_ip_empty_mapping "" (Some "k1") 7
           (<["203.0.113.7" := [5]]> init) eq_refl).
Defined.

(** C10: an [api_key] equal to the empty string gives the client identity
    of no [api_key] at all, [client_ip] alone, and so the same result and
    successor state in [is_allowed], [get_remaining_requests] and
    [get_reset_times]. *)
Theorem empty_api_key_same_bucket (ip : string) (now : Z) (s : State) :
  client_id_of ip (Some "") = ip ∧
  client_id_of ip None = ip ∧
  is_allowed ip (Some "") now s = is_allowed ip None now s ∧
  get_remaining_requests ip (Some "") now s
    = get_remaining_requests ip None now s ∧
  get_reset_times ip (Some "") now s = get_reset_times ip None now s.
Proof. repeat split. Qed.

(** ** Bursts inside the minute window (claim C2) *)

Lemma log_update_empty now : log_update now [] = (true, [now]).
Proof. by rewrite log_update_minute. Qed.

(** While the head of the log is inside the minute window nothing is
    pruned, and the call is admitted exactly when fewer than 10 entries
    are logged. *)
Lemma log_update_head_in_window t0 q now :
  now ≤ t0 + 60 →
  log_update now (t0 :: q)
  = if Z.of_nat (length (t0 :: q)) <? 10
    then (true, (t0 :: q) ++ [now]) else (false, t0 :: q).
Proof.
  intros H. rewrite log_update_minute. cbv zeta.
  by rewrite popleft_while_older_head by lia.
Qed.

Lemma is_allowed_seq_head_in_window ip key times :
  ∀ s t0 q,
    truthy ip = true →
    log_of (client_id_of ip key) s = t0 :: q →
    Forall (fun t => t ≤ t0 + 60) times →
    (length (t0 :: q) + length times ≤ 10)%nat →
    (is_allowed_seq ip key times s).1 = replicate (length times) true ∧
    log_of (client_id_of ip key) (is_allowed_seq ip key times s).2
    = (t0 :: q) ++ times.
Proof.
  induction times as [|t times IH]; intros s t0 q Hip Hlog Hts Hlen.
  - simpl. by rewrite app_nil_r.
  - apply Forall_cons in Hts as [Ht Hts]. cbn [is_allowed_seq].
    rewrite is_allowed_log_update, Hlog, log_update_head_in_window by done.
    cbn [length] in Hlen.
    destruct (Z.ltb_spec (Z.of_nat (length (t0 :: q))) 10) as [_|Hge];
      [|cbn [length] in Hge; lia].
    cbn [fst snd].
    destruct (IH (<[client_id_of ip key := (t0 :: q) ++ [t]]> s) t0 (q ++ [t]))
      as [Hr Hl]; try done.
    { by rewrite log_of_insert, decide_True. }
    { cbn [length]. rewrite length_app. simpl. lia. }
    destruct (is_allowed_seq ip key times _) as [bs s2]. cbn [fst snd] in *.
    rewrite Hr, Hl. split; [done|]. cbn [app]. by rewrite <- app_assoc.
Qed.

(** C2, as stated, fails for the hour window (limit 100): of 100 calls made
    at one instant by a client with an empty log, the 11th is denied. *)
Lemma burst_of_hour_limit_not_all_allowed :
  let times := replicate 100 0 in
  In ("per_hour", 100) limits ∧
  log_of (client_id_of "203.0.113.7" None) init = [] ∧
  length times = 100%nat ∧
  Forall (fun t => 0 ≤ t ∧ t ≤ 0 + 60) times ∧
  (is_allowed_seq "203.0.113.7" None times init).1 !! 10%nat = Some false.
Proof.
  cbv zeta. split; [right; by left|]. split; [done|]. split; [done|].
  split; [apply Forall_replicate; lia|]. by vm_compute.
Qed.

(** C2, amended to the minute window (limit 10): for a client with a
    truthy address and an empty log, 10 [is_allowed] calls of which none
    comes later than 60 seconds after the first are all admitted, and one
    more call no later than 60 seconds after the first is denied. *)
Theorem minute_burst_allows_ten_then_denies (ip : string) (key : option string)
    (s : State) (t0 : Z) (rest : list Z) (t' : Z) :
  truthy ip = true →
  log_of (client_id_of ip key) s = [] →
  length (t0 :: rest) = 10%nat →
  Forall (fun t => t ≤ t0 + 60) rest →
  t' ≤ t0 + 60 →
  (is_allowed_seq ip key (t0 :: rest) s).1 = replicate 10 true ∧
  (is_allowed ip key t' (is_allowed_seq ip key (t0 :: rest) s).2).1 = false.
Proof.
  intros Hip Hlog Hlen Hrest Ht'. cbn [is_allowed_seq].
  rewrite is_allowed_log_update, Hlog, log_update_empty by done. cbn [fst snd].
  cbn [length] in Hlen.
  destruct (is_allowed_seq_head_in_window ip key rest
              (<[client_id_of ip key := [t0]]> s) t0 [] Hip) as [Hr Hl];
    try done.
  { by rewrite log_of_insert, decide_True. }
  { simpl. lia. }
  destruct (is_allowed_seq ip key rest _) as [bs s2]. cbn [fst snd] in *.
  split.
  - rewrite Hr. by replace (length rest) with 9%nat by lia.
  - rewrite is_allowed_log_update, Hl by done. cbn [fst snd app].
    rewrite log_update_head_in_window by done.
    destruct (Z.ltb_spec (Z.of_nat (length (t0 :: rest))) 10) as [Hlt|_];
      [cbn [length] in Hlt; lia | done].
Qed.

Lemma minute_burst_allows_ten_then_denies_witness :
  let times := [0; 1; 2; 3; 4; 5; 6; 7; 8; 9] in
  (is_allowed_seq "203.0.113.7" None times init).1 = replicate 10 true ∧
  (is_allowed "203.0.113.7" None 59
     (is_allowed_seq "203.0.113.7" None times init).2).1 = false.
Proof.
  apply (minute_burst_allows_ten_then_denies "203.0.113.7" None init
           0 [1; 2; 3; 4; 5; 6; 7; 8; 9] 59).
  - reflexivity.
  - reflexivity.
  - reflexivity.
  - repeat constructor; lia.
  - lia.
Defined.

(** ** Window boundaries (claim C3) *)

(** The pruning of one window keeps every entry at or after its cutoff, so
    it does not change the count of the entries inside the window. *)
Lemma popleft_while_older_recent cutoff q :
  recent_requests cutoff (popleft_while_older cutoff q)
  = recent_requests cutoff q.
Proof. unfold recent_requests. by rewrite popleft_while_older_keeps. Qed.

(** The minute window includes its lower bound: a log whose oldest entry
    is exactly 60 seconds old is not pruned, and a call is denied as soon
    as 10 entries are logged. *)
Lemma minute_boundary_inclusive ip key now q s :
  truthy ip = true →
  log_of (client_id_of ip key) s = (now - 60) :: q →
  10 ≤ Z.of_nat (length ((now - 60) :: q)) →
  is_allowed ip key now s
  = (false, <[client_id_of ip key := (now - 60) :: q]> s).
Proof.
  intros Hip Hlog Hlen.
  rewrite is_allowed_log_update, Hlog, log_update_head_in_window by (done || lia).
  by destruct (Z.ltb_spec (Z.of_nat (length ((now - 60) :: q))) 10); [lia|].
Qed.

(** What [get_remaining_requests] stores under each window's name. *)
Lemma get_remaining_requests_lookup ip key now s limit_type limit_count :
  truthy ip = true →
  (limit_type, limit_count) ∈ limits →
  (get_remaining_requests ip key now s).1 !! limit_type
  = Some (Z.max 0 (limit_count
                   - recent_requests (now - windows_at limit_type)
                       (log_of (client_id_of ip key) s))).
Proof.
  intros Hip Hin. unfold get_remaining_requests. rewrite Hip.
  pose proof (requests_getitem_log (client_id_of ip key) s) as Hl.
  destruct (requests_getitem _ s) as [q s1]. cbn [fst snd] in *. subst q.
  unfold limits in *. cbn [fold_left remaining_step].
  repeat (apply elem_of_cons in Hin as [[= -> ->]|Hin]);
    [| | |by apply elem_of_nil in Hin].
  all: rewrite ?lookup_insert_eq; try done.
  all: rewrite lookup_insert_ne by done; rewrite ?lookup_insert_eq; done.
Qed.

(** C3, on the code: the hour window does not keep its lower bound.  A
    request logged at time 1000 is dropped by the call made at
    1000 + 3600, in the pruning of the minute window; and after 100
    requests admitted at times 0, 36, ..., 3564, the call at time 3600,
    whose hour window starts exactly at the first of them, is admitted. *)
Theorem hour_boundary_entry_pruned :
  let ip := "203.0.113.7" in
  let s1 := (is_allowed ip None 1000 init).2 in
  let times := (fun i => 36 * i) <$> seqZ 0 100 in
  let r := is_allowed_seq ip None times init in
  (log_of ip s1 = [1000] ∧
   (get_remaining_requests ip None (1000 + 3600) s1).1 !! "per_hour" = Some 99 ∧
   is_allowed ip None (1000 + 3600) s1 = (true, <[ip := [4600]]> init)) ∧
  (head times = Some (3600 - windows_at "per_hour") ∧
   Forall (fun t => 3600 - windows_at "per_hour" ≤ t ∧ t ≤ 3600) times ∧
   r.1 = replicate 100 true ∧
   (is_allowed ip None 3600 r.2).1 = true).
Proof.
  cbv zeta. split.
  - split; [by vm_compute|]. split; by vm_compute.
  - split; [by vm_compute|]. split; [|split; by vm_compute].
    apply Forall_fmap, Forall_forall. intros i Hi.
    apply elem_of_seqZ in Hi. change (windows_at "per_hour") with 3600.
    simpl. lia.
Qed.

(** ** Denied calls (claim C4) *)

Lemma is_allowed_denied_inv ip key now s :
  truthy ip = true →
  (is_allowed ip key now s).1 = false →
  ∃ visited limit_type limit_count later,
    limits = visited ++ (limit_type, limit_count) :: later ∧
    (check_limits visited now (log_of (client_id_of ip key) s)).1 = true ∧
    limit_count
      ≤ Z.of_nat (length (popleft_while_older (now - windows_at limit_type)
            (prune_through visited now (log_of (client_id_of ip key) s)))).
Proof.
  intros Hip. rewrite is_allowed_log_update by done. cbn [fst]. unfold log_update.
  destruct (check_limits limits now _) as [[] q1] eqn:E; [done|]. intros _.
  destruct (check_limits_false limits now (log_of (client_id_of ip key) s))
    as (vis & lt & lc & later & Hsplit & Hv & Hle & _); [by rewrite E|].
  by exists vis, lt, lc, later.
Qed.

(** C4: when the windows before some window of [limits] have passed and,
    after that window's pruning, the log holds at least its [limit_count]
    entries, [is_allowed] returns [false]; the client's log is left as
    pruned for the windows gone through up to that one, the later windows
    are not applied to it, nothing is appended to it (it is the original
    log less some of its oldest entries), and no other client changes. *)
Theorem denied_call_keeps_pruning_only (ip : string) (key : option string)
    (now : Z) (s : State) (visited later : list (string * Z))
    (limit_type : string) (limit_count : Z) :
  let client_id := client_id_of ip key in
  let q1 := popleft_while_older (now - windows_at limit_type)
              (prune_through visited now (log_of client_id s)) in
  truthy ip = true →
  limits = visited ++ (limit_type, limit_count) :: later →
  (check_limits visited now (log_of client_id s)).1 = true →
  limit_count ≤ Z.of_nat (length q1) →
  is_allowed ip key now s = (false, <[client_id := q1]> s) ∧
  (∃ n, q1 = drop n (log_of client_id s)) ∧
  (∀ k, k ≠ client_id → (is_allowed ip key now s).2 !! k = s !! k).
Proof.
  cbv zeta. intros Hip Hsplit Hv Hle.
  rewrite is_allowed_log_update by done. unfold log_update.
  rewrite Hsplit, check_limits_app, Hv. cbn [check_limits].
  destruct (Z.geb_spec (Z.of_nat (length
     (popleft_while_older (now - windows_at limit_type)
        (prune_through visited now (log_of (client_id_of ip key) s)))))
     limit_count) as [_|Hlt]; [|lia].
  cbn [fst snd]. split; [done|]. split.
  - destruct (prune_through_suffix visited now
                (log_of (client_id_of ip key) s)) as [n ->].
    destruct (popleft_while_older_suffix (now - windows_at limit_type)
                (drop n (log_of (client_id_of ip key) s))) as [m ->].
    exists (n + m)%nat. by rewrite drop_drop.
  - intros k Hk. by rewrite lookup_insert_ne.
Qed.

Lemma denied_call_keeps_pruning_only_witness :
  let s : State := <["203.0.113.7" := [10; 100; 100; 100; 100; 100; 100; 100;
                                       100; 100; 100]]> init in
  is_allowed "203.0.113.7" None 110 s
  = (false, <["203.0.113.7" := [100; 100; 100; 100; 100; 100; 100; 100;
                                100; 100]]> s) ∧
  (∃ n, [100; 100; 100; 100; 100; 100; 100; 100; 100; 100]
        = drop n (log_of "203.0.113.7" s)) ∧
  (∀ k, k ≠ "203.0.113.7" →
        (is_allowed "203.0.113.7" None 110 s).2 !! k = s !! k).
Proof.
  pose proof (denied_call_keeps_pruning_only "203.0.113.7" None 110
           (<["203.0.113.7" := [10; 100; 100; 100; 100; 100; 100; 100;
                                100; 100; 100]]> init)
           [] [("per_hour", 100); ("per_day", 1000)] "per_minute" 10
           eq_refl eq_refl eq_refl) as W.
  apply W. vm_compute. discriminate.
Defined.

(** ** Reset times (claim C5) *)

(** The entry found by the inner loop of [get_reset_times] is the first of
    the log, in log order, at or after the cutoff. *)
Lemma oldest_in_window_Some cutoff q t :
  oldest_in_window cutoff q = Some t ↔
  ∃ older newer,
    q = older ++ t :: newer ∧ Forall (fun x => x < cutoff) older ∧ cutoff ≤ t.
Proof.
  unfold oldest_in_window. revert t.
  induction q as [|x q IH]; intros t; cbn [find].
  - split; [done|]. intros ([|? ?] & newer & [=] & _).
  - destruct (Z.geb_spec x cutoff) as [Hge|Hlt].
    + split.
      * intros [= ->]. exists [], q. repeat split; [constructor | lia].
      * intros (older & newer & Hq & Hold & Ht).
        destruct older as [|y older]; simplify_eq/=; [done|].
        apply Forall_cons in Hold as [? _]. lia.
    + rewrite IH. split.
      * intros (older & newer & -> & Hold & Ht).
        exists (x :: older), newer. repeat split; [|done].
        by constructor.
      * intros (older & newer & Hq & Hold & Ht).
        destruct older as [|y older]; simplify_eq/=; [lia|].
        apply Forall_cons in Hold as [_ Hold]. by exists older, newer.
Qed.

Lemma oldest_in_window_None cutoff q :
  oldest_in_window cutoff q = None ↔ Forall (fun x => x < cutoff) q.
Proof.
  unfold oldest_in_window. induction q as [|x q IH]; cbn [find].
  - split; [constructor | done].
  - destruct (Z.geb_spec x cutoff) as [Hge|Hlt].
    + split; [done|]. intros [? _]%Forall_cons. lia.
    + rewrite IH. split; [by constructor|]. by intros [_ ?]%Forall_cons.
Qed.

(** [reset_time] when the first entry inside the window is not the
    timestamp zero, and when no entry is inside the window. *)
Lemma reset_time_in_window now w q t :
  oldest_in_window (now - w) q = Some t → t ≠ 0 →
  reset_time now w q = t + w.
Proof.
  intros Ho Ht. unfold reset_time. destruct q as [|x q]; [done|].
  cbv zeta. rewrite Ho. by destruct (Z.eqb_spec t 0).
Qed.

Lemma reset_time_no_entry now w q :
  oldest_in_window (now - w) q = None → reset_time now w q = now.
Proof.
  intros Ho. unfold reset_time. destruct q as [|x q]; [done|].
  cbv zeta. by rewrite Ho.
Qed.

(** [reset_time] when the first entry inside the window is the timestamp
    zero, which [if oldest_in_window:] takes for no entry. *)
Lemma reset_time_zero_entry now w q :
  oldest_in_window (now - w) q = Some 0 → reset_time now w q = now.
Proof.
  intros Ho. unfold reset_time. destruct q as [|x q]; [done|].
  cbv zeta. by rewrite Ho.
Qed.

(** What [get_reset_times] stores under each window's name. *)
Lemma get_reset_times_lookup ip key now s limit_type window_seconds :
  truthy ip = true →
  (limit_type, window_seconds) ∈ windows →
  (get_reset_times ip key now s).1 !! limit_type
  = Some (reset_time now window_seconds (log_of (client_id_of ip key) s)).
Proof.
  intros Hip Hin. unfold get_reset_times. rewrite Hip.
  pose proof (requests_getitem_log (client_id_of ip key) s) as Hl.
  destruct (requests_getitem _ s) as [q s1]. cbn [fst snd] in *. subst q.
  unfold windows in *. cbn [fold_left reset_step].
  repeat (apply elem_of_cons in Hin as [[= -> ->]|Hin]);
    [| | |by apply elem_of_nil in Hin].
  all: rewrite ?lookup_insert_eq; try done.
  all: rewrite lookup_insert_ne by done; rewrite ?lookup_insert_eq; done.
Qed.

(** The hypothesis on the timestamp zero in the theorem below cannot be
    left out: a client whose only request was logged at time 0 has, 30
    seconds later, that entry inside every window, and [get_reset_times]
    answers 30 (the current time) for each window where the entry's time
    plus the window length is 60, 3600 and 86400. *)
Lemma reset_time_of_entry_at_zero :
  let ip := "203.0.113.7" in
  let s := (is_allowed ip None 0 init).2 in
  log_of ip s = [0] ∧
  oldest_in_window (30 - 60) (log_of ip s) = Some 0 ∧
  (get_reset_times ip None 30 s).1 !! "per_minute" = Some 30 ∧
  (get_reset_times ip None 30 s).1 !! "per_hour" = Some 30 ∧
  (get_reset_times ip None 30 s).1 !! "per_day" = Some 30.
Proof. cbv zeta. repeat split; by vm_compute. Qed.

(** ** Garbage collection (claim C6) *)

(** After [cleanup_old_entries] a client is in the map exactly when its
    pruned log is not empty, and then with that pruned log. *)
Lemma cleanup_old_entries_lookup hours now s k :
  cleanup_old_entries hours now s !! k
  = match s !! k with
    | Some q =>
        match popleft_while_older (now - hours * 3600) q with
        | [] => None
        | t :: q' => Some (t :: q')
        end
    | None => None
    end.
Proof.
  unfold cleanup_old_entries. cbv zeta.
  set (cutoff := now - hours * 3600).
  set (s1 := popleft_while_older cutoff <$> s).
  set (gone := (filter (fun item => item.2 = []) (map_to_list s1)).*1).
  assert (Hgone : k ∈ gone ↔ s1 !! k = Some []).
  { subst gone. rewrite list_elem_of_fmap. split.
    - intros ([k' q] & -> & [Hq Hin]%list_elem_of_filter).
      simpl in *. subst q. by apply elem_of_map_to_list.
    - intros Hk. exists (k, []). split; [done|].
      apply list_elem_of_filter. split; [done|].
      by apply elem_of_map_to_list. }
  assert (Hs1 : s1 !! k = popleft_while_older cutoff <$> s !! k)
    by apply lookup_fmap.
  destruct (decide (k ∈ gone)) as [Hin|Hnin].
  - rewrite lookup_foldr_delete by done.
    apply Hgone in Hin. rewrite Hs1 in Hin.
    destruct (s !! k) as [q|]; [|done]. simpl in Hin.
    injection Hin as ->. done.
  - rewrite lookup_foldr_delete_not_elem_of by done. rewrite Hs1.
    destruct (s !! k) as [q|] eqn:Ek; [|done]. simpl.
    destruct (popleft_while_older cutoff q) eqn:Eq; [|done].
    exfalso. apply Hnin, Hgone. rewrite Hs1. simpl. by rewrite Eq.
Qed.

(** Sorted or not, a log keeps in [cleanup_old_entries] every entry at or
    after the cutoff. *)
Lemma cleanup_old_entries_recent hours now s k :
  recent_requests (now - hours * 3600)
    (log_of k (cleanup_old_entries hours now s))
  = recent_requests (now - hours * 3600) (log_of k s).
Proof.
  unfold log_of. rewrite cleanup_old_entries_lookup.
  destruct (s !! k) as [q|]; [|done]. simpl.
  rewrite <- (popleft_while_older_recent _ q).
  by destruct (popleft_while_older _ q).
Qed.

(** C6: for a log in chronological order, [cleanup_old_entries] leaves
    exactly its entries at or after [now - max_age_hours * 3600]; the
    client is removed from the map when all its entries are older than
    that, and stays, with the number of its entries at or after the cutoff
    unchanged, when one of them is not. *)
Theorem cleanup_removes_exactly_old (max_age_hours now : Z) (s : State)
    (k : string) (q : list Z) :
  let cutoff := now - max_age_hours * 3600 in
  let s' := cleanup_old_entries max_age_hours now s in
  s !! k = Some q →
  Sorted Z.le q →
  log_of k s' = List.filter (fun t => t >=? cutoff) q ∧
  (Forall (fun t => t < cutoff) q → s' !! k = None) ∧
  (Exists (fun t => cutoff ≤ t) q →
   s' !! k = Some (List.filter (fun t => t >=? cutoff) q) ∧
   recent_requests cutoff (log_of k s') = recent_requests cutoff q).
Proof.
  cbv zeta. intros Hk Hsorted.
  apply Sorted_StronglySorted in Hsorted; [|intros x y z; apply Z.le_trans].
  pose proof (popleft_while_older_sorted (now - max_age_hours * 3600) q Hsorted)
    as Hprune.
  pose proof (cleanup_old_entries_lookup max_age_hours now s k) as Hlook.
  rewrite Hk, Hprune in Hlook.
  split; [|split].
  - unfold log_of. rewrite Hlook. by destruct (List.filter _ q).
  - intros Hold. rewrite Hlook.
    replace (List.filter (fun t => t >=? now - max_age_hours * 3600) q)
      with (@nil Z); [done|].
    symmetry. clear -Hold. induction Hold as [|t q Ht _ IH]; [done|].
    cbn [List.filter]. destruct (Z.geb_spec t (now - max_age_hours * 3600));
      [lia | done].
  - intros Hnew. split.
    + rewrite Hlook.
      destruct (List.filter _ q) as [|t q'] eqn:Ef; [|done]. exfalso.
      apply Exists_exists in Hnew as (t & Hin & Ht).
      assert (Hf : In t (List.filter
                (fun t => t >=? now - max_age_hours * 3600) q)).
      { apply filter_In. split; [by apply list_elem_of_In|].
        apply Z.geb_le. lia. }
      by rewrite Ef in Hf.
    + rewrite cleanup_old_entries_recent. unfold log_of. by rewrite Hk.
Qed.

Lemma cleanup_removes_exactly_old_witness :
  let s : State :=
    <["198.51.100.2" := [10; 20]]> (<["203.0.113.7" := [10; 90000]]> init) in
  let s' := cleanup_old_entries 24 100000 s in
  (log_of "203.0.113.7" s' = [90000] ∧
   (Forall (fun t => t < 100000 - 24 * 3600) [10; 90000] →
    s' !! "203.0.113.7" = None) ∧
   (Exists (fun t => 100000 - 24 * 3600 ≤ t) [10; 90000] →
    s' !! "203.0.113.7" = Some [90000] ∧
    recent_requests (100000 - 24 * 3600) (log_of "203.0.113.7" s')
    = recent_requests (100000 - 24 * 3600) [10; 90000])) ∧
  (log_of "198.51.100.2" s' = [] ∧
   (Forall (fun t => t < 100000 - 24 * 3600) [10; 20] →
    s' !! "198.51.100.2" = None) ∧
   (Exists (fun t => 100000 - 24 * 3600 ≤ t) [10; 20] →
    s' !! "198.51.100.2" = Some [] ∧
    recent_requests (100000 - 24 * 3600) (log_of "198.51.100.2" s')
    = recent_requests (100000 - 24 * 3600) [10; 20])).
Proof.
  cbv zeta. split.
  - apply (cleanup_removes_exactly_old 24 100000
             (<["198.51.100.2" := [10; 20]]>
                (<["203.0.113.7" := [10; 90000]]> init))
             "203.0.113.7" [10; 90000]).
    + reflexivity.
    + repeat constructor; lia.
  - apply (cleanup_removes_exactly_old 24 100000
             (<["198.51.100.2" := [10; 20]]>
                (<["203.0.113.7" := [10; 90000]]> init))
             "198.51.100.2" [10; 20]).
    + reflexivity.
    + repeat constructor; lia.
Defined.

(** ** Reset times with the clock of [time.time()] (claim C5) *)

(** Every entry of a log is the clock reading of an [is_allowed] call.
    With positive clock readings, as those of [time.time()] are, the logs
    hold positive timestamps only, the timestamp zero never. *)
Lemma call_step_positive c s :
  0 < call_time c →
  (∀ k, Forall (fun t => 0 < t) (log_of k s)) →
  ∀ k, Forall (fun t => 0 < t) (log_of k (call_step c s)).
Proof.
  intros Hc Hs k.
  destruct c as [ip key now|q|hours now]; cbn [call_step call_time] in *.
  - destruct (truthy ip) eqn:Hip.
    + rewrite is_allowed_log_update by done. cbn [snd].
      rewrite log_of_insert. case_decide; [|apply Hs].
      rewrite log_update_minute. cbv zeta.
      specialize (Hs (client_id_of ip key)).
      destruct (popleft_while_older_suffix (now - 60)
                  (log_of (client_id_of ip key) s)) as [n ->].
      destruct (_ <? _); cbn [snd].
      * apply Forall_app. split; [by apply Forall_drop|].
        by apply Forall_singleton.
      * by apply Forall_drop.
    + unfold is_allowed. rewrite Hip. apply Hs.
  - rewrite query_step_log. apply Hs.
  - assert (log_of k (cleanup_old_entries hours now s)
            = popleft_while_older (now - hours * 3600) (log_of k s)) as ->.
    { unfold log_of. rewrite cleanup_old_entries_lookup.
      destruct (s !! k) as [q|]; [|done]. simpl.
      by destruct (popleft_while_older _ q). }
    destruct (popleft_while_older_suffix (now - hours * 3600) (log_of k s))
      as [n ->].
    apply Forall_drop, Hs.
Qed.

Lemma positive_clock_logs cs k :
  Forall (fun c => 0 < call_time c) cs →
  Forall (fun t => 0 < t) (log_of k (run cs init)).
Proof.
  assert (H : ∀ s, Forall (fun c => 0 < call_time c) cs →
                   (∀ k, Forall (fun t => 0 < t) (log_of k s)) →
                   ∀ k, Forall (fun t => 0 < t) (log_of k (run cs s))).
  { induction cs as [|c cs IH]; intros s Hcs Hs; [done|].
    apply Forall_cons in Hcs as [Hc Hcs].
    cbn [run fold_left]. apply IH; [done|]. by apply call_step_positive. }
  intros Hcs. apply H; [done|]. intros k'.
  unfold log_of, init. rewrite lookup_empty. constructor.
Qed.

(** C5: [get_reset_times] for a non-empty [client_ip], in a state where
    the client's log holds no timestamp zero, which is every state
    written with positive clock readings ([positive_clock_logs]).  For
    each window: when [t] is the first entry of the log at or after
    [now - window_seconds], the value is [t + window_seconds]; when no
    entry is at or after [now - window_seconds], an empty or absent log
    included, the value is [now]. *)
Theorem reset_times_as_specified (ip : string) (key : option string)
    (now : Z) (s : State) (limit_type : string) (window_seconds : Z) :
  truthy ip = true →
  (limit_type, window_seconds) ∈ windows →
  Forall (fun t => t ≠ 0) (log_of (client_id_of ip key) s) →
  let log := log_of (client_id_of ip key) s in
  let result := (get_reset_times ip key now s).1 !! limit_type in
  (∀ older t newer,
     log = older ++ t :: newer →
     Forall (fun x => x < now - window_seconds) older →
     now - window_seconds ≤ t →
     result = Some (t + window_seconds))
  ∧ (Forall (fun x => x < now - window_seconds) log → result = Some now).
Proof.
  intros Hip Hin Hnz log result. subst result.
  rewrite (get_reset_times_lookup ip key now s limit_type window_seconds)
    by done.
  fold log. split.
  - intros older t newer Hlog Hold Ht. f_equal.
    apply reset_time_in_window.
    + apply oldest_in_window_Some. by exists older, newer.
    + rewrite Forall_forall in Hnz. apply Hnz. fold log. rewrite Hlog.
      apply elem_of_app. right. by left.
  - intros Hall. f_equal.
    by apply reset_time_no_entry, oldest_in_window_None.
Qed.

Lemma reset_times_as_specified_witness :
  let ip := "203.0.113.7" in
  let s := run [IsAllowed ip None 1000; IsAllowed ip None 1030] init in
  log_of ip s = [1000; 1030]
  ∧ (get_reset_times ip None 1050 s).1 !! "per_minute" = Some (1000 + 60)
  ∧ (get_reset_times ip None 1100 s).1 !! "per_minute" = Some 1100.
Proof.
  intros ip s.
  assert (Hpos : Forall (fun t => t ≠ 0) (log_of (client_id_of ip None) s)).
  { eapply Forall_impl;
      [apply (positive_clock_logs
                [IsAllowed ip None 1000; IsAllowed ip None 1030])|].
    - repeat constructor.
    - intros t Ht. simpl in Ht. lia. }
  split; [reflexivity|]. split.
  - pose proof (reset_times_as_specified ip None 1050 s "per_minute" 60
                  eq_refl) as W.
    destruct W as [W _]; [set_solver | exact Hpos |].
    apply (W [] 1000 [1030]); [reflexivity | constructor | lia].
  - pose proof (reset_times_as_specified ip None 1100 s "per_minute" 60
                  eq_refl) as W.
    destruct W as [_ W]; [set_solver | exact Hpos |].
    apply W. vm_compute. repeat constructor.
Defined.

(** ** Bounded logs (claim C7) *)

Lemma check_limits_length items now q :
  (length (check_limits items now q).2 ≤ length q)%nat.
Proof.
  revert q. induction items as [|[lt lc] items IH]; intros q; [done|].
  cbn [check_limits].
  pose proof (popleft_while_older_length (now - windows_at lt) q).
  destruct (_ >=? _); cbn [snd]; [done|].
  etrans; [apply IH | done].
Qed.

(** A denied call leaves the log no longer than it was; an admitted call
    leaves it cut to the cap by [popleft_while_longer]. *)
Lemma log_update_length now q :
  Z.of_nat (length q) ≤ max_stored_requests →
  Z.of_nat (length (log_update now q).2) ≤ max_stored_requests.
Proof.
  intros Hq. unfold log_update.
  pose proof (check_limits_length limits now q) as Hlen.
  destruct (check_limits limits now q) as [[] q1]; cbn [snd] in *.
  - by apply popleft_while_longer_length.
  - lia.
Qed.

Lemma is_allowed_bounded ip key now s :
  logs_bounded s → logs_bounded (is_allowed ip key now s).2.
Proof.
  intros Hs k. destruct (truthy ip) eqn:Hip.
  - rewrite is_allowed_log_update by done. cbn [snd]. rewrite log_of_insert.
    case_decide; [|done]. by apply log_update_length.
  - unfold is_allowed. rewrite Hip. apply Hs.
Qed.

Lemma cleanup_old_entries_bounded hours now s :
  logs_bounded s → logs_bounded (cleanup_old_entries hours now s).
Proof.
  intros Hs k. specialize (Hs k). unfold log_of in *.
  rewrite cleanup_old_entries_lookup.
  destruct (s !! k) as [q|]; simpl in *; [|done].
  pose proof (popleft_while_older_length (now - hours * 3600) q).
  destruct (popleft_while_older _ q); simpl in *; lia.
Qed.

Lemma call_step_bounded c s : logs_bounded s → logs_bounded (call_step c s).
Proof.
  intros Hs. destruct c as [ip key now|q|hours now]; cbn [call_step].
  - by apply is_allowed_bounded.
  - intros k. by rewrite query_step_log.
  - by apply cleanup_old_entries_bounded.
Qed.

Lemma run_bounded cs s : logs_bounded s → logs_bounded (run cs s).
Proof.
  revert s. induction cs as [|c cs IH]; intros s Hs; [done|].
  cbn [run fold_left]. by apply IH, call_step_bounded.
Qed.

(** The log left by an admitted call: the log pruned for every window,
    with the call time appended, cut to the cap from its old end. *)
Lemma is_allowed_true_log ip key now s :
  (is_allowed ip key now s).1 = true →
  log_of (client_id_of ip key) (is_allowed ip key now s).2
  = popleft_while_longer max_stored_requests
      (prune_through limits now (log_of (client_id_of ip key) s) ++ [now]).
Proof.
  destruct (truthy ip) eqn:Hip.
  - rewrite is_allowed_log_update by done. cbn [fst snd].
    rewrite log_of_insert, decide_True by done. unfold log_update.
    pose proof (check_limits_true limits now
                  (log_of (client_id_of ip key) s)) as Ht.
    destruct (check_limits limits now _) as [[] q1]; [|done].
    intros _. cbn [snd]. by injection (Ht eq_refl) as ->.
  - unfold is_allowed. by rewrite Hip.
Qed.

(** The loop [while len(q) > max_stored_requests: q.popleft()] leaves
    the newest [m] entries: what it drops are the oldest entries beyond
    the cap. *)
Lemma popleft_while_longer_drop m q :
  0 ≤ m → popleft_while_longer m q = drop (length q - Z.to_nat m) q.
Proof.
  intros Hm. induction q as [|t q IH]; [done|].
  cbn [popleft_while_longer].
  destruct (Z.gtb_spec (Z.of_nat (length (t :: q))) m) as [Hgt|Hle].
  - rewrite IH. cbn [length] in *.
    replace (S (length q) - Z.to_nat m)%nat
      with (S (length q - Z.to_nat m)) by lia.
    done.
  - cbn [length] in *.
    replace (S (length q) - Z.to_nat m)%nat with 0%nat by lia. done.
Qed.

(** C7: the cap is [max(self.limits.values())] = 1000.  From the limiter
    as constructed, after any sequence of [is_allowed],
    [get_remaining_requests], [get_reset_times] and [cleanup_old_entries]
    calls, at any call times, every client's log holds at most 1000
    entries.  [is_allowed] enforces the cap after appending: in every
    state, the log that an admitted call leaves is the log pruned for the
    windows with the call time appended, without its oldest entries
    beyond the newest 1000; and the loop that cuts it,
    [popleft_while_longer], leaves of any log the newest 1000 entries and
    never more than 1000. *)
Theorem logs_capped_by_dropping_oldest :
  max_stored_requests = 1000
  ∧ (∀ (cs : list call) (k : string),
       Z.of_nat (length (log_of k (run cs init))) ≤ max_stored_requests)
  ∧ (∀ (ip : string) (key : option string) (now : Z) (s : State),
       (is_allowed ip key now s).1 = true →
       let appended :=
         prune_through limits now (log_of (client_id_of ip key) s) ++ [now] in
       log_of (client_id_of ip key) (is_allowed ip key now s).2
       = drop (length appended - 1000) appended)
  ∧ (∀ q : list Z,
       popleft_while_longer max_stored_requests q
       = drop (length q - 1000) q
       ∧ Z.of_nat (length (popleft_while_longer max_stored_requests q))
         ≤ max_stored_requests).
Proof.
  split; [done|]. split; [|split].
  - intros cs k. apply run_bounded. intros k'. by vm_compute.
  - intros ip key now s Hok appended. subst appended.
    rewrite is_allowed_true_log by done.
    by rewrite popleft_while_longer_drop.
  - intros q. split.
    + by rewrite popleft_while_longer_drop.
    + by apply popleft_while_longer_length.
Qed.

(** ** What decides an admission *)

(** [is_allowed] in closed form: the minute window alone decides. *)
Lemma is_allowed_minute ip key now s :
  truthy ip = true →
  is_allowed ip key now s
  = let client_id := client_id_of ip key in
    let q1 := popleft_while_older (now - 60) (log_of client_id s) in
    if Z.of_nat (length q1) <? 10
    then (true, <[client_id := q1 ++ [now]]> s)
    else (false, <[client_id := q1]> s).
Proof.
  intros Hip. rewrite is_allowed_log_update, log_update_minute by done.
  cbv zeta. by destruct (_ <? _).
Qed.

(** X1: for a truthy [client_ip], [is_allowed] returns [True] exactly when
    fewer than 10 entries are left after the entries older than
    [now - 60] are popped from the left of the client's log; the log left
    is that pruned log, with [now] appended when the call is admitted.
    The [per_hour] and [per_day] checks never change the outcome. *)
Theorem admission_is_the_minute_window (ip : string) (key : option string)
    (now : Z) (s : State) :
  let client_id := client_id_of ip key in
  let q1 := popleft_while_older (now - 60) (log_of client_id s) in
  is_allowed ip key now s
  = if truthy ip
    then if Z.of_nat (length q1) <? 10
         then (true, <[client_id := q1 ++ [now]]> s)
         else (false, <[client_id := q1]> s)
    else (false, s).
Proof.
  cbv zeta. destruct (truthy ip) eqn:Hip.
  - by rewrite is_allowed_minute.
  - unfold is_allowed. by rewrite Hip.
Qed.

Lemma remaining_of_log ip key now s :
  truthy ip = true →
  (get_remaining_requests ip key now s).1
  = fold_left (remaining_step now (log_of (client_id_of ip key) s)) limits ∅.
Proof.
  intros Hip. unfold get_remaining_requests. rewrite Hip.
  pose proof (requests_getitem_log (client_id_of ip key) s) as Hl.
  destruct (requests_getitem _ s) as [q s1]. cbn [fst snd] in *. by subst q.
Qed.

Lemma reset_times_of_log ip key now s :
  truthy ip = true →
  (get_reset_times ip key now s).1
  = fold_left (reset_step now (log_of (client_id_of ip key) s)) windows ∅.
Proof.
  intros Hip. unfold get_reset_times. rewrite Hip.
  pose proof (requests_getitem_log (client_id_of ip key) s) as Hl.
  destruct (requests_getitem _ s) as [q s1]. cbn [fst snd] in *. by subst q.
Qed.

(** X2: a client with a truthy address and no logged request (never seen,
    or with an empty log) is admitted, its log becoming the call time
    alone; its remaining quota is the full 10, 100 and 1000; and each of
    its reset times is the current time. *)
Theorem client_without_requests (ip : string) (key : option string)
    (now : Z) (s : State) :
  truthy ip = true →
  log_of (client_id_of ip key) s = [] →
  is_allowed ip key now s = (true, <[client_id_of ip key := [now]]> s) ∧
  (get_remaining_requests ip key now s).1
  = <["per_day" := 1000]> (<["per_hour" := 100]> (<["per_minute" := 10]> ∅)) ∧
  (get_reset_times ip key now s).1
  = <["per_day" := now]> (<["per_hour" := now]> (<["per_minute" := now]> ∅)).
Proof.
  intros Hip Hlog. split; [|split].
  - rewrite is_allowed_minute by done. cbv zeta. by rewrite Hlog.
  - by rewrite remaining_of_log, Hlog.
  - by rewrite reset_times_of_log, Hlog.
Qed.

Lemma client_without_requests_witness :
  let s : State := <["198.51.100.2" := [5; 6]]> init in
  is_allowed "203.0.113.7" (Some "k1") 7 s
  = (true, <["203.0.113.7:k1" := [7]]> s) ∧
  (get_remaining_requests "203.0.113.7" (Some "k1") 7 s).1
  = <["per_day" := 1000]> (<["per_hour" := 100]> (<["per_minute" := 10]> ∅)) ∧
  (get_reset_times "203.0.113.7" (Some "k1") 7 s).1
  = <["per_day" := 7]> (<["per_hour" := 7]> (<["per_minute" := 7]> ∅)).
Proof.
  exact (client_without_requests "203.0.113.7" (Some "k1") 7
           (<["198.51.100.2" := [5; 6]]> init) eq_refl eq_refl).
Defined.

(** ** Remaining quota *)

Lemma recent_requests_bounds cutoff q :
  0 ≤ recent_requests cutoff q ∧ recent_requests cutoff q ≤ Z.of_nat (length q).
Proof.
  unfold recent_requests. split; [lia|].
  apply inj_le, filter_length_le.
Qed.

Lemma recent_requests_app cutoff q q' :
  recent_requests cutoff (q ++ q')
  = recent_requests cutoff q + recent_requests cutoff q'.
Proof. unfold recent_requests. rewrite List.filter_app, length_app. lia. Qed.

(** The mapping returned by [get_remaining_requests], entry by entry. *)
Lemma remaining_lookup_inv ip key now s name v :
  truthy ip = true →
  (get_remaining_requests ip key now s).1 !! name = Some v →
  ∃ limit_count,
    (name, limit_count) ∈ limits ∧
    v = Z.max 0 (limit_count
                 - recent_requests (now - windows_at name)
                     (log_of (client_id_of ip key) s)).
Proof.
  intros Hip. rewrite remaining_of_log by done.
  unfold limits. cbn [fold_left remaining_step].
  rewrite !lookup_insert. repeat case_decide; subst; rewrite ?lookup_empty;
    intros [= <-]; eexists; (split; [|done]); set_solver.
Qed.

(** X3: for a truthy [client_ip] the mapping of [get_remaining_requests]
    has exactly the keys [per_minute], [per_hour] and [per_day], and the
    value under each lies between 0 and that window's limit. *)
Theorem remaining_requests_within_limits (ip : string) (key : option string)
    (now : Z) (s : State) :
  truthy ip = true →
  dom (get_remaining_requests ip key now s).1
  = {["per_minute"; "per_hour"; "per_day"]} ∧
  ∀ name v,
    (get_remaining_requests ip key now s).1 !! name = Some v →
    ∃ limit_count, (name, limit_count) ∈ limits ∧ 0 ≤ v ∧ v ≤ limit_count.
Proof.
  intros Hip. split.
  - rewrite remaining_of_log by done. unfold limits.
    cbn [fold_left remaining_step]. rewrite !dom_insert_L. set_solver.
  - intros name v Hv.
    destruct (remaining_lookup_inv ip key now s name v Hip Hv)
      as (lc & Hin & ->).
    exists lc. split; [done|].
    pose proof (recent_requests_bounds (now - windows_at name)
                  (log_of (client_id_of ip key) s)) as [H0 _].
    assert (0 ≤ lc).
    { unfold limits in Hin.
      repeat (apply elem_of_cons in Hin as [[= _ ->]|Hin]); try lia.
      by apply elem_of_nil in Hin. }
    lia.
Qed.

Lemma remaining_requests_within_limits_witness :
  let s : State := <["203.0.113.7" := [1; 2; 3]]> init in
  dom (get_remaining_requests "203.0.113.7" None 10 s).1
  = {["per_minute"; "per_hour"; "per_day"]} ∧
  ∀ name v,
    (get_remaining_requests "203.0.113.7" None 10 s).1 !! name = Some v →
    ∃ limit_count, (name, limit_count) ∈ limits ∧ 0 ≤ v ∧ v ≤ limit_count.
Proof.
  exact (remaining_requests_within_limits "203.0.113.7" None 10
           (<["203.0.113.7" := [1; 2; 3]]> init) eq_refl).
Defined.

(** X4: an [is_allowed] call lowers the client's [per_minute] remaining
    quota, read at the same instant, by exactly one when it admits, and
    leaves it as it was when it denies. *)
Theorem is_allowed_uses_one_minute_request (ip : string) (key : option string)
    (now : Z) (s : State) :
  truthy ip = true →
  ∃ v,
    (get_remaining_requests ip key now s).1 !! "per_minute" = Some v ∧
    (get_remaining_requests ip key now (is_allowed ip key now s).2).1
      !! "per_minute"
    = Some (if (is_allowed ip key now s).1 then v - 1 else v).
Proof.
  intros Hip.
  set (q := log_of (client_id_of ip key) s).
  exists (Z.max 0 (10 - recent_requests (now - 60) q)).
  rewrite !(get_remaining_requests_lookup _ _ _ _ "per_minute" 10)
    by (done || set_solver).
  change (windows_at "per_minute") with 60. split; [done|].
  rewrite is_allowed_minute by done. cbv zeta. fold q.
  pose proof (popleft_while_older_recent (now - 60) q) as Hrec.
  pose proof (recent_requests_bounds (now - 60)
                (popleft_while_older (now - 60) q)) as [_ Hle].
  destruct (Z.ltb_spec (Z.of_nat (length (popleft_while_older (now - 60) q))) 10)
    as [Hlt|Hge]; cbn [fst snd]; rewrite log_of_insert, decide_True by done.
  - rewrite recent_requests_app, Hrec.
    replace (recent_requests (now - 60) [now]) with 1;
      [f_equal; lia|].
    unfold recent_requests. cbn [List.filter].
    by destruct (Z.geb_spec now (now - 60)); [|lia].
  - by rewrite Hrec.
Qed.

Lemma is_allowed_uses_one_minute_request_witness :
  ∃ v,
    (get_remaining_requests "203.0.113.7" None 100
       (<["203.0.113.7" := [10; 50; 60]]> init)).1 !! "per_minute" = Some v ∧
    (get_remaining_requests "203.0.113.7" None 100
       (is_allowed "203.0.113.7" None 100
          (<["203.0.113.7" := [10; 50; 60]]> init)).2).1 !! "per_minute"
    = Some (if (is_allowed "203.0.113.7" None 100
                  (<["203.0.113.7" := [10; 50; 60]]> init)).1
            then v - 1 else v).
Proof.
  exact (is_allowed_uses_one_minute_request "203.0.113.7" None 100
           (<["203.0.113.7" := [10; 50; 60]]> init) eq_refl).
Defined.

(** X5: on a log in chronological order, [is_allowed] admits exactly when
    the [per_minute] remaining quota read at the same instant is
    positive. *)
Theorem admitted_iff_minute_quota_left (ip : string) (key : option string)
    (now : Z) (s : State) :
  truthy ip = true →
  Sorted Z.le (log_of (client_id_of ip key) s) →
  ∃ v,
    (get_remaining_requests ip key now s).1 !! "per_minute" = Some v ∧
    ((is_allowed ip key now s).1 = true ↔ 0 < v).
Proof.
  intros Hip Hsorted.
  apply Sorted_StronglySorted in Hsorted; [|intros x y z; apply Z.le_trans].
  set (q := log_of (client_id_of ip key) s) in *.
  exists (Z.max 0 (10 - recent_requests (now - 60) q)).
  rewrite (get_remaining_requests_lookup _ _ _ _ "per_minute" 10)
    by (done || set_solver).
  change (windows_at "per_minute") with 60. split; [done|].
  rewrite is_allowed_minute by done. cbv zeta. fold q.
  rewrite popleft_while_older_sorted by done.
  unfold recent_requests.
  destruct (Z.ltb_spec (Z.of_nat (length
              (List.filter (fun t => t >=? now - 60) q))) 10); cbn [fst];
    split; (done || lia).
Qed.

Lemma admitted_iff_minute_quota_left_witness :
  ∃ v,
    (get_remaining_requests "203.0.113.7" None 100
       (<["203.0.113.7" := [10; 50; 60]]> init)).1 !! "per_minute" = Some v ∧
    ((is_allowed "203.0.113.7" None 100
        (<["203.0.113.7" := [10; 50; 60]]> init)).1 = true ↔ 0 < v).
Proof.
  apply (admitted_iff_minute_quota_left "203.0.113.7" None 100
           (<["203.0.113.7" := [10; 50; 60]]> init)).
  - reflexivity.
  - repeat constructor; lia.
Defined.

(** ** Denial and recovery *)

Lemma popleft_while_older_all cutoff q :
  Forall (fun t => t < cutoff) q → popleft_while_older cutoff q = [].
Proof.
  induction 1 as [|t q Ht _ IH]; [done|]. cbn [popleft_while_older].
  by destruct (Z.ltb_spec t cutoff); [|lia].
Qed.

(** The entry left at the head of a pruned log is not older than the
    cutoff. *)
Lemma popleft_while_older_head_ge cutoff q t q' :
  popleft_while_older cutoff q = t :: q' → cutoff ≤ t.
Proof.
  induction q as [|x q IH]; [done|]. cbn [popleft_while_older].
  destruct (Z.ltb_spec x cutoff); [done|]. by intros [= <- _].
Qed.

(** X6: once every entry of a client's log is older than 60 seconds, the
    client is admitted, whatever the length of the log, and its log
    restarts with the call time alone. *)
Theorem admitted_again_after_a_minute (ip : string) (key : option string)
    (now : Z) (s : State) :
  truthy ip = true →
  Forall (fun t => t < now - 60) (log_of (client_id_of ip key) s) →
  is_allowed ip key now s = (true, <[client_id_of ip key := [now]]> s).
Proof.
  intros Hip Hold. rewrite is_allowed_minute by done. cbv zeta.
  by rewrite popleft_while_older_all.
Qed.

Lemma admitted_again_after_a_minute_witness :
  let s : State :=
    <["203.0.113.7" := [0; 1; 2; 3; 4; 5; 6; 7; 8; 9; 10; 11]]> init in
  is_allowed "203.0.113.7" None 72 s = (true, <["203.0.113.7" := [72]]> s).
Proof.
  apply (admitted_again_after_a_minute "203.0.113.7" None 72
           (<["203.0.113.7" := [0; 1; 2; 3; 4; 5; 6; 7; 8; 9; 10; 11]]> init)).
  - reflexivity.
  - repeat constructor; lia.
Defined.

(** X7: after a denied call the client's log starts with an entry no older
    than 60 seconds, and every retry made no later than 60 seconds after
    that entry, one at the same instant included, is denied too and
    leaves the state exactly as the first denial left it. *)
Theorem denied_until_oldest_entry_expires (ip : string) (key : option string)
    (now : Z) (s : State) :
  truthy ip = true →
  (is_allowed ip key now s).1 = false →
  let s1 := (is_allowed ip key now s).2 in
  ∃ t0 rest,
    log_of (client_id_of ip key) s1 = t0 :: rest ∧
    now ≤ t0 + 60 ∧
    ∀ now', now' ≤ t0 + 60 → is_allowed ip key now' s1 = (false, s1).
Proof.
  intros Hip. cbv zeta. rewrite is_allowed_minute by done. cbv zeta.
  set (cid := client_id_of ip key).
  destruct (Z.ltb_spec (Z.of_nat (length
              (popleft_while_older (now - 60) (log_of cid s)))) 10)
    as [|Hge]; [done|]. intros _. cbn [snd].
  destruct (popleft_while_older (now - 60) (log_of cid s))
    as [|t0 rest] eqn:Eq; [simpl in Hge; lia|].
  exists t0, rest. rewrite log_of_insert, decide_True by done.
  split; [done|].
  pose proof (popleft_while_older_head_ge _ _ _ _ Eq). split; [lia|].
  intros now' Hnow'. rewrite is_allowed_minute by done. cbv zeta. fold cid.
  rewrite log_of_insert, decide_True by done.
  rewrite popleft_while_older_head by lia.
  destruct (Z.ltb_spec (Z.of_nat (length (t0 :: rest))) 10); [lia|].
  by rewrite insert_insert_eq.
Qed.

Lemma denied_until_oldest_entry_expires_witness :
  let s : State :=
    <["203.0.113.7" := [0; 50; 51; 52; 53; 54; 55; 56; 57; 58; 59]]> init in
  let s1 := (is_allowed "203.0.113.7" None 100 s).2 in
  ∃ t0 rest,
    log_of "203.0.113.7" s1 = t0 :: rest ∧
    100 ≤ t0 + 60 ∧
    ∀ now', now' ≤ t0 + 60 →
            is_allowed "203.0.113.7" None now' s1 = (false, s1).
Proof.
  apply (denied_until_oldest_entry_expires "203.0.113.7" None 100
           (<["203.0.113.7" := [0; 50; 51; 52; 53; 54; 55; 56; 57; 58; 59]]>
              init)).
  - reflexivity.
  - by vm_compute.
Defined.

(** ** Clients do not interfere *)

(** X8: calls of two clients with different identities are independent:
    each call returns what it returns without the other, and the two
    calls leave the same state in either order. *)
Theorem distinct_clients_are_independent (ip1 ip2 : string)
    (key1 key2 : option string) (t1 t2 : Z) (s : State) :
  client_id_of ip1 key1 ≠ client_id_of ip2 key2 →
  (is_allowed ip2 key2 t2 (is_allowed ip1 key1 t1 s).2).1
  = (is_allowed ip2 key2 t2 s).1 ∧
  (is_allowed ip1 key1 t1 (is_allowed ip2 key2 t2 s).2).1
  = (is_allowed ip1 key1 t1 s).1 ∧
  (is_allowed ip2 key2 t2 (is_allowed ip1 key1 t1 s).2).2
  = (is_allowed ip1 key1 t1 (is_allowed ip2 key2 t2 s).2).2.
Proof.
  intros Hne.
  destruct (truthy ip1) eqn:H1, (truthy ip2) eqn:H2.
  - rewrite !is_allowed_log_update by done. cbn [fst snd].
    rewrite !log_of_insert, decide_False, decide_False by done.
    repeat split. by apply insert_insert_ne.
  - rewrite (is_allowed_log_update ip1) by done.
    unfold is_allowed. rewrite H2, ?H1. cbn [fst snd].
    by rewrite check_and_update_limits_log_update.
  - rewrite !(is_allowed_log_update ip2) by done.
    unfold is_allowed. rewrite H1. cbn [fst snd].
    by rewrite ?H2, ?check_and_update_limits_log_update.
  - unfold is_allowed. by rewrite H1, H2; cbn; rewrite ?H1, ?H2.
Qed.

Lemma distinct_clients_are_independent_witness :
  let s : State := <["203.0.113.7" := [1; 2]]> init in
  (is_allowed "198.51.100.2" None 4 (is_allowed "203.0.113.7" None 3 s).2).1
  = (is_allowed "198.51.100.2" None 4 s).1 ∧
  (is_allowed "203.0.113.7" None 3 (is_allowed "198.51.100.2" None 4 s).2).1
  = (is_allowed "203.0.113.7" None 3 s).1 ∧
  (is_allowed "198.51.100.2" None 4 (is_allowed "203.0.113.7" None 3 s).2).2
  = (is_allowed "203.0.113.7" None 3 (is_allowed "198.51.100.2" None 4 s).2).2.
Proof.
  apply (distinct_clients_are_independent "203.0.113.7" "198.51.100.2"
           None None 3 4 (<["203.0.113.7" := [1; 2]]> init)).
  discriminate.
Defined.

(** ** Invariants of the logs *)

Lemma popleft_while_older_chronological cutoff now q :
  StronglySorted Z.le q ∧ Forall (fun t => t ≤ now) q →
  StronglySorted Z.le (popleft_while_older cutoff q) ∧
  Forall (fun t => t ≤ now) (popleft_while_older cutoff q).
Proof.
  intros [Hs Hf]. destruct (popleft_while_older_suffix cutoff q) as [n ->].
  split; [|by apply Forall_drop].
  rewrite <- (take_drop n q) in Hs.
  by apply sorting.StronglySorted_app_1_r in Hs.
Qed.

Lemma cleanup_old_entries_log hours now s k :
  log_of k (cleanup_old_entries hours now s)
  = popleft_while_older (now - hours * 3600) (log_of k s).
Proof.
  unfold log_of. rewrite cleanup_old_entries_lookup.
  destruct (s !! k) as [q|]; [|done]. simpl.
  by destruct (popleft_while_older _ q).
Qed.

Lemma call_step_chronological c t s :
  logs_chronological t s → t ≤ call_time c →
  logs_chronological (call_time c) (call_step c s).
Proof.
  intros Hs Ht k. specialize (Hs k).
  assert (Hweak : ∀ q, Forall (fun x => x ≤ t) q →
                       Forall (fun x => x ≤ call_time c) q).
  { intros q Hq. eapply Forall_impl; [done|]. intros x Hx. simpl in *. lia. }
  destruct c as [ip key now|q|hours now]; cbn [call_step call_time] in *.
  - destruct (truthy ip) eqn:Hip.
    + rewrite is_allowed_minute by done. cbv zeta.
      set (cid := client_id_of ip key).
      destruct (Z.ltb_spec (Z.of_nat (length
                  (popleft_while_older (now - 60) (log_of cid s)))) 10);
        cbn [snd]; rewrite log_of_insert;
        (case_decide as Hk; [subst k|by split; [|apply Hweak]; apply Hs]);
        destruct (popleft_while_older_chronological (now - 60) t
                    (log_of cid s) Hs) as [Hs1 Hf1].
      * split.
        -- apply sorting.StronglySorted_app. split; [|split; [done|]].
           ++ intros x1 x2 Hx1 ->%list_elem_of_singleton.
              rewrite Forall_forall in Hf1. specialize (Hf1 x1 Hx1). lia.
           ++ repeat constructor.
        -- apply Forall_app. split; [by apply Hweak|].
           repeat constructor. lia.
      * split; [done | by apply Hweak].
    + unfold is_allowed. rewrite Hip. cbn [snd].
      split; [|apply Hweak]; apply Hs.
  - rewrite query_step_log. split; [|apply Hweak]; apply Hs.
  - rewrite cleanup_old_entries_log.
    destruct (popleft_while_older_chronological (now - hours * 3600) t
                (log_of k s) Hs) as [Hs1 Hf1].
    split; [done | by apply Hweak].
Qed.

Lemma run_chronological cs :
  ∀ t s,
    logs_chronological t s →
    Sorted Z.le (t :: (call_time <$> cs)) →
    ∃ t', logs_chronological t' (run cs s).
Proof.
  induction cs as [|c cs IH]; intros t s Hs Hsorted; [by exists t|].
  cbn [run fold_left]. rewrite fmap_cons in Hsorted.
  apply Sorted_inv in Hsorted as [Htail Hhd].
  apply HdRel_inv in Hhd.
  apply (IH (call_time c)); [|done].
  by apply (call_step_chronological c t).
Qed.

(** X9: when the clock does not go back from one call to the next, every
    log reached from the limiter as constructed, by any calls of
    [is_allowed], [get_remaining_requests], [get_reset_times] and
    [cleanup_old_entries], is in chronological order. *)
Theorem logs_stay_in_chronological_order (cs : list call) (k : string) :
  Sorted Z.le (call_time <$> cs) →
  Sorted Z.le (log_of k (run cs init)).
Proof.
  intros Hsorted.
  assert (Hinit : ∀ t, logs_chronological t init).
  { intros t k'. unfold log_of, init. rewrite lookup_empty.
    split; constructor. }
  destruct cs as [|c cs]; [apply StronglySorted_Sorted, (Hinit 0)|].
  destruct (run_chronological (c :: cs) (call_time c) init (Hinit _))
    as [t' Ht'].
  - rewrite fmap_cons in *. constructor; [done|]. constructor. lia.
  - apply StronglySorted_Sorted, Ht'.
Qed.

Lemma logs_stay_in_chronological_order_witness :
  Sorted Z.le
    (log_of "203.0.113.7"
       (run [IsAllowed "203.0.113.7" None 5;
             Query (GetResetTimes "198.51.100.2" None 5);
             IsAllowed "203.0.113.7" None 70;
             CleanupOldEntries 1 80;
             IsAllowed "203.0.113.7" None 80] init)).
Proof.
  apply (logs_stay_in_chronological_order
           [IsAllowed "203.0.113.7" None 5;
            Query (GetResetTimes "198.51.100.2" None 5);
            IsAllowed "203.0.113.7" None 70;
            CleanupOldEntries 1 80;
            IsAllowed "203.0.113.7" None 80]).
  simpl. repeat constructor; lia.
Defined.

Lemma call_step_at_most_ten c s :
  logs_at_most 10 s → logs_at_most 10 (call_step c s).
Proof.
  intros Hs k.
  destruct c as [ip key now|q|hours now]; cbn [call_step].
  - destruct (truthy ip) eqn:Hip.
    + rewrite is_allowed_minute by done. cbv zeta.
      set (cid := client_id_of ip key).
      pose proof (popleft_while_older_length (now - 60) (log_of cid s)).
      specialize (Hs cid) as Hcid.
      destruct (Z.ltb_spec (Z.of_nat (length
                  (popleft_while_older (now - 60) (log_of cid s)))) 10);
        cbn [snd]; rewrite log_of_insert; (case_decide; [|apply Hs]).
      * rewrite length_app. simpl. lia.
      * lia.
    + unfold is_allowed. rewrite Hip. apply Hs.
  - rewrite query_step_log. apply Hs.
  - rewrite cleanup_old_entries_log.
    pose proof (popleft_while_older_length (now - hours * 3600) (log_of k s)).
    specialize (Hs k). lia.
Qed.

(** X10: from the limiter as constructed, after any sequence of calls at
    any times, no log holds more than 10 entries (the [per_minute] limit):
    the cap of 1000 entries is never reached. *)
Theorem reachable_logs_hold_at_most_ten (cs : list call) (k : string) :
  (length (log_of k (run cs init)) ≤ 10)%nat.
Proof.
  assert (H : ∀ s, logs_at_most 10 s → logs_at_most 10 (run cs s)).
  { induction cs as [|c cs IH]; intros s Hs; [done|].
    cbn [run fold_left]. by apply IH, call_step_at_most_ten. }
  apply H. intros k'. unfold log_of, init. rewrite lookup_empty. simpl. lia.
Qed.

(** ** Reset times are not in the past *)

Lemma reset_time_bounds now w q :
  now ≤ reset_time now w q ∧
  (Forall (fun t => t ≤ now) q → 0 ≤ w → reset_time now w q ≤ now + w).
Proof.
  unfold reset_time. destruct q as [|x q]; [lia|]. cbv zeta.
  destruct (oldest_in_window (now - w) (x :: q)) as [t|] eqn:Eo; [|lia].
  apply oldest_in_window_Some in Eo as (older & newer & Hq & _ & Ht).
  destruct (Z.eqb_spec t 0); [lia|]. split; [lia|].
  intros Hall _. rewrite Hq in Hall.
  apply Forall_app in Hall as [_ [Hle _]%Forall_cons]. lia.
Qed.

(** X11: for a truthy [client_ip], the reset time that [get_reset_times]
    gives for a window is never earlier than the current time, and, when
    no logged entry is later than the current time, never later than the
    current time plus the window's length. *)
Theorem reset_times_between_now_and_window_end (ip : string)
    (key : option string) (now : Z) (s : State) (name : string) (w : Z) :
  truthy ip = true →
  (name, w) ∈ windows →
  ∃ v,
    (get_reset_times ip key now s).1 !! name = Some v ∧
    now ≤ v ∧
    (Forall (fun t => t ≤ now) (log_of (client_id_of ip key) s) →
     v ≤ now + w).
Proof.
  intros Hip Hin. eexists. split; [by apply get_reset_times_lookup|].
  destruct (reset_time_bounds now w (log_of (client_id_of ip key) s))
    as [Hlo Hhi].
  split; [done|]. intros Hall. apply Hhi; [done|].
  unfold windows in Hin.
  repeat (apply elem_of_cons in Hin as [[= _ ->]|Hin]); try lia.
  by apply elem_of_nil in Hin.
Qed.

Lemma reset_times_between_now_and_window_end_witness :
  ∃ v,
    (get_reset_times "203.0.113.7" None 100
       (<["203.0.113.7" := [10; 50; 60]]> init)).1 !! "per_hour" = Some v ∧
    100 ≤ v ∧
    (Forall (fun t => t ≤ 100)
       (log_of "203.0.113.7" (<["203.0.113.7" := [10; 50; 60]]> init)) →
     v ≤ 100 + 3600).
Proof.
  apply (reset_times_between_now_and_window_end "203.0.113.7" None 100
           (<["203.0.113.7" := [10; 50; 60]]> init) "per_hour" 3600).
  - reflexivity.
  - set_solver.
Defined.

(** ** Garbage collection, continued *)

Lemma cleanup_old_entries_lookup_log hours now s k :
  cleanup_old_entries hours now s !! k
  = match popleft_while_older (now - hours * 3600) (log_of k s) with
    | [] => None
    | t :: q => Some (t :: q)
    end.
Proof.
  rewrite cleanup_old_entries_lookup. unfold log_of.
  by destruct (s !! k).
Qed.

(** States with the same logs, an absent key read as an empty log, are
    cleaned to the same state. *)
Lemma cleanup_old_entries_log_ext hours now s s' :
  (∀ k, log_of k s' = log_of k s) →
  cleanup_old_entries hours now s' = cleanup_old_entries hours now s.
Proof.
  intros Hlog. apply map_eq. intros k.
  by rewrite !cleanup_old_entries_lookup_log, Hlog.
Qed.

(** X12: [cleanup_old_entries] leaves no client with an empty log in the
    map; run again with the same arguments it changes nothing more; and
    it removes the empty logs that [get_remaining_requests] and
    [get_reset_times] created, so the state after queries and a cleanup
    is the state after the cleanup alone. *)
Theorem cleanup_collects_empty_logs (hours now : Z) (qs : list query)
    (s : State) :
  (∀ k, cleanup_old_entries hours now s !! k ≠ Some []) ∧
  cleanup_old_entries hours now (cleanup_old_entries hours now s)
  = cleanup_old_entries hours now s ∧
  cleanup_old_entries hours now (run_queries qs s)
  = cleanup_old_entries hours now s.
Proof.
  split; [|split].
  - intros k. rewrite cleanup_old_entries_lookup_log.
    by destruct (popleft_while_older _ _).
  - apply map_eq. intros k.
    rewrite (cleanup_old_entries_lookup_log hours now (cleanup_old_entries _ _ _)).
    rewrite cleanup_old_entries_log, popleft_while_older_idem by lia.
    by rewrite cleanup_old_entries_lookup_log.
  - apply cleanup_old_entries_log_ext. intros k. apply run_queries_log.
Qed.

(** Pruning at a cutoff, then at a later one, is pruning at the later. *)
Lemma popleft_while_older_compose cutoff cutoff' q :
  cutoff ≤ cutoff' →
  popleft_while_older cutoff' (popleft_while_older cutoff q)
  = popleft_while_older cutoff' q.
Proof.
  intros Hc. induction q as [|t q IH]; [done|].
  cbn [popleft_while_older]. destruct (Z.ltb_spec t cutoff) as [Hlt|Hge].
  - rewrite IH. by destruct (Z.ltb_spec t cutoff'); [|lia].
  - done.
Qed.

(** X13: for a truthy [client_ip], a cleanup whose cutoff is not later
    than the minute window of a following [is_allowed] call (a maximum
    age of an hour or more, the clock not going back) is invisible to
    that call: it returns what it would have returned, and leaves the
    client the log it would have left. *)
Theorem cleanup_does_not_change_admission (hours now now' : Z) (ip : string)
    (key : option string) (s : State) :
  truthy ip = true →
  now - hours * 3600 ≤ now' - 60 →
  (is_allowed ip key now' (cleanup_old_entries hours now s)).1
  = (is_allowed ip key now' s).1 ∧
  log_of (client_id_of ip key)
    (is_allowed ip key now' (cleanup_old_entries hours now s)).2
  = log_of (client_id_of ip key) (is_allowed ip key now' s).2.
Proof.
  intros Hip Hc. rewrite !is_allowed_minute by done. cbv zeta.
  rewrite cleanup_old_entries_log, popleft_while_older_compose by done.
  destruct (_ <? _); cbn [fst snd];
    by rewrite !log_of_insert, !decide_True.
Qed.

Lemma cleanup_does_not_change_admission_witness :
  let s : State := <["203.0.113.7" := [10; 3550; 3590]]> init in
  (is_allowed "203.0.113.7" None 3620 (cleanup_old_entries 1 3615 s)).1
  = (is_allowed "203.0.113.7" None 3620 s).1 ∧
  log_of "203.0.113.7"
    (is_allowed "203.0.113.7" None 3620 (cleanup_old_entries 1 3615 s)).2
  = log_of "203.0.113.7" (is_allowed "203.0.113.7" None 3620 s).2.
Proof.
  apply (cleanup_does_not_change_admission 1 3615 3620 "203.0.113.7" None
           (<["203.0.113.7" := [10; 3550; 3590]]> init)).
  - reflexivity.
  - lia.
Defined.

End RateLimiter.

(** * Facts on the string functions *)

Module PyStrFacts.
Import PyStr.

Lemma truthy_nonempty s : truthy s = true ↔ s ≠ EmptyString.
Proof. by destruct s. Qed.

Lemma lstrip_spec s :
  lstrip s = EmptyString ∨ ∃ c r, lstrip s = String c r ∧ isspace c = false.
Proof.
  induction s as [|c s IH]; [by left|]. simpl.
  destruct (isspace c) eqn:Ec; [done|]. right. by exists c, s.
Qed.

Lemma lstrip_fixed c r : isspace c = false → lstrip (String c r) = String c r.
Proof. intros H. simpl. by rewrite H. Qed.

Lemma lstrip_idem s : lstrip (lstrip s) = lstrip s.
Proof.
  destruct (lstrip_spec s) as [->|(c & r & -> & Hc)]; [done|].
  by apply lstrip_fixed.
Qed.

Lemma rstrip_idem s : rstrip (rstrip s) = rstrip s.
Proof.
  induction s as [|c s IH]; [done|]. simpl.
  destruct (rstrip s) as [|c' r] eqn:Er.
  - destruct (isspace c) eqn:Ec; [done|]. simpl. by rewrite Ec.
  - simpl in *. by rewrite IH.
Qed.

(** Stripping on the left keeps a right end already stripped. *)
Lemma rstrip_lstrip s : rstrip s = s → rstrip (lstrip s) = lstrip s.
Proof.
  induction s as [|c s IH]; [done|]. intros Hr. simpl.
  destruct (isspace c) eqn:Ec; [|done].
  apply IH. simpl in Hr. destruct (rstrip s) as [|c' r] eqn:Er.
  - rewrite Ec in Hr. done.
  - by injection Hr.
Qed.

Lemma strip_idem s : strip (strip s) = strip s.
Proof.
  unfold strip.
  rewrite (rstrip_lstrip (rstrip s)) by apply rstrip_idem.
  apply lstrip_idem.
Qed.

Lemma chars_lstrip s c : c ∈ chars (lstrip s) → c ∈ chars s.
Proof.
  unfold chars. induction s as [|x s IH]; [done|]. simpl.
  destruct (isspace x); [|done]. intros H. apply elem_of_cons. right. by apply IH.
Qed.

Lemma chars_rstrip s c : c ∈ chars (rstrip s) → c ∈ chars s.
Proof.
  unfold chars. induction s as [|x s IH]; [done|]. simpl.
  destruct (rstrip s) as [|c' r] eqn:Er.
  - destruct (isspace x); simpl.
    + by intros ?%elem_of_nil.
    + intros [->|?%elem_of_nil]%elem_of_cons; [by left | done].
  - simpl in *. intros [->|H]%elem_of_cons; [by left|].
    apply elem_of_cons. right. by apply IH.
Qed.

Lemma chars_strip s c : c ∈ chars (strip s) → c ∈ chars s.
Proof. intros H. by apply chars_rstrip, chars_lstrip. Qed.

Lemma split_nonempty sep s : split sep s ≠ [].
Proof.
  induction s as [|c s IH]; [done|]. simpl.
  destruct (Ascii.eqb c sep); [done|]. by destruct (split sep s).
Qed.

(** No piece of a split holds the separator. *)
Lemma split_pieces sep s piece :
  piece ∈ split sep s → sep ∉ chars piece.
Proof.
  unfold chars. revert piece. induction s as [|c s IH]; intros piece; simpl.
  - intros ->%list_elem_of_singleton. apply not_elem_of_nil.
  - destruct (Ascii.eqb_spec c sep) as [->|Hne].
    + intros [->|H]%elem_of_cons; [apply not_elem_of_nil | by apply IH].
    + pose proof (split_nonempty sep s) as Hsplit.
      destruct (split sep s) as [|p ps]; [done|].
      intros [->|H]%elem_of_cons.
      * simpl. intros [?|?]%elem_of_cons; [done|].
        by apply (IH p); [left|].
      * apply IH. by right.
Qed.

Lemma split_no_separator sep s :
  sep ∉ chars s → split sep s = [s].
Proof.
  unfold chars. induction s as [|c s IH]; [done|]. simpl. intros Hn.
  apply not_elem_of_cons in Hn as [Hne Hn].
  destruct (Ascii.eqb_spec c sep); [done|]. by rewrite IH.
Qed.

Lemma split_app sep s1 s2 :
  sep ∉ chars s1 →
  split sep (s1 +:+ String sep s2) = s1 :: split sep s2.
Proof.
  unfold chars. induction s1 as [|c s1 IH]; simpl.
  - intros _. by rewrite Ascii.eqb_refl.
  - intros Hn. apply not_elem_of_cons in Hn as [Hne Hn].
    destruct (Ascii.eqb_spec c sep); [done|]. by rewrite IH.
Qed.

(** Splitting undoes joining: pieces that hold no separator, joined by
    it, split back into themselves. *)
Lemma split_join sep l :
  l ≠ [] → Forall (fun piece => sep ∉ chars piece) l →
  split sep (join (String sep EmptyString) l) = l.
Proof.
  induction l as [|x l IH]; [done|]. intros _ Hall.
  apply Forall_cons in Hall as [Hx Hall].
  destruct l as [|y l]; [by apply split_no_separator|].
  change (join (String sep EmptyString) (x :: y :: l))
    with (x +:+ String sep (join (String sep EmptyString) (y :: l))).
  rewrite split_app by done. f_equal. by apply IH.
Qed.

End PyStrFacts.

(** * Facts on the API keys *)

Module APIKeyAuthFacts.
Import APIKeyAuth.

(** The dict built by the loop of [_load_api_keys] from the keys it kept. *)
Lemma insert_keys_lookup (keys : list string) (acc : gmap string key_info) k :
  foldl (fun m key => <[key := client_info]> m) acc keys !! k
  = if decide (k ∈ keys) then Some client_info else acc !! k.
Proof.
  revert acc. induction keys as [|x keys IH]; intros acc; cbn [foldl].
  - destruct (decide (k ∈ [])) as [Hin|_]; [by apply elem_of_nil in Hin|done].
  - rewrite IH.
    destruct (decide (k ∈ keys)) as [Hin|Hnin],
             (decide (k ∈ x :: keys)) as [Hin'|Hnin']; try done.
    + exfalso. apply Hnin'. by right.
    + apply elem_of_cons in Hin' as [->|?]; [|done]. apply lookup_insert_eq.
    + rewrite lookup_insert_ne; [done|]. intros ->. apply Hnin'. by left.
Qed.

(** The loop returns exactly when no key it keeps is shorter than 16
    characters, and then the dict of the kept keys. *)
Lemma load_loop_returns pieces acc m :
  load_loop pieces acc = Returns m ↔
  Forall (fun key => (16 ≤ String.length key)%nat)
    (filter (fun key => key ≠ EmptyString) (PyStr.strip <$> pieces)) ∧
  m = foldl (fun m key => <[key := client_info]> m) acc
        (filter (fun key => key ≠ EmptyString) (PyStr.strip <$> pieces)).
Proof.
  revert acc. induction pieces as [|piece pieces IH]; intros acc.
  - simpl. split; [intros [= <-]; by split | by intros [_ ->]].
  - cbn [load_loop fmap list_fmap]. rewrite filter_cons.
    destruct (PyStr.strip piece) as [|c r] eqn:Ek.
    + cbn [PyStr.truthy]. rewrite decide_False by (by intros H; apply H).
      apply IH.
    + cbn [PyStr.truthy]. rewrite decide_True by done.
      destruct (Nat.ltb_spec (String.length (String c r)) 16) as [Hlt|Hge].
      * split; [done|]. intros [[Hlen _]%Forall_cons _]. lia.
      * rewrite IH, Forall_cons. cbn [foldl]. tauto.
Qed.

Lemma insert_keys_empty (keys : list string) :
  foldl (fun m key => <[key := client_info]> m) (∅ : gmap string key_info) keys
  = ∅ ↔ keys = [].
Proof.
  split; [|by intros ->]. intros Hm. destruct keys as [|k keys]; [done|].
  exfalso. assert (Hk : (∅ : gmap string key_info) !! k = Some client_info).
  { rewrite <- Hm, insert_keys_lookup. by rewrite decide_True by (by left). }
  by rewrite lookup_empty in Hk.
Qed.

Lemma configured_keys_empty_env : configured_keys EmptyString = [].
Proof. reflexivity. Qed.

(** [_load_api_keys] returns exactly when the variable configures a key
    and none shorter than 16 characters, and then the dict of the
    configured keys. *)
Lemma load_api_keys_returns env m :
  _load_api_keys env = Returns m ↔
  configured_keys env ≠ [] ∧
  Forall (fun key => (16 ≤ String.length key)%nat) (configured_keys env) ∧
  m = foldl (fun m key => <[key := client_info]> m) ∅ (configured_keys env).
Proof.
  unfold _load_api_keys, configured_keys.
  destruct env as [|c env];
    [cbn [PyStr.truthy]; split; [done | by intros [? _]]|].
  cbn [PyStr.truthy].
  set (pieces := PyStr.split "," (String c env)).
  pose proof (load_loop_returns pieces ∅) as Hloop.
  destruct (load_loop pieces ∅) as [m'|msg].
  - destruct (Hloop m') as [[Hall ->] _]; [done|].
    destruct (decide (foldl _ ∅ _ = ∅)) as [He|Hne].
    + apply insert_keys_empty in He. split; [done|]. by intros [? _].
    + split.
      * intros [= <-]. split; [|done]. intros He. apply Hne.
        by apply insert_keys_empty.
      * by intros (_ & _ & ->).
  - split; [done|]. intros (_ & Hall & ->).
    destruct (Hloop (foldl (fun m key => <[key := client_info]> m) ∅
                       (filter (fun key => key ≠ EmptyString)
                          (PyStr.strip <$> pieces)))) as [_ Hback].
    by specialize (Hback (conj Hall eq_refl)).
Qed.

Lemma configured_keys_spec env key :
  key ∈ configured_keys env →
  key ≠ EmptyString ∧ PyStr.strip key = key ∧ ","%char ∉ PyStr.chars key.
Proof.
  unfold configured_keys.
  intros [Hne (piece & -> & Hin)%list_elem_of_fmap]%list_elem_of_filter.
  split; [done|]. split; [apply PyStrFacts.strip_idem|].
  intros Hc. apply PyStrFacts.chars_strip in Hc.
  by apply (PyStrFacts.split_pieces _ _ _ Hin).
Qed.

Lemma is_valid_key_loaded env m key :
  _load_api_keys env = Returns m →
  is_valid_key m key = true ↔ ∃ k, key = Some k ∧ k ∈ configured_keys env.
Proof.
  intros (_ & _ & ->)%load_api_keys_returns.
  destruct key as [k|]; cbn [is_valid_key]; [|split; [done | by intros (? & ? & _)]].
  rewrite insert_keys_lookup.
  destruct (decide (k ∈ configured_keys env)) as [Hin|Hnin].
  - destruct (configured_keys_spec env k Hin) as [Hne _].
    destruct k; [done|]. cbn. split; [|done]. intros _. by eexists.
  - rewrite lookup_empty. destruct (PyStr.truthy k);
      (split; [done|]); by intros (? & [= <-] & ?).
Qed.

(** X14: when [_load_api_keys] returns, [is_valid_key] accepts exactly
    the keys that the variable configures (its comma-separated pieces,
    stripped, the empty ones left out), compared character by character;
    so every accepted key has at least 16 characters, no comma and no
    white space at either end, and [None] and the empty key are refused. *)
Theorem accepted_keys_are_the_configured_keys (env : string)
    (m : gmap string key_info) (key : option string) :
  _load_api_keys env = Returns m →
  (is_valid_key m key = true ↔ ∃ k, key = Some k ∧ k ∈ configured_keys env) ∧
  (is_valid_key m key = true →
   ∃ k, key = Some k ∧ (16 ≤ String.length k)%nat ∧
        PyStr.strip k = k ∧ ","%char ∉ PyStr.chars k) ∧
  is_valid_key m None = false ∧
  is_valid_key m (Some EmptyString) = false.
Proof.
  intros Hload. split; [by apply is_valid_key_loaded|]. split; [|done].
  intros (k & -> & Hin)%(is_valid_key_loaded env m key Hload).
  exists k. split; [done|].
  apply load_api_keys_returns in Hload as (_ & Hall & _).
  rewrite Forall_forall in Hall.
  destruct (configured_keys_spec env k Hin) as (_ & Hs & Hc).
  split; [by apply Hall | done].
Qed.

Lemma accepted_keys_are_the_configured_keys_witness :
  let env := " k-0123456789abcdef ,,key-ABCDEFGHIJKLMNOP," in
  let m : gmap string key_info :=
    <["key-ABCDEFGHIJKLMNOP" := client_info]>
      (<["k-0123456789abcdef" := client_info]> ∅) in
  let key := Some "k-0123456789abcdef" in
  (is_valid_key m key = true ↔ ∃ k, key = Some k ∧ k ∈ configured_keys env) ∧
  (is_valid_key m key = true →
   ∃ k, key = Some k ∧ (16 ≤ String.length k)%nat ∧
        PyStr.strip k = k ∧ ","%char ∉ PyStr.chars k) ∧
  is_valid_key m None = false ∧
  is_valid_key m (Some EmptyString) = false.
Proof.
  apply (accepted_keys_are_the_configured_keys
           " k-0123456789abcdef ,,key-ABCDEFGHIJKLMNOP,"
           (<["key-ABCDEFGHIJKLMNOP" := client_info]>
              (<["k-0123456789abcdef" := client_info]> ∅))
           (Some "k-0123456789abcdef")).
  by vm_compute.
Defined.

Lemma load_api_keys_succeeds_iff_aux env :
  (∃ m, _load_api_keys env = Returns m) ↔
  configured_keys env ≠ [] ∧
  Forall (fun key => (16 ≤ String.length key)%nat) (configured_keys env).
Proof.
  split.
  - intros [m (Hne & Hall & _)%load_api_keys_returns]. by split.
  - intros [Hne Hall]. eexists. apply load_api_keys_returns. by repeat split.
Qed.

(** X15: [_load_api_keys] returns a dict exactly when the variable
    configures at least one key and no key shorter than 16 characters; in
    every other case (the variable unset or empty, only commas and white
    space, one key too short) it raises [ValueError]. *)
Theorem load_api_keys_succeeds_iff (env : string) :
  (∃ m, _load_api_keys env = Returns m) ↔
  configured_keys env ≠ [] ∧
  Forall (fun key => (16 ≤ String.length key)%nat) (configured_keys env).
Proof. apply load_api_keys_succeeds_iff_aux. Qed.

Lemma configured_keys_join keys :
  Forall (fun k => (16 ≤ String.length k)%nat ∧ PyStr.strip k = k
                   ∧ ","%char ∉ PyStr.chars k) keys →
  keys ≠ [] →
  configured_keys (PyStr.join "," keys) = keys.
Proof.
  intros Hall Hne. unfold configured_keys.
  rewrite PyStrFacts.split_join; [|done|].
  - clear Hne. induction Hall as [|k keys (Hlen & Hs & _) _ IH]; [done|].
    cbn [fmap list_fmap]. rewrite filter_cons, Hs.
    rewrite decide_True; [by f_equal|]. intros ->. simpl in Hlen. lia.
  - eapply Forall_impl; [done|]. by intros k (_ & _ & ?).
Qed.

(** X16: a non-empty list of keys, each of at least 16 characters,
    without a comma and without white space at either end, written to
    the variable joined by commas, is read back by [_load_api_keys] as
    exactly these keys: [is_valid_key] accepts each of them and nothing
    else. *)
Theorem configured_keys_round_trip (keys : list string) :
  keys ≠ [] →
  Forall (fun k => (16 ≤ String.length k)%nat ∧ PyStr.strip k = k
                   ∧ ","%char ∉ PyStr.chars k) keys →
  ∃ m,
    _load_api_keys (PyStr.join "," keys) = Returns m ∧
    ∀ key, is_valid_key m key = true ↔ ∃ k, key = Some k ∧ k ∈ keys.
Proof.
  intros Hne Hall.
  pose proof (configured_keys_join keys Hall Hne) as Hkeys.
  destruct (proj2 (load_api_keys_succeeds_iff_aux (PyStr.join "," keys)))
    as [m Hm].
  - rewrite Hkeys. split; [done|].
    eapply Forall_impl; [done|]. by intros k (? & _).
  - exists m. split; [done|]. intros key.
    rewrite (is_valid_key_loaded _ _ _ Hm). by rewrite Hkeys.
Qed.

Lemma configured_keys_round_trip_witness :
  ∃ m,
    _load_api_keys
      (PyStr.join "," ["k-0123456789abcdef"; "key-ABCDEFGHIJKLMNOP"])
    = Returns m ∧
    ∀ key,
      is_valid_key m key = true ↔
      ∃ k, key = Some k ∧ k ∈ ["k-0123456789abcdef"; "key-ABCDEFGHIJKLMNOP"].
Proof.
  apply (configured_keys_round_trip
           ["k-0123456789abcdef"; "key-ABCDEFGHIJKLMNOP"]).
  - done.
  - repeat constructor; try (simpl; lia);
      apply (bool_decide_unpack _); by vm_compute.
Defined.

End APIKeyAuthFacts.

(** * Facts on the regular expressions *)

Module RegexFacts.
Import Regex.

Lemma app_cons c s t : String c s +:+ t = String c (s +:+ t).
Proof. reflexivity. Qed.

Lemma app_nil_l s : EmptyString +:+ s = s.
Proof. reflexivity. Qed.

Lemma app_nil_r s : s +:+ EmptyString = s.
Proof. induction s as [|c s IH]; [done|]. by rewrite app_cons, IH. Qed.

Lemma app_assoc s1 s2 s3 : (s1 +:+ s2) +:+ s3 = s1 +:+ s2 +:+ s3.
Proof. induction s1 as [|c s1 IH]; [done|]. by rewrite !app_cons, IH. Qed.

Lemma app_eq_nil s1 s2 :
  s1 +:+ s2 = EmptyString → s1 = EmptyString ∧ s2 = EmptyString.
Proof. destruct s1; [done|]. by rewrite app_cons. Qed.

Lemma chars_app s1 s2 :
  PyStr.chars (s1 +:+ s2) = PyStr.chars s1 ++ PyStr.chars s2.
Proof.
  unfold PyStr.chars. induction s1 as [|c s1 IH]; [done|].
  rewrite app_cons. simpl. by rewrite IH.
Qed.

(** ** Inversion of [lang] *)

Lemma lang_void_inv s : lang Void s → False.
Proof. inversion 1. Qed.

Lemma lang_eps_inv s : lang Eps s → s = EmptyString.
Proof. by inversion 1. Qed.

Lemma lang_class_inv p s :
  lang (Class p) s → ∃ c, s = String c EmptyString ∧ p c = true.
Proof. inversion 1; subst. by eexists. Qed.

Lemma lang_cat_inv r1 r2 s :
  lang (Cat r1 r2) s → ∃ s1 s2, s = s1 +:+ s2 ∧ lang r1 s1 ∧ lang r2 s2.
Proof. inversion 1; subst. by eexists _, _. Qed.

Lemma lang_alt_inv r1 r2 s : lang (Alt r1 r2) s → lang r1 s ∨ lang r2 s.
Proof. inversion 1; subst; auto. Qed.

Lemma lang_star_inv r s :
  lang (Star r) s →
  s = EmptyString ∨ ∃ s1 s2, s = s1 +:+ s2 ∧ lang r s1 ∧ lang (Star r) s2.
Proof. inversion 1; subst; [by left|]. right. by eexists _, _. Qed.

Lemma lang_star_cons_inv_gen r' w :
  lang r' w →
  ∀ r c s, r' = Star r → w = String c s →
    ∃ s1 s2, s = s1 +:+ s2 ∧ lang r (String c s1) ∧ lang (Star r) s2.
Proof.
  induction 1 as [| | | | | |r0 s1 s2 H1 _ H2 IH2]; intros r' a t Er Ew;
    try discriminate.
  injection Er as ->. destruct s1 as [|c1 s1].
  - rewrite app_nil_l in Ew. by apply IH2.
  - rewrite app_cons in Ew. injection Ew as -> <-. by exists s1, s2.
Qed.

(** A non-empty match of [Star r] starts with a non-empty match of [r]. *)
Lemma lang_star_cons_inv r c s :
  lang (Star r) (String c s) →
  ∃ s1 s2, s = s1 +:+ s2 ∧ lang r (String c s1) ∧ lang (Star r) s2.
Proof. intros H. by apply (lang_star_cons_inv_gen _ _ H). Qed.

(** ** The matcher decides [lang] *)

Lemma nullable_spec r : nullable r = true ↔ lang r EmptyString.
Proof.
  induction r as [| |p|r1 IH1 r2 IH2|r1 IH1 r2 IH2|r IH]; simpl.
  - split; [done|]. by intros ?%lang_void_inv.
  - split; [constructor | done].
  - split; [done|]. by intros (c & [=] & _)%lang_class_inv.
  - rewrite andb_true_iff, IH1, IH2. split.
    + intros [H1 H2]. by apply (lang_cat _ _ EmptyString EmptyString).
    + intros (s1 & s2 & Hs & H1 & H2)%lang_cat_inv.
      symmetry in Hs. by apply app_eq_nil in Hs as [-> ->].
  - rewrite orb_true_iff, IH1, IH2. split.
    + intros [?|?]; [by apply lang_alt_l | by apply lang_alt_r].
    + apply lang_alt_inv.
  - split; [constructor | done].
Qed.

Lemma deriv_spec r c s : lang (deriv c r) s ↔ lang r (String c s).
Proof.
  revert s.
  induction r as [| |p|r1 IH1 r2 IH2|r1 IH1 r2 IH2|r IH]; intros s; simpl.
  - split; by intros ?%lang_void_inv.
  - split; [by intros ?%lang_void_inv | by intros [=]%lang_eps_inv].
  - destruct (p c) eqn:Ep; split.
    + intros ->%lang_eps_inv. by constructor.
    + intros (c' & [= <- ->] & _)%lang_class_inv. constructor.
    + by intros ?%lang_void_inv.
    + intros (c' & [= <- ->] & Hp)%lang_class_inv. congruence.
  - assert (Hcat : lang (Cat (deriv c r1) r2) s →
                   lang (Cat r1 r2) (String c s)).
    { intros (s1 & s2 & -> & H1 & H2)%lang_cat_inv.
      apply IH1 in H1. by apply (lang_cat _ _ (String c s1) s2). }
    assert (Hinv : lang (Cat r1 r2) (String c s) →
                   lang (Cat (deriv c r1) r2) s ∨
                   (lang r1 EmptyString ∧ lang (deriv c r2) s)).
    { intros (s1 & s2 & Hs & H1 & H2)%lang_cat_inv.
      destruct s1 as [|c1 s1].
      - rewrite app_nil_l in Hs. right. subst s2. split; [done|]. by apply IH2.
      - rewrite app_cons in Hs. injection Hs as <- ->. left.
        apply lang_cat; [|done]. by apply IH1. }
    destruct (nullable r1) eqn:En; split.
    + intros [H|H]%lang_alt_inv; [by apply Hcat|].
      apply IH2 in H. apply nullable_spec in En.
      by apply (lang_cat _ _ EmptyString (String c s)).
    + intros [H|[_ H]]%Hinv; [by apply lang_alt_l | by apply lang_alt_r].
    + apply Hcat.
    + intros [H|[H _]]%Hinv; [done|].
      apply nullable_spec in H. congruence.
  - split.
    + intros [H|H]%lang_alt_inv;
        [apply lang_alt_l; by apply IH1 | apply lang_alt_r; by apply IH2].
    + intros [H|H]%lang_alt_inv;
        [apply lang_alt_l; by apply IH1 | apply lang_alt_r; by apply IH2].
  - split.
    + intros (s1 & s2 & -> & H1 & H2)%lang_cat_inv.
      apply IH in H1. by apply (lang_star_cons _ (String c s1) s2).
    + intros (s1 & s2 & -> & H1 & H2)%lang_star_cons_inv.
      apply lang_cat; [|done]. by apply IH.
Qed.

Lemma matches_spec r s : matches r s = true ↔ lang r s.
Proof.
  revert r. induction s as [|c s IH]; intros r; simpl.
  - apply nullable_spec.
  - rewrite IH. apply deriv_spec.
Qed.

(** ** What the derived patterns stand for *)

Lemma lang_cat_iff r1 r2 s :
  lang (Cat r1 r2) s ↔ ∃ s1 s2, s = s1 +:+ s2 ∧ lang r1 s1 ∧ lang r2 s2.
Proof.
  split; [apply lang_cat_inv|]. intros (s1 & s2 & -> & H1 & H2).
  by apply lang_cat.
Qed.

Lemma lang_class_iff p s :
  lang (Class p) s ↔ ∃ c, s = String c EmptyString ∧ p c = true.
Proof.
  split; [apply lang_class_inv|]. intros (c & -> & Hp). by constructor.
Qed.

Lemma lang_chr c s : lang (chr c) s ↔ s = String c EmptyString.
Proof.
  unfold chr. rewrite lang_class_iff. split.
  - by intros (c' & -> & ->%Ascii.eqb_eq).
  - intros ->. exists c. by rewrite Ascii.eqb_refl.
Qed.

Lemma lang_lit w s : lang (lit w) s ↔ s = w.
Proof.
  revert s. induction w as [|c w IH]; intros s; cbn [lit].
  - split; [apply lang_eps_inv | intros ->; constructor].
  - rewrite lang_cat_iff. split.
    + intros (s1 & s2 & -> & ->%lang_chr & ->%IH). done.
    + intros ->. exists (String c EmptyString), w.
      split; [done|]. split; [by apply lang_chr | by apply IH].
Qed.

Lemma lang_star_class_gen r w :
  lang r w → ∀ p, r = Star (Class p) →
  Forall (fun c => p c = true) (PyStr.chars w).
Proof.
  induction 1 as [| | | | | |r0 s1 s2 H1 _ H2 IH2]; intros q Er;
    try discriminate.
  - constructor.
  - injection Er as ->. apply lang_class_inv in H1 as (c & -> & Hc).
    rewrite app_cons, app_nil_l. constructor; [done|]. by apply IH2.
Qed.

Lemma lang_star_class p s :
  lang (Star (Class p)) s ↔ Forall (fun c => p c = true) (PyStr.chars s).
Proof.
  split; [intros H; by apply (lang_star_class_gen _ _ H)|].
  induction s as [|c s IH]; intros Hall; [constructor|].
  apply Forall_cons in Hall as [Hc Hall].
  apply (lang_star_cons _ (String c EmptyString) s); [by constructor|].
  by apply IH.
Qed.

Lemma lang_plus_class p s :
  lang (plus (Class p)) s ↔
  s ≠ EmptyString ∧ Forall (fun c => p c = true) (PyStr.chars s).
Proof.
  unfold plus. rewrite lang_cat_iff. split.
  - intros (s1 & s2 & -> & (c & -> & Hc)%lang_class_inv & H2%lang_star_class).
    split; [done|]. by constructor.
  - intros [Hne Hall]. destruct s as [|c s]; [done|].
    apply Forall_cons in Hall as [Hc Hall].
    exists (String c EmptyString), s. split; [done|].
    split; [by constructor | by apply lang_star_class].
Qed.

Lemma lang_two_or_more_class p s :
  lang (two_or_more (Class p)) s ↔
  (2 ≤ String.length s)%nat ∧ Forall (fun c => p c = true) (PyStr.chars s).
Proof.
  unfold two_or_more. rewrite lang_cat_iff. split.
  - intros (s1 & s2 & -> & (c & -> & Hc)%lang_class_inv
            & (s3 & s4 & -> & (c' & -> & Hc')%lang_class_inv
               & H2%lang_star_class)%lang_cat_inv).
    split; [simpl; lia|]. by repeat constructor.
  - intros [Hlen Hall]. destruct s as [|c [|c' s]]; try (simpl in Hlen; lia).
    apply Forall_cons in Hall as [Hc [Hc' Hall]%Forall_cons].
    exists (String c EmptyString), (String c' s). split; [done|].
    split; [by constructor|]. apply lang_cat_iff.
    exists (String c' EmptyString), s. split; [done|].
    split; [by constructor | by apply lang_star_class].
Qed.

Lemma lang_opt_chr c s :
  lang (opt (chr c)) s ↔ s = EmptyString ∨ s = String c EmptyString.
Proof.
  unfold opt. split.
  - intros [->%lang_eps_inv| ->%lang_chr]%lang_alt_inv; auto.
  - intros [->| ->]; [apply lang_alt_l; constructor|].
    apply lang_alt_r. by apply lang_chr.
Qed.

Lemma lang_anything s : lang anything s.
Proof. apply lang_star_class. by apply Forall_forall. Qed.

(** [match_to_end]: a match of the whole string, or of the string
    without the newline that ends it. *)
Lemma match_to_end_spec r s :
  match_to_end r s = true ↔
  lang r s ∨ ∃ s', s = s' +:+ nl ∧ lang r s'.
Proof.
  unfold match_to_end. rewrite orb_true_iff, !matches_spec, lang_cat_iff.
  split; (intros [H|H]; [by left|right]).
  - destruct H as (s1 & s2 & -> & H1 & ->%lang_chr). by exists s1.
  - destruct H as (s' & -> & H1). exists s', (nl).
    split; [done|]. split; [done | by apply lang_chr].
Qed.

(** [search]: a match somewhere in the string. *)
Lemma search_spec r s :
  search r s = true ↔
  ∃ before m after, s = before +:+ m +:+ after ∧ lang r m.
Proof.
  unfold search. rewrite matches_spec, lang_cat_iff. split.
  - intros (s1 & s2 & -> & _ & (m & s3 & -> & Hm & _)%lang_cat_inv).
    by exists s1, m, s3.
  - intros (before & m & after & -> & Hm).
    exists before, (m +:+ after). split; [done|].
    split; [apply lang_anything|]. apply lang_cat; [done|apply lang_anything].
Qed.

End RegexFacts.

(** * Facts on the validation of strings *)

Module ValidationFacts.
Import Regex Validation RegexFacts.

Lemma lang_email_pattern s : lang email_pattern s ↔ email_shape s.
Proof.
  unfold email_pattern, email_shape.
  rewrite lang_cat_iff. setoid_rewrite lang_plus_class.
  setoid_rewrite lang_cat_iff. setoid_rewrite lang_chr.
  setoid_rewrite lang_cat_iff. setoid_rewrite lang_plus_class.
  setoid_rewrite lang_cat_iff. setoid_rewrite lang_chr.
  setoid_rewrite lang_two_or_more_class.
  split.
  - intros (l & ? & -> & [Hl1 Hl2] & ? & ? & -> & -> & d & ? & -> & [Hd1 Hd2]
            & ? & tld & -> & -> & Ht1 & Ht2).
    by exists l, d, tld.
  - intros (l & d & tld & -> & Hl1 & Hl2 & Hd1 & Hd2 & Ht1 & Ht2).
    exists l, ("@" +:+ d +:+ "." +:+ tld). repeat split; try done.
    exists "@", (d +:+ "." +:+ tld). repeat split; try done.
    exists d, ("." +:+ tld). repeat split; try done.
    exists ".", tld. by repeat split.
Qed.

Lemma email_shape_nonempty s : email_shape s → s ≠ EmptyString.
Proof.
  intros (l & d & tld & -> & Hl & _). destruct l as [|c l]; [done|].
  by rewrite app_cons.
Qed.

Lemma app_nl_nonempty s : s +:+ nl ≠ EmptyString.
Proof. destruct s; [done|]. by rewrite app_cons. Qed.

Lemma validate_email_iff s :
  validate_email s = true ↔
  email_shape s ∨ ∃ s', s = s' +:+ nl ∧ email_shape s'.
Proof.
  unfold validate_email.
  rewrite andb_true_iff, match_to_end_spec, PyStrFacts.truthy_nonempty.
  setoid_rewrite lang_email_pattern. split; [by intros [_ ?]|].
  intros H. split; [|done].
  destruct H as [H|(s' & -> & _)];
    [by apply email_shape_nonempty | apply app_nl_nonempty].
Qed.

(** X17: [validate_email] accepts exactly the strings
    [local@domain.tld], with [local] a non-empty run of letters, digits
    and [._%+-], [domain] a non-empty run of letters, digits and [.-],
    [tld] two letters or more, and these strings followed by one
    newline. *)
Theorem validate_email_accepts_iff (s : string) :
  validate_email s = true ↔
  email_shape s ∨ ∃ s', s = s' +:+ nl ∧ email_shape s'.
Proof. apply validate_email_iff. Qed.

Lemma domain_char_local c : domain_char c = true → local_char c = true.
Proof.
  unfold domain_char, local_char. cbn [one_of].
  rewrite !orb_true_iff. intros [?|[?|[?|?]]]; auto 10.
Qed.

Lemma is_alpha_local c : is_alpha c = true → local_char c = true.
Proof.
  unfold local_char, is_alnum. intros ->. done.
Qed.

Lemma filter_at_nil (p : ascii → bool) (l : list ascii) :
  p "@"%char = false → Forall (fun c => p c = true) l →
  filter (fun c => c = "@"%char) l = [].
Proof.
  intros Hp. induction 1 as [|c l Hc _ IH]; [done|].
  rewrite filter_cons, IH. rewrite decide_False; [done|].
  intros ->. congruence.
Qed.

Lemma email_shape_chars s :
  email_shape s →
  Forall (fun c => local_char c = true ∨ c = "@"%char) (PyStr.chars s) ∧
  length (filter (fun c => c = "@"%char) (PyStr.chars s)) = 1%nat.
Proof.
  intros (l & d & tld & -> & _ & Hl & _ & Hd & _ & Ht).
  rewrite !chars_app.
  change (PyStr.chars "@") with ["@"%char].
  change (PyStr.chars ".") with ["."%char].
  split.
  - repeat (apply Forall_app; split).
    + eapply Forall_impl; [done|]. by left.
    + apply Forall_singleton. by right.
    + eapply Forall_impl; [done|]. intros c Hc. left. by apply domain_char_local.
    + apply Forall_singleton. by left.
    + eapply Forall_impl; [done|]. intros c Hc. left. by apply is_alpha_local.
  - rewrite !filter_app, !length_app.
    rewrite (filter_at_nil local_char (PyStr.chars l)),
      (filter_at_nil domain_char (PyStr.chars d)),
      (filter_at_nil is_alpha (PyStr.chars tld)) by done.
    done.
Qed.

(** X18: an address that [validate_email] accepts is made, up to one
    newline that may end it, of letters, digits, the characters
    [._%+-] and exactly one [@]; and an accepted address that does not
    end in a newline is accepted with a newline added to it. *)
Theorem accepted_email_characters (s : string) :
  validate_email s = true →
  (∃ body,
     (s = body ∨ s = body +:+ nl) ∧
     Forall (fun c => local_char c = true ∨ c = "@"%char) (PyStr.chars body) ∧
     length (filter (fun c => c = "@"%char) (PyStr.chars body)) = 1%nat) ∧
  ((∀ s', s ≠ s' +:+ nl) →
   validate_email (s +:+ nl) = true).
Proof.
  intros [H|(s' & -> & H)]%validate_email_iff.
  - split.
    + exists s. split; [by left|]. by apply email_shape_chars.
    + intros _. apply validate_email_iff. right. by exists s.
  - split.
    + exists s'. split; [by right|]. by apply email_shape_chars.
    + intros Hno. by destruct (Hno s').
Qed.

Lemma accepted_email_characters_witness :
  (∃ body,
     ("jo.doe+x@mail.example.org" = body
      ∨ "jo.doe+x@mail.example.org" = body +:+ nl) ∧
     Forall (fun c => local_char c = true ∨ c = "@"%char) (PyStr.chars body) ∧
     length (filter (fun c => c = "@"%char) (PyStr.chars body)) = 1%nat) ∧
  ((∀ s', "jo.doe+x@mail.example.org" ≠ s' +:+ nl) →
   validate_email ("jo.doe+x@mail.example.org" +:+ nl)
   = true).
Proof.
  apply (accepted_email_characters "jo.doe+x@mail.example.org").
  by vm_compute.
Defined.

Lemma lang_url_pattern s : lang url_pattern s ↔ url_shape s.
Proof.
  unfold url_pattern, url_shape.
  rewrite lang_cat_iff. setoid_rewrite lang_lit.
  setoid_rewrite lang_cat_iff. setoid_rewrite lang_opt_chr.
  setoid_rewrite lang_cat_iff. setoid_rewrite lang_lit.
  setoid_rewrite lang_cat_iff. setoid_rewrite lang_class_iff.
  setoid_rewrite lang_cat_iff. setoid_rewrite lang_class_iff.
  setoid_rewrite lang_star_class.
  split.
  - intros (? & ? & -> & -> & ? & ? & -> & Hs & ? & ? & -> & -> & ? & ?
            & -> & (c1 & -> & H1) & ? & rest & -> & (c2 & -> & H2) & Hr).
    destruct Hs as [->| ->].
    + exists "http://", c1, c2, rest. by repeat split; auto.
    + exists "https://", c1, c2, rest. by repeat split; auto.
  - intros (scheme & c1 & c2 & rest & -> & Hs & H1 & H2 & Hr).
    exists "http".
    exists ((if decide (scheme = "http://") then "" else "s")
              +:+ "://" +:+ String c1 (String c2 rest)).
    split; [destruct Hs as [->| ->]; done|]. split; [done|].
    exists (if decide (scheme = "http://") then "" else "s"),
      ("://" +:+ String c1 (String c2 rest)).
    split; [done|]. split; [destruct Hs as [->| ->]; auto|].
    exists "://", (String c1 (String c2 rest)). split; [done|]. split; [done|].
    exists (String c1 EmptyString), (String c2 rest). split; [done|].
    split; [by exists c1|].
    exists (String c2 EmptyString), rest. split; [done|].
    split; [by exists c2 | done].
Qed.

Lemma url_shape_nonempty s : url_shape s → s ≠ EmptyString.
Proof. by intros (scheme & c1 & c2 & rest & -> & [->| ->] & _). Qed.

Lemma validate_url_iff s :
  _validate_url s = true ↔
  url_shape s ∨ ∃ s', s = s' +:+ nl ∧ url_shape s'.
Proof.
  unfold _validate_url.
  rewrite andb_true_iff, match_to_end_spec, PyStrFacts.truthy_nonempty.
  setoid_rewrite lang_url_pattern. split; [by intros [_ ?]|].
  intros H. split; [|done].
  destruct H as [H|(s' & -> & _)];
    [by apply url_shape_nonempty | apply app_nl_nonempty].
Qed.

(** X19: [_validate_url] accepts exactly the strings made of [http://]
    or [https://], one character that is neither white space nor one of
    [/$.?#], one character that is not a newline (a blank is accepted
    there), and any run of characters that are not white space, and
    these strings followed by one newline; so nothing with fewer than
    two characters after the scheme is accepted. *)
Theorem validate_url_accepts_iff (s : string) :
  _validate_url s = true ↔
  url_shape s ∨ ∃ s', s = s' +:+ nl ∧ url_shape s'.
Proof. apply validate_url_iff. Qed.

(** ** Suspicious content *)

Lemma lower_app a b : lower (a +:+ b) = lower a +:+ lower b.
Proof.
  induction a as [|c a IH]; [done|]. rewrite app_cons. cbn [lower].
  by rewrite app_cons, IH.
Qed.

Lemma search_contains r t :
  search r t = true ↔ ∃ m, lang r m ∧ contains m t.
Proof.
  rewrite search_spec. unfold contains. split.
  - intros (b & m & a & -> & Hm). exists m. split; [done|]. by exists b, a.
  - intros (m & Hm & b & a & ->). by exists b, m, a.
Qed.

Lemma search_lit w t : search (lit w) t = true ↔ contains w t.
Proof.
  rewrite search_contains. setoid_rewrite lang_lit. split.
  - by intros (m & -> & H).
  - intros H. by exists w.
Qed.

(** The lower-case form of a character is in lower case. *)
Lemma lower_char_idem c : lower_char (lower_char c) = lower_char c.
Proof.
  destruct c as [[] [] [] [] [] [] [] []]; reflexivity.
Qed.

Lemma lower_idem s : lower (lower s) = lower s.
Proof.
  induction s as [|c s IH]; [done|]. simpl. by rewrite lower_char_idem, IH.
Qed.

(** What [re.IGNORECASE] does to the characters of the patterns that have
    no case and to their classes: nothing. *)
Lemma ignorecase_uncased c t :
  one_of "<>:=(." c = true →
  Ascii.eqb (lower_char t) c = Ascii.eqb t c.
Proof.
  intros Hc. destruct (Ascii.eqb_spec t c) as [->|Hne].
  - apply Ascii.eqb_eq. revert Hc.
    destruct c as [[] [] [] [] [] [] [] []]; by vm_compute.
  - apply Ascii.eqb_neq. intros <-. revert Hc Hne.
    destruct t as [[] [] [] [] [] [] [] []]; by vm_compute.
Qed.

Lemma ignorecase_classes t :
  not_gt (lower_char t) = not_gt t
  ∧ is_word (lower_char t) = is_word t
  ∧ PyStr.isspace (lower_char t) = PyStr.isspace t.
Proof.
  destruct t as [[] [] [] [] [] [] [] []]; by vm_compute.
Qed.

Lemma nullable_ignorecase r : nullable (ignorecase r) = nullable r.
Proof.
  induction r as [| |p|r1 IH1 r2 IH2|r1 IH1 r2 IH2|r1 IH1];
    cbn [ignorecase nullable]; congruence.
Qed.

Lemma deriv_ignorecase c r :
  deriv c (ignorecase r) = ignorecase (deriv (lower_char c) r).
Proof.
  induction r as [| |p|r1 IH1 r2 IH2|r1 IH1 r2 IH2|r1 IH1];
    cbn [ignorecase deriv].
  - done.
  - done.
  - by destruct (p (lower_char c)).
  - rewrite nullable_ignorecase, IH1, IH2. by destruct (nullable r1).
  - by rewrite IH1, IH2.
  - by rewrite IH1.
Qed.

(** A pattern under [re.IGNORECASE] matches a text exactly when the
    pattern matches the lower-case form of the text. *)
Lemma matches_ignorecase r s : matches (ignorecase r) s = matches r (lower s).
Proof.
  revert r. induction s as [|c s IH]; intros r; cbn [matches lower].
  - apply nullable_ignorecase.
  - by rewrite deriv_ignorecase, IH.
Qed.

(** On a text in lower case the flag changes nothing. *)
Lemma search_ignorecase_lower r s :
  search (ignorecase r) (lower s) = search r (lower s).
Proof.
  unfold search.
  change (Cat anything (Cat (ignorecase r) anything))
    with (ignorecase (Cat anything (Cat r anything))).
  by rewrite matches_ignorecase, lower_idem.
Qed.

Lemma contains_suspicious_iff content :
  _contains_suspicious_content content = true ↔
  suspicious_text (lower content).
Proof.
  unfold _contains_suspicious_content, suspicious_patterns, suspicious_text.
  cbv zeta. cbn [existsb]. rewrite !search_ignorecase_lower.
  rewrite orb_false_r, !orb_true_iff. rewrite !search_lit.
  rewrite !search_contains.
  assert (H1 : (∃ m, lang (Cat (lit "<script")
                    (Cat (Star (Class not_gt)) (chr ">"))) m
                   ∧ contains m (lower content)) ↔
               (∃ attrs, Forall (fun c => not_gt c = true) (PyStr.chars attrs)
                   ∧ contains ("<script" +:+ attrs +:+ ">") (lower content))).
  { setoid_rewrite lang_cat_iff. setoid_rewrite lang_lit.
    setoid_rewrite lang_cat_iff. setoid_rewrite lang_star_class.
    setoid_rewrite lang_chr. split.
    - intros (? & (? & ? & -> & -> & attrs & ? & -> & Ha & ->) & Hc).
      by exists attrs.
    - intros (attrs & Ha & Hc). eexists. split; [|exact Hc].
      eexists _, _. split; [done|]. split; [done|]. by eexists _, _. }
  assert (H3 : (∃ m, lang (Cat (lit "on") (Cat (plus (Class is_word))
                       (Cat (Star (Class PyStr.isspace)) (chr "=")))) m
                   ∧ contains m (lower content)) ↔
               (∃ word blanks, word ≠ EmptyString ∧
                   Forall (fun c => is_word c = true) (PyStr.chars word) ∧
                   Forall (fun c => PyStr.isspace c = true) (PyStr.chars blanks) ∧
                   contains ("on" +:+ word +:+ blanks +:+ "=") (lower content))).
  { setoid_rewrite lang_cat_iff. setoid_rewrite lang_lit.
    setoid_rewrite lang_cat_iff. setoid_rewrite lang_plus_class.
    setoid_rewrite lang_cat_iff. setoid_rewrite lang_star_class.
    setoid_rewrite lang_chr. split.
    - intros (? & (? & ? & -> & -> & word & ? & -> & [Hw1 Hw2]
                   & blanks & ? & -> & Hb & ->) & Hc).
      by exists word, blanks.
    - intros (word & blanks & Hw1 & Hw2 & Hb & Hc).
      eexists. split; [|exact Hc].
      eexists _, _. split; [done|]. split; [done|].
      eexists _, _. split; [done|]. split; [done|]. by eexists _, _. }
  assert (H4 : (∃ m, lang (Cat (lit "eval")
                       (Cat (Star (Class PyStr.isspace)) (chr "("))) m
                   ∧ contains m (lower content)) ↔
               (∃ blanks,
                   Forall (fun c => PyStr.isspace c = true) (PyStr.chars blanks) ∧
                   contains ("eval" +:+ blanks +:+ "(") (lower content))).
  { setoid_rewrite lang_cat_iff. setoid_rewrite lang_lit.
    setoid_rewrite lang_cat_iff. setoid_rewrite lang_star_class.
    setoid_rewrite lang_chr. split.
    - intros (? & (? & ? & -> & -> & blanks & ? & -> & Hb & ->) & Hc).
      by exists blanks.
    - intros (blanks & Hb & Hc). eexists. split; [|exact Hc].
      eexists _, _. split; [done|]. split; [done|]. by eexists _, _. }
  rewrite H1, H3, H4. tauto.
Qed.

(** X20: [_contains_suspicious_content] flags a content whose characters
    are below U+0100 (a [string] here) exactly when its
    lower-case form holds [<script], any characters but [>], and [>];
    or [javascript:]; or [on], one word character or more, any white
    space, and [=]; or [eval], any white space, and [(]; or [document.],
    [window.], [<iframe], [<object] or [<embed]. *)
Theorem suspicious_content_iff (content : string) :
  _contains_suspicious_content content = true ↔
  suspicious_text (lower content).
Proof. apply contains_suspicious_iff. Qed.

Lemma contains_extend w t a b : contains w t → contains w (a +:+ t +:+ b).
Proof.
  intros (x & y & ->). exists (a +:+ x), (y +:+ b).
  by rewrite !app_assoc.
Qed.

(** X21: a flagged content stays flagged inside any longer content:
    text added before or after it hides nothing. *)
Theorem suspicious_content_in_context (content before after : string) :
  _contains_suspicious_content content = true →
  _contains_suspicious_content (before +:+ content +:+ after) = true.
Proof.
  rewrite !contains_suspicious_iff, !lower_app. unfold suspicious_text.
  intros H.
  repeat (destruct H as [H|H]; [|right]);
    try (left; by apply contains_extend);
    try by apply contains_extend.
  - left. destruct H as (attrs & Ha & Hc). exists attrs.
    split; [done | by apply contains_extend].
  - left. destruct H as (word & blanks & Hw1 & Hw2 & Hb & Hc).
    exists word, blanks. repeat split; try done. by apply contains_extend.
  - left. destruct H as (blanks & Hb & Hc). exists blanks.
    split; [done | by apply contains_extend].
Qed.

Lemma suspicious_content_in_context_witness :
  _contains_suspicious_content
    ("Dear team, " +:+ "<IMG SRC=x OnError = go>" +:+ " thanks") = true.
Proof.
  apply (suspicious_content_in_context "<IMG SRC=x OnError = go>"
           "Dear team, " " thanks").
  by vm_compute.
Defined.

Lemma lower_char_special c :
  one_of "<:=(." (lower_char c) = true → one_of "<:=(." c = true.
Proof. destruct c as [[] [] [] [] [] [] [] []]; by vm_compute. Qed.

Lemma chars_lower s : PyStr.chars (lower s) = lower_char <$> PyStr.chars s.
Proof.
  unfold PyStr.chars. induction s as [|c s IH]; [done|].
  simpl. by rewrite IH.
Qed.

Lemma contains_chars w t x :
  contains w t → x ∈ PyStr.chars w → x ∈ PyStr.chars t.
Proof.
  intros (b & a & ->) Hx. rewrite !chars_app. set_solver.
Qed.

(** Each of the nine patterns asks for one of the characters [<:=(.]. *)
Lemma suspicious_text_special t :
  suspicious_text t →
  ∃ x, one_of "<:=(." x = true ∧ x ∈ PyStr.chars t.
Proof.
  unfold suspicious_text. intros H.
  repeat (destruct H as [H|H]).
  - destruct H as (attrs & _ & Hc). exists "<"%char. split; [done|].
    apply (contains_chars _ _ _ Hc). rewrite chars_app. by left.
  - exists ":"%char. split; [done|]. apply (contains_chars _ _ _ H).
    apply (bool_decide_unpack _). by vm_compute.
  - destruct H as (word & blanks & _ & _ & _ & Hc).
    exists "="%char. split; [done|]. apply (contains_chars _ _ _ Hc).
    rewrite !chars_app. set_solver.
  - destruct H as (blanks & _ & Hc).
    exists "("%char. split; [done|]. apply (contains_chars _ _ _ Hc).
    rewrite !chars_app. set_solver.
  - exists "."%char. split; [done|]. apply (contains_chars _ _ _ H).
    apply (bool_decide_unpack _). by vm_compute.
  - exists "."%char. split; [done|]. apply (contains_chars _ _ _ H).
    apply (bool_decide_unpack _). by vm_compute.
  - exists "<"%char. split; [done|]. apply (contains_chars _ _ _ H). by left.
  - exists "<"%char. split; [done|]. apply (contains_chars _ _ _ H). by left.
  - exists "<"%char. split; [done|]. apply (contains_chars _ _ _ H). by left.
Qed.

(** X22: a content without any of the characters [<], [:], [=], [(] and
    [.] is never flagged by [_contains_suspicious_content]. *)
Theorem content_without_special_characters (content : string) :
  Forall (fun c => one_of "<:=(." c = false) (PyStr.chars content) →
  _contains_suspicious_content content = false.
Proof.
  intros Hall. apply not_true_is_false. intros Hf.
  apply contains_suspicious_iff, suspicious_text_special in Hf
    as (x & Hx & Hin).
  rewrite chars_lower in Hin.
  apply list_elem_of_fmap in Hin as (c & -> & Hc).
  apply lower_char_special in Hx.
  rewrite Forall_forall in Hall. specialize (Hall c Hc). congruence.
Qed.

Lemma content_without_special_characters_witness :
  _contains_suspicious_content "Please call me back on Monday, thanks!"
  = false.
Proof.
  apply (content_without_special_characters
           "Please call me back on Monday, thanks!").
  apply (bool_decide_unpack _). by vm_compute.
Defined.

End ValidationFacts.

(** * Facts on the validation of form data *)

Module FormDataFacts.
Import Regex Validation.

Section WithStr.

Variable number : Type.
Variable number_truthy : number → bool.
Variable py_str : json number → string.

Local Abbreviation validate := (validate_form_data number number_truthy py_str).
Local Abbreviation truthy_j := (truthy_json number number_truthy).

(** A form that is not a dict, or does not reach the subject check, is
    answered without an exception and never as valid. *)
Lemma validate_form_data_reaches form_data :
  match form_data with
  | JDict d =>
      if reaches_subject_check number number_truthy py_str d
      then validate form_data
           = validate_subject_and_url number number_truthy d
      else ∃ message, validate form_data = Returns (false, message)
  | _ => ∃ message, validate form_data = Returns (false, message)
  end.
Proof.
  destruct form_data as [| | | | |d]; try by eexists.
  unfold reaches_subject_check, validate_form_data.
  destruct (missing_fields number number_truthy d) as [|m ms]; [|by eexists].
  destruct (validate_email _); cbn [negb andb]; [|by eexists].
  destruct (match dict_get "from_email" d with
            | Some v => truthy_j v && negb (validate_email (py_str v))
            | None => false
            end); cbn [negb andb]; [by eexists|].
  destruct (dict_get "fields" d) as [[| | | | |[|field fields]]|];
    try by eexists.
  destruct (first_suspicious_field number py_str (field :: fields));
    [by eexists | done].
Qed.

Lemma subject_and_url_raises d :
  validate_subject_and_url number number_truthy d = RaisesTypeError ↔
  ∃ subject,
    dict_get "subject" d = Some subject ∧
    (subject = JBool true ∨ ∃ x, subject = JNumber x ∧ number_truthy x = true).
Proof.
  unfold validate_subject_and_url.
  cbv zeta.
  match goal with
  | |- context [if ?c then Returns (false, "Invalid source_url format")
                else ?e] =>
      set (url_check := if c then Returns (false, "Invalid source_url format")
                        else e)
  end.
  assert (Hurl : url_check ≠ RaisesTypeError)
    by (subst url_check; by repeat case_match).
  assert (Hno : ∀ subject : json number,
            (∀ x, subject ≠ JNumber x) → subject ≠ JBool true →
            (url_check = RaisesTypeError ↔
             ∃ subject', Some subject = Some subject' ∧
               (subject' = JBool true
                ∨ ∃ x, subject' = JNumber x ∧ number_truthy x = true))).
  { intros subject Hn Hb. split; [done|].
    intros (? & [= <-] & [?|(x & ? & _)]); [done | by destruct (Hn x)]. }
  destruct (dict_get "subject" d) as [subject|]; unfold default; cbn [from_option id].
  - destruct subject as [|[]|x|subj|[|e l]|[|i l]]; cbn [truthy_json py_len].
    + by apply Hno.
    + split; [|done]. intros _. eexists. split; [done|]. by left.
    + by apply Hno.
    + destruct (number_truthy x) eqn:Ex.
      * split; [|done]. intros _. eexists. split; [done|]. right. by eexists.
      * split; [done|]. intros (? & [= <-] & [?|(? & [= <-] & ?)]);
          [done | congruence].
    + destruct (PyStr.truthy subj); [destruct (_ <? _)%nat|];
        try (by apply Hno).
      split; [done|]. by intros (? & [= <-] & [?|(? & ? & ?)]).
    + by apply Hno.
    + destruct (_ <? _)%nat; [|by apply Hno].
      split; [done|]. by intros (? & [= <-] & [?|(? & ? & ?)]).
    + by apply Hno.
    + destruct (_ <? _)%nat; [|by apply Hno].
      split; [done|]. by intros (? & [= <-] & [?|(? & ? & ?)]).
  - cbn [truthy_json PyStr.truthy]. split; [done | by intros (? & [=] & _)].
Qed.

Lemma subject_and_url_valid d message :
  validate_subject_and_url number number_truthy d = Returns (true, message) →
  message = "Validation passed" ∧
  (∀ subj, dict_get "subject" d = Some (JStr subj) →
           (String.length subj ≤ 200)%nat) ∧
  (∀ u, dict_get "source_url" d = Some u → truthy_j u = true →
        ∃ url, u = JStr url ∧ _validate_url url = true).
Proof.
  unfold validate_subject_and_url.
  cbv zeta.
  match goal with
  | |- context [if ?c then Returns (false, "Invalid source_url format")
                else ?e] =>
      set (url_check := if c then Returns (false, "Invalid source_url format")
                        else e)
  end.
  assert (Hurl : url_check = Returns (true, message) →
                 message = "Validation passed" ∧
                 ∀ u, dict_get "source_url" d = Some u → truthy_j u = true →
                      ∃ url, u = JStr url ∧ _validate_url url = true).
  { subst url_check.
    destruct (dict_get "source_url" d) as [u|]; [|by intros [= <-]].
    destruct u as [|b|x|url|l|l]; cbn [truthy_json].
    - intros [= <-]. split; [done|]. by intros ? [= <-].
    - destruct b; [done|]. intros [= <-]. split; [done|]. by intros ? [= <-].
    - destruct (number_truthy x) eqn:Ex; [done|]. intros [= <-].
      split; [done|]. intros ? [= <-]. cbn. congruence.
    - destruct (PyStr.truthy url) eqn:Eu; cbn [andb].
      + destruct (_validate_url url) eqn:Ev; cbn [negb]; [|done].
        intros [= <-]. split; [done|]. intros ? [= <-] _. by exists url.
      + intros [= <-]. split; [done|]. intros ? [= <-]. cbn. congruence.
    - destruct l; [|done]. intros [= <-]. split; [done|]. by intros ? [= <-].
    - destruct l; [|done]. intros [= <-]. split; [done|]. by intros ? [= <-]. }
  destruct (dict_get "subject" d) as [subject|] eqn:Es; unfold default; cbn [from_option id].
  - destruct (truthy_j subject) eqn:Et.
    + destruct (py_len subject) as [n|] eqn:En; [|done].
      destruct (Nat.ltb_spec 200 n) as [|Hle]; [done|].
      intros [-> Hu]%Hurl. split; [done|]. split; [|done].
      intros subj [= ->]. cbn in En. injection En as <-. done.
    + intros [-> Hu]%Hurl. split; [done|]. split; [|done].
      intros subj [= ->]. cbn in Et. destruct subj; [simpl; lia | done].
  - cbn [truthy_json PyStr.truthy]. intros [-> Hu]%Hurl. by repeat split.
Qed.

Lemma first_suspicious_field_none fields :
  first_suspicious_field number py_str fields = None →
  ∀ name value, (name, value) ∈ fields →
                _contains_suspicious_content (py_str value) = false.
Proof.
  induction fields as [|[n v] fields IH]; intros Hnone name value Hin.
  - by apply elem_of_nil in Hin.
  - cbn [first_suspicious_field] in Hnone.
    destruct (_contains_suspicious_content (py_str v)) eqn:Ev; [done|].
    apply elem_of_cons in Hin as [[= -> ->]|Hin]; [done|]. by eapply IH.
Qed.

Lemma missing_fields_nil d :
  missing_fields number number_truthy d = [] →
  get_truthy number number_truthy "to_email" d = true ∧
  get_truthy number number_truthy "fields" d = true.
Proof.
  unfold missing_fields, required_fields. cbn [List.filter].
  destruct (get_truthy number number_truthy "to_email" d),
    (get_truthy number number_truthy "fields" d); by cbn.
Qed.

(** What passing the checks before the subject means. *)
Lemma reaches_subject_check_inv d :
  reaches_subject_check number number_truthy py_str d = true →
  (∃ to_email, dict_get "to_email" d = Some to_email ∧
               truthy_j to_email = true ∧
               validate_email (py_str to_email) = true) ∧
  (∀ v, dict_get "from_email" d = Some v → truthy_j v = true →
        validate_email (py_str v) = true) ∧
  ∃ fields, dict_get "fields" d = Some (JDict fields) ∧ fields ≠ [] ∧
            ∀ name value, (name, value) ∈ fields →
              _contains_suspicious_content (py_str value) = false.
Proof.
  unfold reaches_subject_check.
  destruct (missing_fields number number_truthy d) as [|] eqn:Em; [|done].
  apply missing_fields_nil in Em as [Hto _]. unfold get_truthy in Hto.
  rewrite !andb_true_iff. intros [[Hemail Hfrom] Hfields].
  split; [|split].
  - destruct (dict_get "to_email" d) as [v|]; [|done].
    rewrite Hto in Hemail. by exists v.
  - intros v Hv Ht. rewrite Hv, Ht in Hfrom. cbn in Hfrom.
    by destruct (validate_email (py_str v)).
  - destruct (dict_get "fields" d) as [[| | | | |[|field fields]]|]; try done.
    exists (field :: fields). split; [done|]. split; [done|].
    destruct (first_suspicious_field number py_str (field :: fields)) eqn:Ef;
      [done|].
    by apply first_suspicious_field_none.
Qed.

(** X23: a form that [validate_form_data] declares valid (when [str]
    leaves strings as they are) is a dict whose [fields] entry is a dict
    that is not empty; its [to_email] is truthy and [str] of it passes
    [validate_email], so a [to_email] that is a string is an address
    [local@domain.tld], at most followed by a newline; a [from_email]
    that is a non-empty string is such an address too; no field value
    that is a string holds what [_contains_suspicious_content] looks for;
    a subject that is a string has at most 200 characters; and a truthy
    [source_url] is a string that [_validate_url] accepts.  The message
    is then ['Validation passed']. *)
Theorem accepted_form_guarantees (form_data : json number)
    (message : string) :
  (∀ s, py_str (JStr s) = s) →
  validate form_data = Returns (true, message) →
  message = "Validation passed" ∧
  ∃ d fields,
    form_data = JDict d ∧
    dict_get "fields" d = Some (JDict fields) ∧ fields ≠ [] ∧
    (∃ to_email, dict_get "to_email" d = Some to_email ∧
                 truthy_j to_email = true ∧
                 validate_email (py_str to_email) = true) ∧
    (∀ e, dict_get "to_email" d = Some (JStr e) →
          email_shape e ∨ ∃ e', e = e' +:+ nl ∧ email_shape e') ∧
    (∀ e, dict_get "from_email" d = Some (JStr e) →
          e = EmptyString ∨ email_shape e
          ∨ ∃ e', e = e' +:+ nl ∧ email_shape e') ∧
    (∀ name value, (name, JStr value) ∈ fields →
                   ¬ suspicious_text (lower value)) ∧
    (∀ subj, dict_get "subject" d = Some (JStr subj) →
             (String.length subj ≤ 200)%nat) ∧
    (∀ u, dict_get "source_url" d = Some u → truthy_j u = true →
          ∃ url, u = JStr url ∧
                 (url_shape url ∨ ∃ url', url = url' +:+ nl ∧ url_shape url')).
Proof.
  intros Hstr Hvalid.
  pose proof (validate_form_data_reaches form_data) as Hreach.
  destruct form_data as [| | | | |d];
    try (destruct Hreach as [m Hm]; congruence).
  destruct (reaches_subject_check number number_truthy py_str d) eqn:Er;
    [|destruct Hreach as [m Hm]; congruence].
  rewrite Hreach in Hvalid.
  apply subject_and_url_valid in Hvalid as (-> & Hsubj & Hurl).
  apply reaches_subject_check_inv in Er
    as ((to_email & Hto & Htt & Hte) & Hfrom & fields & Hf & Hne & Hsafe).
  split; [done|]. exists d, fields.
  split; [done|]. split; [done|]. split; [done|].
  split; [by exists to_email|].
  split; [|split; [|split; [|split; [done|]]]].
  - intros e He. rewrite Hto in He. injection He as ->.
    rewrite Hstr in Hte. by apply ValidationFacts.validate_email_iff.
  - intros e He. destruct e as [|c e]; [by left|]. right.
    apply ValidationFacts.validate_email_iff. rewrite <- (Hstr (String c e)).
    by apply Hfrom.
  - intros name value Hin Hs.
    apply ValidationFacts.contains_suspicious_iff in Hs.
    specialize (Hsafe name (JStr value) Hin). rewrite Hstr in Hsafe.
    congruence.
  - intros u Hu Ht. destruct (Hurl u Hu Ht) as (url & -> & Hv).
    exists url. split; [done|]. by apply ValidationFacts.validate_url_iff.
Qed.

(** X24: [validate_form_data] raises [TypeError] (from [len(subject)])
    exactly for a dict that passes every check before the subject and
    whose [subject] is [True] or a number that is not zero; for every
    other form data it returns its dict. *)
Theorem validate_form_data_raises_iff (form_data : json number) :
  validate form_data = RaisesTypeError ↔
  ∃ d subject,
    form_data = JDict d ∧
    reaches_subject_check number number_truthy py_str d = true ∧
    dict_get "subject" d = Some subject ∧
    (subject = JBool true ∨ ∃ x, subject = JNumber x ∧ number_truthy x = true).
Proof.
  pose proof (validate_form_data_reaches form_data) as Hreach.
  destruct form_data as [| | | | |d];
    try (destruct Hreach as [m ->]; split; [done | by intros (? & ? & [=] & _)]).
  destruct (reaches_subject_check number number_truthy py_str d) eqn:Er.
  - rewrite Hreach, subject_and_url_raises. split.
    + intros (subject & Hs & H). by exists d, subject.
    + intros (? & subject & [= <-] & _ & Hs & H). by exists subject.
  - destruct Hreach as [m ->]. split; [done|].
    intros (? & ? & [= <-] & ? & _). congruence.
Qed.

End WithStr.

Lemma accepted_form_guarantees_witness :
  let py_str : json Z → string :=
    fun v => match v with JStr s => s | _ => EmptyString end in
  let form_data : json Z :=
    JDict [("to_email", JStr "owner@example.org");
           ("subject", JStr "Hello");
           ("fields", JDict [("name", JStr "Ada"); ("age", JNumber 36)])] in
  "Validation passed" = "Validation passed" ∧
  ∃ d fields,
    form_data = JDict d ∧
    dict_get "fields" d = Some (JDict fields) ∧ fields ≠ [] ∧
    (∃ to_email, dict_get "to_email" d = Some to_email ∧
                 truthy_json Z (fun n => negb (n =? 0)) to_email = true ∧
                 validate_email (py_str to_email) = true) ∧
    (∀ e, dict_get "to_email" d = Some (JStr e) →
          email_shape e ∨ ∃ e', e = e' +:+ nl ∧ email_shape e') ∧
    (∀ e, dict_get "from_email" d = Some (JStr e) →
          e = EmptyString ∨ email_shape e
          ∨ ∃ e', e = e' +:+ nl ∧ email_shape e') ∧
    (∀ name value, (name, JStr value) ∈ fields →
                   ¬ suspicious_text (lower value)) ∧
    (∀ subj, dict_get "subject" d = Some (JStr subj) →
             (String.length subj ≤ 200)%nat) ∧
    (∀ u, dict_get "source_url" d = Some u →
          truthy_json Z (fun n => negb (n =? 0)) u = true →
          ∃ url, u = JStr url ∧
                 (url_shape url ∨ ∃ url', url = url' +:+ nl ∧ url_shape url')).
Proof.
  apply (accepted_form_guarantees Z (fun n => negb (n =? 0))
           (fun v => match v with JStr s => s | _ => EmptyString end)
           (JDict [("to_email", JStr "owner@example.org");
                   ("subject", JStr "Hello");
                   ("fields", JDict [("name", JStr "Ada");
                                     ("age", JNumber 36)])])
           "Validation passed").
  - done.
  - by vm_compute.
Defined.

End FormDataFacts.

(** * Facts on the endpoint *)

Module MainFacts.
Import RateLimiter RateLimiter.Main.

Section WithHandler.

Variable number : Type.
Variable number_truthy : number → bool.
Variable py_str : Validation.json number → string.
Variable send_form_email : Validation.json number → send_result.
Variable valid_api_keys : gmap string APIKeyAuth.key_info.

Local Abbreviation endpoint :=
  (submit_form_endpoint number number_truthy py_str send_form_email
     valid_api_keys).
Local Abbreviation view :=
  (submit_form number number_truthy py_str send_form_email).
Local Abbreviation validate :=
  (Validation.validate_form_data number number_truthy py_str).
Local Abbreviation truthy_j := (Validation.truthy_json number number_truthy).
Local Abbreviation key_ok r :=
  (APIKeyAuth.is_valid_key valid_api_keys (x_api_key r)).

Lemma is_valid_key_truthy key :
  APIKeyAuth.is_valid_key valid_api_keys key = true →
  match key with Some k => PyStr.truthy k | None => false end = true.
Proof.
  destruct key as [k|]; [|done]. cbn. by destruct (PyStr.truthy k).
Qed.

(** The decorator: with a valid key the view runs, without one the
    answer is 401 and nothing else happens. *)
Lemma endpoint_valid now r s :
  key_ok r = true → endpoint now r s = view now r s.
Proof.
  intros Ev. unfold submit_form_endpoint, require_api_key.
  by rewrite (is_valid_key_truthy _ Ev), Ev.
Qed.

Lemma endpoint_invalid now r s :
  key_ok r = false →
  status (endpoint now r s).1.1 = 401 ∧
  (endpoint now r s).1.2 = s ∧ (endpoint now r s).2 = None.
Proof.
  intros Ev. unfold submit_form_endpoint, require_api_key. rewrite Ev.
  by destruct (negb _).
Qed.

(** The view, by what it found. *)
Lemma view_cases now r s :
  let call := limiter_call now r s in
  (view now r s).1.2 = call.2 ∧
  (status (view now r s).1.1 ≠ 401) ∧
  (status (view now r s).1.1 = 429 ↔ call.1 = false) ∧
  ∀ form_data,
    ((view now r s).2 = Some form_data ↔
     call.1 = true ∧ get_json r = Some form_data ∧
     truthy_j form_data = true ∧
     ∃ message, validate form_data = Validation.Returns (true, message)) ∧
    ((view now r s).2 = Some form_data →
     status (view now r s).1.1
     = match send_form_email form_data with
       | Sent _ => 200
       | NotSent _ => 500
       end).
Proof.
  cbv zeta. unfold submit_form, limiter_call.
  destruct (is_allowed _ _ now s) as [allowed s1]. cbn [fst snd].
  destruct allowed; cbn [negb].
  2:{ split; [done|]. split; [done|]. split; [done|].
      intros form_data. split; [|done]. split; [done | by intros (? & _)]. }
  destruct (get_json r) as [form_data|].
  2:{ split; [done|]. split; [done|]. split; [done|].
      intros form_data. split; [|done].
      split; [done | by intros (_ & ? & _)]. }
  destruct (truthy_j form_data) eqn:Et; cbn [negb].
  2:{ split; [done|]. split; [done|]. split; [done|].
      intros form_data'. split; [|done]. split; [done|].
      intros (_ & [= <-] & ? & _). congruence. }
  destruct (validate form_data) as [[valid message]|] eqn:Ev.
  2:{ split; [done|]. split; [done|]. split; [done|].
      intros form_data'. split; [|done]. split; [done|].
      intros (_ & [= <-] & _ & ? & ?). congruence. }
  destruct valid; cbn [negb].
  2:{ split; [done|]. split; [done|]. split; [done|].
      intros form_data'. split; [|done]. split; [done|].
      intros (_ & [= <-] & _ & ? & ?). congruence. }
  destruct (send_form_email form_data) eqn:Es;
    (split; [done|]; split; [done|]; split; [done|];
     intros form_data'; split;
     [split; [intros [= <-]; eauto 10 | by intros (_ & [= <-] & _)]
     |intros [= <-]; by rewrite Es]).
Qed.

(** X25: the endpoint hands a form to the email handler exactly when the
    API key is valid, the rate limiter admits the call, [get_json]
    returns truthy data and [validate_form_data] declares it valid; the
    form handed over is the data received, and the answer is then 200
    when the handler reports success and 500 when it reports an error. *)
Theorem email_handed_over_iff (now : Z) (r : request number) (s : State)
    (form_data : Validation.json number) :
  ((endpoint now r s).2 = Some form_data ↔
   key_ok r = true ∧
   (limiter_call now r s).1 = true ∧
   get_json r = Some form_data ∧
   truthy_j form_data = true ∧
   ∃ message, validate form_data = Validation.Returns (true, message)) ∧
  ((endpoint now r s).2 = Some form_data →
   status (endpoint now r s).1.1
   = match send_form_email form_data with
     | Sent _ => 200
     | NotSent _ => 500
     end).
Proof.
  destruct (key_ok r) eqn:Ev.
  - rewrite endpoint_valid by done.
    destruct (view_cases now r s) as (_ & _ & _ & H).
    destruct (H form_data) as [Hiff Hst]. split; [|done].
    rewrite Hiff. split; [by intros ?; split | by intros [_ ?]].
  - destruct (endpoint_invalid now r s Ev) as (_ & _ & ->).
    split; [|done]. split; [done | by intros [? _]].
Qed.

(** X26: the limiter state after a request does not depend on the body
    of the request nor on the email handler: without a valid key it is
    the state before (the limiter is not called, the answer is 401); with
    a valid key it is the state left by the one [is_allowed] call, so a
    request answered 400 or 500 uses up quota like one answered 200; and
    the answer is 429 exactly when the key is valid and that call
    denies. *)
Theorem limiter_state_after_request (now : Z) (r : request number)
    (s : State) :
  (endpoint now r s).1.2
  = (if key_ok r then (limiter_call now r s).2 else s) ∧
  (status (endpoint now r s).1.1 = 401 ↔ key_ok r = false) ∧
  (status (endpoint now r s).1.1 = 429 ↔
   key_ok r = true ∧ (limiter_call now r s).1 = false).
Proof.
  destruct (key_ok r) eqn:Ev.
  - rewrite endpoint_valid by done.
    destruct (view_cases now r s) as (Hs & H401 & H429 & _).
    split; [done|]. split; [done|]. rewrite H429.
    split; [by intros ?; split | by intros [_ ?]].
  - destruct (endpoint_invalid now r s Ev) as (Hst & Hs & _).
    split; [done|]. split; [done|]. rewrite Hst. split; [done | by intros [? _]].
Qed.

Lemma length_app_string a b :
  String.length (a +:+ b) = (String.length a + String.length b)%nat.
Proof.
  induction a as [|c a IH]; [done|].
  rewrite RegexFacts.app_cons. simpl. by rewrite IH.
Qed.

Lemma prefix_app a b : PyStr.prefix (String.length a) (a +:+ b) = a.
Proof.
  induction a as [|c a IH]; [by destruct b|].
  rewrite RegexFacts.app_cons. simpl. by rewrite IH.
Qed.

(** For every finite set of client ids and every key there is an address
    that is not empty and whose client id with that key is not in the
    set. *)
Lemma unused_address (ids : list string) (k : string) :
  ∃ v, v ≠ EmptyString ∧ v +:+ ":" +:+ k ∉ ids.
Proof.
  set (cand := fun x : string =>
         PyStr.prefix (String.length x - String.length (":" +:+ k)) x).
  exists (fresh (EmptyString :: (cand <$> ids))).
  generalize (infinite_is_fresh (EmptyString :: (cand <$> ids))).
  generalize (fresh (EmptyString :: (cand <$> ids))).
  intros v Hfresh. split.
  - intros Hv. apply Hfresh. rewrite Hv. by left.
  - intros Hin. apply Hfresh. right.
    apply list_elem_of_fmap. exists (v +:+ ":" +:+ k). split; [|done].
    subst cand. cbv beta. rewrite length_app_string.
    replace (String.length v + String.length (":" +:+ k)
             - String.length (":" +:+ k))%nat
      with (String.length v) by lia.
    by rewrite prefix_app.
Qed.

(** X27: the bucket of a request is named by its [X-Forwarded-For]
    header as the client sent it: whatever the limiter state, a request
    with a valid key is not answered 429 for some value of that header. *)
Theorem some_forwarded_address_is_admitted (now : Z) (r : request number)
    (s : State) :
  key_ok r = true →
  ∃ v, status (endpoint now (with_x_forwarded_for v r) s).1.1 ≠ 429.
Proof.
  intros Ev.
  destruct (x_api_key r) as [k|] eqn:Ek; [|done].
  pose proof (is_valid_key_truthy _ Ev) as Hk.
  destruct (unused_address (elements (dom s)) k) as (v & Hv & Hnin).
  exists v.
  assert (Ev' : key_ok (with_x_forwarded_for v r) = true)
    by (cbn; by rewrite Ek).
  rewrite endpoint_valid by done.
  destruct (view_cases now (with_x_forwarded_for v r) s) as (_ & _ & H429 & _).
  rewrite H429. unfold limiter_call. cbn. rewrite Ek.
  rewrite is_allowed_minute by (by destruct v).
  cbv zeta. unfold client_id_of.
  assert (Hk' : truthy k = true) by (cbn in Hk; by destruct k).
  rewrite Hk'.
  assert (Hlog : log_of (v +:+ ":" +:+ k) s = []).
  { unfold log_of. rewrite (proj1 (not_elem_of_dom s _)); [done|].
    intros Hd. apply Hnin. by apply elem_of_elements. }
  rewrite Hlog. done.
Qed.

End WithHandler.

Lemma some_forwarded_address_is_admitted_witness :
  let keys : gmap string APIKeyAuth.key_info :=
    <["key-0123456789abcdef" := APIKeyAuth.client_info]> ∅ in
  let r : request Z :=
    {| http_x_forwarded_for := Some "203.0.113.7";
       remote_addr := Some "10.0.0.1";
       x_api_key := Some "key-0123456789abcdef";
       get_json := Some (Validation.JDict []) |} in
  let s : State :=
    <["203.0.113.7:key-0123456789abcdef" :=
        [0; 1; 2; 3; 4; 5; 6; 7; 8; 9]]> init in
  ∃ v,
    status
      (submit_form_endpoint Z (fun n => negb (n =? 0))
         (fun v => match v with Validation.JStr x => x | _ => EmptyString end)
         (fun _ => NotSent "unreachable") keys 10
         (with_x_forwarded_for v r) s).1.1 ≠ 429.
Proof.
  apply (some_forwarded_address_is_admitted Z (fun n => negb (n =? 0))
           (fun v => match v with Validation.JStr x => x | _ => EmptyString end)
           (fun _ => NotSent "unreachable")
           (<["key-0123456789abcdef" := APIKeyAuth.client_info]> ∅) 10
           {| http_x_forwarded_for := Some "203.0.113.7";
              remote_addr := Some "10.0.0.1";
              x_api_key := Some "key-0123456789abcdef";
              get_json := Some (Validation.JDict []) |}
           (<["203.0.113.7:key-0123456789abcdef" :=
                [0; 1; 2; 3; 4; 5; 6; 7; 8; 9]]> init)).
  by vm_compute.
Defined.

End MainFacts.

(** * Facts on [sanitize_field_value] *)

Module SanitizeFacts.
Import Regex Validation RegexFacts.

Lemma has_gt_spec s : has_gt s = true ↔ ">"%char ∈ PyStr.chars s.
Proof.
  unfold PyStr.chars. induction s as [|c s IH]; simpl.
  - split; [done | by intros ?%elem_of_nil].
  - rewrite orb_true_iff, elem_of_cons, IH, Ascii.eqb_eq.
    split; (intros [H|H]; [left|right]); done.
Qed.

Lemma has_gt_false s : has_gt s = false ↔ ">"%char ∉ PyStr.chars s.
Proof.
  rewrite <- has_gt_spec. by destruct (has_gt s).
Qed.

Lemma not_gt_spec c : not_gt c = true ↔ c ≠ ">"%char.
Proof.
  unfold not_gt. rewrite negb_true_iff. apply Ascii.eqb_neq.
Qed.

(** A [<] starts no match exactly when nothing follows it, or a [>]
    follows it at once, or no [>] follows it at all. *)
Lemma tag_starts_false rest :
  tag_starts rest = false ↔
  rest = EmptyString ∨ (∃ rest', rest = String ">" rest')
  ∨ ">"%char ∉ PyStr.chars rest.
Proof.
  destruct rest as [|c rest]; simpl.
  - split; [by left | done].
  - rewrite andb_false_iff, has_gt_false. unfold not_gt.
    rewrite negb_false_iff, Ascii.eqb_eq. unfold PyStr.chars. simpl.
    split.
    + intros [->|Hn]; [right; left; by eexists|].
      destruct (decide (c = ">"%char)) as [->|Hc];
        [right; left; by eexists|].
      right. right. by intros [?|?]%elem_of_cons.
    + intros [?|[[rest' [= -> _]]|Hn]]; [done | by left |].
      right. intros Hin. apply Hn. by right.
Qed.

(** The matches of [<[^>]+>]: a [<], one or more characters other than
    [>], and a [>]. *)
Lemma lang_tag_pattern m :
  lang tag_pattern m ↔
  ∃ body, m = String "<" (body +:+ String ">" EmptyString)
          ∧ body ≠ EmptyString ∧ ">"%char ∉ PyStr.chars body.
Proof.
  unfold tag_pattern. rewrite lang_cat_iff. split.
  - intros (s1 & s2 & -> & ->%lang_chr
            & (body & s3 & -> & [Hne Hall]%lang_plus_class
               & ->%lang_chr)%lang_cat_inv).
    exists body. split; [done|]. split; [done|].
    intros Hin. rewrite Forall_forall in Hall.
    by apply Hall, not_gt_spec in Hin.
  - intros (body & -> & Hne & Hn).
    exists (String "<" EmptyString), (body +:+ String ">" EmptyString).
    split; [done|]. split; [by apply lang_chr|].
    apply lang_cat; [|by apply lang_chr].
    apply lang_plus_class. split; [done|].
    apply Forall_forall. intros c Hc. apply not_gt_spec. by intros ->.
Qed.

(** [tag_starts] is the start of a match of the pattern: a match begins
    at a [<] exactly when [tag_starts] holds of what follows it. *)
Lemma tag_starts_spec rest :
  tag_starts rest = true ↔
  ∃ m after, String "<" rest = m +:+ after ∧ lang tag_pattern m.
Proof.
  split.
  - destruct rest as [|c rest]; [done|]. simpl.
    intros [Hc%not_gt_spec Hgt]%andb_true_iff.
    assert (∃ body after, rest = body +:+ String ">" after
                          ∧ ">"%char ∉ PyStr.chars body)
      as (body & after & -> & Hbody).
    { clear c Hc. induction rest as [|x rest IH]; [done|].
      simpl in Hgt. destruct (Ascii.eqb x ">") eqn:Ex.
      - apply Ascii.eqb_eq in Ex as ->. exists EmptyString, rest.
        split; [done|]. by intros ?%elem_of_nil.
      - apply Ascii.eqb_neq in Ex.
        destruct (IH Hgt) as (body & after & -> & Hbody).
        exists (String x body), after. split; [done|].
        unfold PyStr.chars. simpl. by intros [?|?]%elem_of_cons. }
    exists (String "<" (String c body +:+ String ">" EmptyString)), after.
    split.
    + rewrite !app_cons. do 2 f_equal.
      by rewrite app_assoc, app_cons, app_nil_l.
    + apply lang_tag_pattern. exists (String c body). split; [done|].
      split; [done|]. unfold PyStr.chars. simpl.
      by intros [?|?]%elem_of_cons.
  - intros (m & after & Heq & (body & -> & Hne & Hn)%lang_tag_pattern).
    rewrite app_cons in Heq. injection Heq as ->.
    destruct body as [|c body]; [done|].
    rewrite !app_cons. simpl. apply andb_true_iff.
    unfold PyStr.chars in Hn. simpl in Hn.
    split; [apply not_gt_spec; intros ->; apply Hn; by left|].
    apply has_gt_spec. rewrite app_assoc, chars_app.
    apply elem_of_app. right. rewrite app_cons. unfold PyStr.chars. simpl.
    by left.
Qed.

(** Two matches that start at the same place are the same match: each
    ends at the first [>]. *)
Lemma tag_match_unique m1 m2 after1 after2 :
  lang tag_pattern m1 → lang tag_pattern m2 →
  m1 +:+ after1 = m2 +:+ after2 → m1 = m2.
Proof.
  intros (b1 & -> & _ & H1)%lang_tag_pattern
         (b2 & -> & _ & H2)%lang_tag_pattern.
  rewrite !app_cons. intros [= Heq]. f_equal. f_equal.
  rewrite !app_assoc, !app_cons, !app_nil_l in Heq.
  clear -H1 H2 Heq. revert b2 H2 Heq.
  unfold PyStr.chars in *.
  induction b1 as [|x b1 IH]; intros [|y b2] H2 Heq.
  - done.
  - rewrite app_nil_l, app_cons in Heq. injection Heq as <- _.
    exfalso. apply H2. simpl. by left.
  - rewrite app_nil_l, app_cons in Heq. injection Heq as -> _.
    exfalso. apply H1. simpl. by left.
  - rewrite !app_cons in Heq. injection Heq as -> Heq. f_equal.
    apply IH; [|by intros ?; apply H2; right | done].
    intros ?. apply H1. by right.
Qed.

Lemma chars_remove_tags inside s c :
  c ∈ PyStr.chars (remove_tags inside s) → c ∈ PyStr.chars s.
Proof.
  unfold PyStr.chars. revert inside.
  induction s as [|x s IH]; intros inside; [by destruct inside|].
  simpl. intros H. apply elem_of_cons.
  destruct inside.
  - right. destruct (Ascii.eqb x ">"); by eapply IH.
  - destruct (Ascii.eqb x "<" && tag_starts s).
    + right. by eapply IH.
    + simpl in H. apply elem_of_cons in H as [->|H]; [by left|].
      right. by eapply IH.
Qed.

Lemma chars_remove_control s c :
  c ∈ PyStr.chars (remove_control s) ↔
  c ∈ PyStr.chars s ∧ is_control c = false.
Proof.
  unfold PyStr.chars. induction s as [|x s IH]; simpl.
  - split; [by intros ?%elem_of_nil | by intros [?%elem_of_nil _]].
  - destruct (is_control x) eqn:Ex; simpl;
      rewrite ?elem_of_cons, IH, ?elem_of_cons.
    + split; [intros [? ?]; auto|]. intros [[->|?] ?]; [congruence | done].
    + split.
      * intros [->|[? ?]]; auto.
      * intros [[->|?] ?]; auto.
Qed.

Lemma tag_starts_no_gt rest :
  ">"%char ∉ PyStr.chars rest → tag_starts rest = false.
Proof. intros H. apply tag_starts_false. auto. Qed.

(** What [re.sub(r'<[^>]+>', '', s)] returns holds no match. *)
Lemma remove_tags_tag_free inside s : tag_free (remove_tags inside s).
Proof.
  revert inside. induction s as [|c s IH]; intros inside;
    [by destruct inside|].
  simpl. destruct inside.
  - destruct (Ascii.eqb c ">"); apply IH.
  - destruct (Ascii.eqb c "<" && tag_starts s) eqn:E; [apply IH|].
    simpl. split; [|apply IH]. intros ->.
    rewrite Ascii.eqb_refl in E. simpl in E.
    apply tag_starts_false in E as [->|[[rest ->]|Hn]].
    + done.
    + simpl. done.
    + apply tag_starts_no_gt. intros H. by apply chars_remove_tags in H.
Qed.

Lemma remove_control_tag_free s : tag_free s → tag_free (remove_control s).
Proof.
  induction s as [|c s IH]; [done|]. simpl. intros [Hc Hs].
  destruct (is_control c) eqn:Ec; [by apply IH|].
  simpl. split; [|by apply IH]. intros ->.
  destruct (tag_starts_false s) as [Hcases _].
  destruct (Hcases (Hc eq_refl)) as [->|[[rest ->]|Hn]].
  - done.
  - simpl. done.
  - apply tag_starts_no_gt. intros H.
    by apply chars_remove_control in H as [H _].
Qed.

Lemma tag_free_tail c s : tag_free (String c s) → tag_free s.
Proof. by intros [_ H]. Qed.

Lemma lstrip_tag_free s : tag_free s → tag_free (PyStr.lstrip s).
Proof.
  induction s as [|c s IH]; [done|]. intros H. simpl.
  destruct (PyStr.isspace c); [|done]. by apply IH, (tag_free_tail c).
Qed.

Lemma rstrip_head c s c' r :
  PyStr.rstrip (String c s) = String c' r → c' = c.
Proof.
  simpl. destruct (PyStr.rstrip s); [destruct (PyStr.isspace c)|];
    congruence.
Qed.

Lemma rstrip_tag_free s : tag_free s → tag_free (PyStr.rstrip s).
Proof.
  induction s as [|c s IH]; [done|]. intros [Hc Hs]. simpl.
  destruct (PyStr.rstrip s) as [|c' r] eqn:Er.
  - by destruct (PyStr.isspace c).
  - split; [|rewrite <- Er in *; by apply IH].
    intros ->.
    destruct (tag_starts_false s) as [Hcases _].
    destruct (Hcases (Hc eq_refl)) as [->|[[rest ->]|Hn]].
    + done.
    + apply rstrip_head in Er as ->. done.
    + apply tag_starts_no_gt. rewrite <- Er. intros H.
      by apply PyStrFacts.chars_rstrip in H.
Qed.

Lemma strip_tag_free s : tag_free s → tag_free (PyStr.strip s).
Proof. intros H. by apply lstrip_tag_free, rstrip_tag_free. Qed.

Lemma tag_free_app a b : tag_free (a +:+ b) → tag_free b.
Proof.
  induction a as [|c a IH]; [by rewrite app_nil_l|].
  rewrite app_cons. intros [_ H]. by apply IH.
Qed.

(** A string in which no match starts holds no match. *)
Lemma tag_free_search s : tag_free s → search tag_pattern s = false.
Proof.
  intros Hfree. apply not_true_iff_false.
  intros (before & m & after & -> & Hm)%search_spec.
  apply tag_free_app in Hfree.
  assert (Hm' := Hm). apply lang_tag_pattern in Hm' as (body & -> & _).
  rewrite app_cons in Hfree. destruct Hfree as [Hstart _].
  specialize (Hstart eq_refl).
  assert (tag_starts ((body +:+ String ">" EmptyString) +:+ after) = true)
    as Htrue; [|congruence].
  apply tag_starts_spec. eexists _, after. split; [|exact Hm].
  by rewrite app_cons.
Qed.

Lemma search_tag_free s : search tag_pattern s = false → tag_free s.
Proof.
  induction s as [|c s IH]; [done|]. intros Hs. split.
  - intros ->. apply not_true_iff_false.
    intros (m & after & Heq & Hm)%tag_starts_spec.
    apply not_true_iff_false in Hs. apply Hs, search_spec.
    exists EmptyString, m, after. by rewrite app_nil_l.
  - apply IH. apply not_true_iff_false. intros (b & m & a & -> & Hm)%search_spec.
    apply not_true_iff_false in Hs. apply Hs, search_spec.
    exists (String c b), m, a. by rewrite app_cons.
Qed.

(** Where no match starts, the substitution changes nothing. *)
Lemma remove_tags_fixed s : tag_free s → remove_tags false s = s.
Proof.
  induction s as [|c s IH]; [done|]. intros [Hc Hs]. simpl.
  destruct (Ascii.eqb c "<") eqn:Ec; simpl.
  - apply Ascii.eqb_eq in Ec. rewrite (Hc Ec). by rewrite IH.
  - by rewrite IH.
Qed.

Lemma remove_control_fixed s :
  Forall (fun c => is_control c = false) (PyStr.chars s) →
  remove_control s = s.
Proof.
  unfold PyStr.chars. induction s as [|c s IH]; [done|]. simpl.
  intros [Hc Hs]%Forall_cons. rewrite Hc. by rewrite IH.
Qed.

Lemma length_prefix n s : (String.length (PyStr.prefix n s) ≤ n)%nat.
Proof.
  revert s. induction n as [|n IH]; intros [|c s]; simpl; try lia.
  specialize (IH s). lia.
Qed.

Lemma prefix_fixed n s : (String.length s ≤ n)%nat → PyStr.prefix n s = s.
Proof.
  revert s. induction n as [|n IH]; intros [|c s]; simpl; try done; try lia.
  intros H. rewrite IH; [done | lia].
Qed.

Lemma length_remove_tags inside s :
  (String.length (remove_tags inside s) ≤ String.length s)%nat.
Proof.
  revert inside. induction s as [|c s IH]; intros inside;
    [by destruct inside|].
  simpl. pose proof (IH true). pose proof (IH false).
  destruct inside; repeat case_match; simpl; lia.
Qed.

Lemma length_remove_control s :
  (String.length (remove_control s) ≤ String.length s)%nat.
Proof.
  induction s as [|c s IH]; [done|]. simpl. case_match; simpl; lia.
Qed.

Lemma length_lstrip s : (String.length (PyStr.lstrip s) ≤ String.length s)%nat.
Proof.
  induction s as [|c s IH]; [done|]. simpl. case_match; simpl; lia.
Qed.

Lemma length_rstrip s : (String.length (PyStr.rstrip s) ≤ String.length s)%nat.
Proof.
  induction s as [|c s IH]; [done|]. simpl.
  destruct (PyStr.rstrip s); [case_match|]; simpl in *; lia.
Qed.

Lemma length_strip s : (String.length (PyStr.strip s) ≤ String.length s)%nat.
Proof.
  unfold PyStr.strip. pose proof (length_lstrip (PyStr.rstrip s)).
  pose proof (length_rstrip s). lia.
Qed.

Section Sanitize.

Variable number : Type.
Variable py_str : json number → string.

Local Abbreviation sanitize := (sanitize_field_value number py_str).

(** The value before the final [strip()]. *)
Lemma sanitize_cases value :
  sanitize value = EmptyString ∨
  sanitize value
  = PyStr.strip
      (remove_control
         (remove_tags false (PyStr.prefix 1000 (py_str value)))).
Proof. destruct value; auto. Qed.

(** What is returned, with [tag_free] for the tags. *)
Lemma sanitize_output value :
  (String.length (sanitize value) ≤ 1000)%nat
  ∧ Forall (fun c => is_control c = false) (PyStr.chars (sanitize value))
  ∧ tag_free (sanitize value)
  ∧ PyStr.strip (sanitize value) = sanitize value.
Proof.
  destruct (sanitize_cases value) as [->| ->].
  { split; [simpl; lia|]. split; [constructor|]. by split. }
  set (p := PyStr.prefix 1000 (py_str value)).
  split; [|split; [|split]].
  - pose proof (length_strip (remove_control (remove_tags false p))).
    pose proof (length_remove_control (remove_tags false p)).
    pose proof (length_remove_tags false p).
    pose proof (length_prefix 1000 (py_str value)) as Hp. fold p in Hp. lia.
  - apply Forall_forall. intros c Hc.
    apply PyStrFacts.chars_strip in Hc.
    by apply chars_remove_control in Hc as [_ Hc].
  - apply strip_tag_free, remove_control_tag_free, remove_tags_tag_free.
  - apply PyStrFacts.strip_idem.
Qed.

(** X28 - [sanitize_field_value]: whatever the value, the string
    returned has at most 1000 characters, none of them one of the control
    characters U+0000 to U+0008, U+000B, U+000C, U+000E to U+001F and
    U+007F; it holds no match of [<[^>]+>] any more, although the tags
    are removed in a single pass; and it has no white space at either
    end. *)
Theorem sanitized_value_is_clean (value : json number) :
  let out := sanitize value in
  (String.length out ≤ 1000)%nat
  ∧ Forall (fun c => is_control c = false) (PyStr.chars out)
  ∧ search tag_pattern out = false
  ∧ PyStr.strip out = out.
Proof.
  intros out. subst out.
  destruct (sanitize_output value) as (Hlen & Hctl & Htag & Hstrip).
  split; [done|]. split; [done|]. split; [by apply tag_free_search | done].
Qed.

(** X29 - [sanitize_field_value] is idempotent: where [str()] of a
    string is the string, sanitising a sanitised value returns it as it
    is. *)
Theorem sanitize_field_value_idempotent (value : json number) :
  (∀ s, py_str (JStr s) = s) →
  sanitize (JStr (sanitize value)) = sanitize value.
Proof.
  intros Hstr.
  destruct (sanitize_output value) as (Hlen & Hctl & Htag & Hstrip).
  cbn [sanitize_field_value]. cbv zeta. rewrite Hstr.
  rewrite (prefix_fixed _ _ Hlen).
  rewrite (remove_tags_fixed _ Htag).
  rewrite (remove_control_fixed _ Hctl).
  exact Hstrip.
Qed.

End Sanitize.

Lemma sanitize_field_value_idempotent_witness :
  let py_str := fun v : json Z =>
                  match v with JStr s => s | _ => EmptyString end in
  let value := JStr "  <b>bold</b> text  " in
  (∀ s, py_str (JStr s) = s)
  ∧ sanitize_field_value Z py_str (JStr (sanitize_field_value Z py_str value))
    = sanitize_field_value Z py_str value.
Proof.
  intros py_str value. split; [done|].
  apply (sanitize_field_value_idempotent Z py_str value). done.
Defined.

End SanitizeFacts.
